(** * productive-cli: resolver, TTL response cache and rate limiter

    A shallow embedding of

    - [packages/productive-cli/src/utils/resource-resolver.ts]
      (module [Resolver]),
    - the [FileCache] class of [src/utils/cache.ts] (module [FileCache]),
    - the sliding-window limiter described in section 4.1 of the
      specification (module [RateLimiter]),
    - the constructor of [FileCache] and the singleton of the same file
      (module [FileCacheInstance]),
    - [src/config.ts] and [maskToken] of [src/commands/config.ts]
      (module [Config]),
    - [formatDuration] of the [cache] command (module [CacheCommand]),

    together with the properties the specification states about them, and
    further properties of the same code. *)

From Stdlib Require Import ZArith Lia Ascii String List Bool Permutation Sorted.
From Stdlib Require Import DecimalString.
From stdpp Require Import base option list gmap strings.

Local Open Scope string_scope.
Local Open Scope list_scope.
Local Open Scope Z_scope.

(** ** JavaScript strings

    A string is a sequence of UTF-16 code units.  The model covers the
    strings whose code units are below 256 (Latin-1); on these the
    functions below agree with their JavaScript namesakes. *)
Module JS.

Definition code (c : ascii) : nat := nat_of_ascii c.

Definition chars (s : string) : list ascii := list_ascii_of_string s.

Definition of_chars (l : list ascii) : string := string_of_list_ascii l.

Definition in_range (lo hi : nat) (c : ascii) : bool :=
  (lo <=? code c)%nat && (code c <=? hi)%nat.

(** [\d] *)
Definition is_digit (c : ascii) : bool := in_range 48 57 c.

(** [\s]: TAB, LF, VT, FF, CR, SP and NBSP are the white space and line
    terminator code units below 256. *)
Definition is_space (c : ascii) : bool :=
  in_range 9 13 c || (code c =? 32)%nat || (code c =? 160)%nat.

(** One code unit of [String.prototype.toLowerCase]. *)
Definition lower_char (c : ascii) : ascii :=
  if in_range 65 90 c
     || in_range 192 214 c || in_range 216 222 c
  then ascii_of_nat (code c + 32) else c.

(** One code unit of [String.prototype.toUpperCase], on the code units
    below 128; the function is only applied to strings that matched one of
    the number patterns, which are made of such code units. *)
Definition upper_char (c : ascii) : ascii :=
  if in_range 97 122 c then ascii_of_nat (code c - 32) else c.

Definition toLowerCase (s : string) : string := of_chars (map lower_char (chars s)).

Definition toUpperCase (s : string) : string := of_chars (map upper_char (chars s)).

Fixpoint drop_spaces (l : list ascii) : list ascii :=
  match l with
  | c :: l' => if is_space c then drop_spaces l' else l
  | [] => []
  end.

(** [String.prototype.trim] *)
Definition trim (s : string) : string :=
  of_chars (rev (drop_spaces (rev (drop_spaces (chars s))))).

Fixpoint starts_with (p l : list ascii) : bool :=
  match p, l with
  | [], _ => true
  | a :: p', b :: l' => if Ascii.eqb a b then starts_with p' l' else false
  | _ :: _, [] => false
  end.

(** [s.startsWith(p)] *)
Definition startsWith (s p : string) : bool := starts_with (chars p) (chars s).

(** [s.endsWith(p)] *)
Definition endsWith (s p : string) : bool :=
  starts_with (rev (chars p)) (rev (chars s)).

Fixpoint has_infix (p l : list ascii) : bool :=
  starts_with p l ||
  match l with
  | [] => false
  | _ :: l' => has_infix p l'
  end.

(** [s.includes(p)] *)
Definition includes (s p : string) : bool := has_infix (chars p) (chars s).

(** Truthiness of a string that may be [undefined]: [undefined] and the
    empty string are falsy. *)
Definition truthy (o : option string) : option string :=
  match o with
  | Some s => if String.eqb s "" then None else Some s
  | None => None
  end.

(** [o || d] for a string that may be [undefined]. *)
Definition or_else (o : option string) (d : string) : string :=
  match truthy o with
  | Some s => s
  | None => d
  end.

(** The double quote character, for template literals that contain it. *)
Definition dquote : string := String (ascii_of_nat 34) EmptyString.

End JS.

(** ** Regular expressions

    The patterns of the resolver are all anchored at both ends, so a
    pattern is tested against the whole string.  Matching is by
    derivatives. *)
Module Regex.

Inductive regex : Type :=
| Void : regex
| Eps : regex
| Cls (p : ascii -> bool) : regex
| Cat (r1 r2 : regex) : regex
| Alt (r1 r2 : regex) : regex
| Star (r : regex) : regex.

(** [r+] *)
Definition Plus (r : regex) : regex := Cat r (Star r).

(** A literal character. *)
Definition Chr (c : ascii) : regex := Cls (Ascii.eqb c).

(** A literal character under the [i] flag. *)
Definition Chri (c : ascii) : regex :=
  Cls (fun x => Ascii.eqb (JS.lower_char x) (JS.lower_char c)).

(** A literal word under the [i] flag. *)
Fixpoint Wordi (l : list ascii) : regex :=
  match l with
  | [] => Eps
  | c :: l' => Cat (Chri c) (Wordi l')
  end.

Fixpoint nullable (r : regex) : bool :=
  match r with
  | Void => false
  | Eps => true
  | Cls _ => false
  | Cat r1 r2 => nullable r1 && nullable r2
  | Alt r1 r2 => nullable r1 || nullable r2
  | Star _ => true
  end.

Fixpoint deriv (c : ascii) (r : regex) : regex :=
  match r with
  | Void => Void
  | Eps => Void
  | Cls p => if p c then Eps else Void
  | Cat r1 r2 =>
      Alt (Cat (deriv c r1) r2) (if nullable r1 then deriv c r2 else Void)
  | Alt r1 r2 => Alt (deriv c r1) (deriv c r2)
  | Star r1 => Cat (deriv c r1) (Star r1)
  end.

Fixpoint accepts (r : regex) (l : list ascii) : bool :=
  match l with
  | [] => nullable r
  | c :: l' => accepts (deriv c r) l'
  end.

(** [r.test(s)] for an anchored pattern [r]. *)
Definition test (r : regex) (s : string) : bool := accepts r (JS.chars s).

(** The language of a pattern. *)
Inductive Matches : regex -> list ascii -> Prop :=
| MEps : Matches Eps []
| MCls p c : p c = true -> Matches (Cls p) [c]
| MCat r1 r2 l1 l2 :
    Matches r1 l1 -> Matches r2 l2 -> Matches (Cat r1 r2) (l1 ++ l2)
| MAltL r1 r2 l : Matches r1 l -> Matches (Alt r1 r2) l
| MAltR r1 r2 l : Matches r2 l -> Matches (Alt r1 r2) l
| MStar0 r : Matches (Star r) []
| MStarS r l1 l2 :
    Matches r l1 -> Matches (Star r) l2 -> Matches (Star r) (l1 ++ l2).

(** The characters a match of [r] may contain. *)
Fixpoint may_contain (r : regex) (c : ascii) : bool :=
  match r with
  | Void | Eps => false
  | Cls p => p c
  | Cat r1 r2 | Alt r1 r2 => may_contain r1 c || may_contain r2 c
  | Star r1 => may_contain r1 c
  end.

(** The characters a match of [r] may start with. *)
Fixpoint may_start (r : regex) (c : ascii) : bool :=
  match r with
  | Void | Eps => false
  | Cls p => p c
  | Cat r1 r2 => may_start r1 c || (nullable r1 && may_start r2 c)
  | Alt r1 r2 => may_start r1 c || may_start r2 c
  | Star r1 => may_start r1 c
  end.

End Regex.

(** ** The resource resolver: [resource-resolver.ts] *)
Module Resolver.

Import Regex.

Inductive ResolvableResourceType : Type :=
| person | project | company | deal | service.

(** The type as it is printed inside a template literal. *)
Definition type_name (t : ResolvableResourceType) : string :=
  match t with
  | person => "person"
  | project => "project"
  | company => "company"
  | deal => "deal"
  | service => "service"
  end.

Record ResolveResult : Type := mkResult {
  rr_id : string;
  rr_type : ResolvableResourceType;
  rr_label : string;
  rr_query : string;
  rr_exact : bool
}.

Record ResolveOptions : Type := mkOptions {
  opt_type : option ResolvableResourceType;
  opt_projectId : option string;
  opt_first : bool;
  opt_orgId : option string
}.

Inductive Confidence : Type := high | medium | low.

Record DetectionResult : Type := mkDetection {
  det_type : ResolvableResourceType;
  det_confidence : Confidence;
  det_pattern : string
}.

(** What a rejected promise carries: a [ResolveError] with its message,
    query, type and suggestions, or any other error. *)
Inductive Error : Type :=
| ResolveError (message query : string) (type : option ResolvableResourceType)
    (suggestions : option (list ResolveResult))
| OtherError.

(** [[^\s@]] *)
Definition not_space_at (c : ascii) : bool :=
  negb (JS.is_space c || Ascii.eqb c "@").

(** [/^[^\s@]+@[^\s@]+\.[^\s@]+$/] *)
Definition EMAIL_PATTERN : regex :=
  Cat (Plus (Cls not_space_at))
    (Cat (Chr "@")
       (Cat (Plus (Cls not_space_at))
          (Cat (Chr ".") (Plus (Cls not_space_at))))).

(** [/^(PRJ|P)-\d+$/i] *)
Definition PROJECT_NUMBER_PATTERN : regex :=
  Cat (Alt (Wordi (JS.chars "PRJ")) (Wordi (JS.chars "P")))
    (Cat (Chr "-") (Plus (Cls JS.is_digit))).

(** [/^(D|DEAL)-\d+$/i] *)
Definition DEAL_NUMBER_PATTERN : regex :=
  Cat (Alt (Wordi (JS.chars "D")) (Wordi (JS.chars "DEAL")))
    (Cat (Chr "-") (Plus (Cls JS.is_digit))).

(** [/^\d+$/] *)
Definition NUMERIC_ID_PATTERN : regex := Plus (Cls JS.is_digit).

Definition detectResourceType (query : string) : option DetectionResult :=
  if test NUMERIC_ID_PATTERN query then None
  else if test EMAIL_PATTERN query then
    Some (mkDetection person high "email")
  else if test PROJECT_NUMBER_PATTERN query then
    Some (mkDetection project high "project_number")
  else if test DEAL_NUMBER_PATTERN query then
    Some (mkDetection deal high "deal_number")
  else None.

Definition isNumericId (value : string) : bool := test NUMERIC_ID_PATTERN value.

(** [^(D|DEAL)-\d+$] read as it is written in the specification, without
    the [i] flag. *)
Definition DEAL_NUMBER_PATTERN_as_stated : regex :=
  Cat (Alt (Chr "D") (Cat (Chr "D") (Cat (Chr "E") (Cat (Chr "A") (Chr "L")))))
    (Cat (Chr "-") (Plus (Cls JS.is_digit))).

(** Type detection in the words of the specification: numeric strings are
    not detected, an email shape is a person, [PRJ-\d+] or [P-\d+] in any
    case is a project, [D-\d+] or [DEAL-\d+] is a deal, anything else is
    not detected. *)
Definition detectType_as_stated (query : string) : option ResolvableResourceType :=
  if test NUMERIC_ID_PATTERN query then None
  else if test EMAIL_PATTERN query then Some person
  else if test PROJECT_NUMBER_PATTERN query then Some project
  else if test DEAL_NUMBER_PATTERN_as_stated query then Some deal
  else None.

Definition needsResolution (value : string) : bool := negb (isNumericId value).

(** *** The API and the resolve cache

    Both are outside the resolver.  A run of the resolver is a function of
    the events so far: every request and every cache access is appended to
    the trace, and the world answers each of them from the trace it was
    made after, so that an answer may depend on everything that happened
    before (a cache that remembers what was written, an API whose data
    changes). *)

Inductive Collection : Type :=
| People | Projects | Companies | Deals | Services.

Record ApiRequest : Type := mkRequest {
  req_collection : Collection;
  req_filter : list (string * string);
  req_perPage : nat
}.

(** The attribute bag of a resource; an attribute can be missing. *)
Record Attributes : Type := mkAttributes {
  first_name : option string;
  last_name : option string;
  name : option string
}.

Record Resource : Type := mkResource {
  res_id : string;
  attributes : Attributes
}.

Inductive Event : Type :=
| ApiCall (req : ApiRequest)
| CacheGet (orgId key : string)
| CacheSet (orgId key : string) (value : ResolveResult) (endpoint : string)
    (ttl : Z).

Definition Trace : Type := list Event.

Record World : Type := mkWorld {
  (** the [data] of the response, or [None] when the request fails *)
  api_answer : Trace -> ApiRequest -> option (list Resource);
  (** [getSqliteCache(orgId).cacheGet(key)]: [None] when it throws,
      [Some None] for [null] *)
  cache_answer : Trace -> string -> string -> option (option ResolveResult);
  (** [getSqliteCache(orgId).cacheSet(...)]: [false] when it throws *)
  cache_accepts :
    Trace -> string -> string -> ResolveResult -> string -> Z -> bool
}.

Inductive Outcome (A : Type) : Type :=
| Ok (a : A)
| Throw (e : Error).
Arguments Ok {A} a.
Arguments Throw {A} e.

(** An asynchronous computation: from the trace so far to its outcome and
    the extended trace. *)
Definition M (A : Type) : Type := World -> Trace -> Outcome A * Trace.

Definition ret {A} (a : A) : M A := fun _ t => (Ok a, t).

Definition throw {A} (e : Error) : M A := fun _ t => (Throw e, t).

Definition bind {A B} (m : M A) (f : A -> M B) : M B :=
  fun w t =>
    match m w t with
    | (Ok a, t') => f a w t'
    | (Throw e, t') => (Throw e, t')
    end.

(** [try { m } catch { h }] *)
Definition try_catch {A} (m : M A) (h : M A) : M A :=
  fun w t =>
    match m w t with
    | (Ok a, t') => (Ok a, t')
    | (Throw _, t') => h w t'
    end.

Declare Scope resolver_scope.
Delimit Scope resolver_scope with resolver.
Notation "x <- m ;; k" := (bind m (fun x => k))
  (at level 100, m at next level, right associativity) : resolver_scope.
Notation "m ;;; k" := (bind m (fun _ => k))
  (at level 100, right associativity) : resolver_scope.
Local Open Scope resolver_scope.

Definition api_get (req : ApiRequest) : M (list Resource) :=
  fun w t =>
    match api_answer w t req with
    | Some data => (Ok data, t ++ [ApiCall req])
    | None => (Throw OtherError, t ++ [ApiCall req])
    end.

Definition cacheGet (orgId key : string) : M (option ResolveResult) :=
  fun w t =>
    match cache_answer w t orgId key with
    | Some r => (Ok r, t ++ [CacheGet orgId key])
    | None => (Throw OtherError, t ++ [CacheGet orgId key])
    end.

Definition cacheSet (orgId key : string) (value : ResolveResult)
    (endpoint : string) (ttl : Z) : M unit :=
  fun w t =>
    if cache_accepts w t orgId key value endpoint ttl
    then (Ok tt, t ++ [CacheSet orgId key value endpoint ttl])
    else (Throw OtherError, t ++ [CacheSet orgId key value endpoint ttl]).

Definition getPeople := fun f n => api_get (mkRequest People f n).
Definition getProjects := fun f n => api_get (mkRequest Projects f n).
Definition getCompanies := fun f n => api_get (mkRequest Companies f n).
Definition getDeals := fun f n => api_get (mkRequest Deals f n).
Definition getServices := fun f n => api_get (mkRequest Services f n).

(** [`${first_name || ''} ${last_name || ''}`.trim()] *)
Definition full_name (a : Attributes) : string :=
  JS.trim (JS.or_else (first_name a) "" +:+ " " +:+ JS.or_else (last_name a) "").

Definition resolvePersonByEmail (email : string) : M (option ResolveResult) :=
  data <- getPeople [("email", email)] 1%nat ;;
  match data with
  | [] => ret None
  | p :: _ =>
      ret (Some (mkResult (res_id p) person
                   (JS.or_else (Some (full_name (attributes p))) email)
                   email true))
  end.

Definition resolvePersonByName (nm : string) : M (list ResolveResult) :=
  data <- getPeople [("query", nm)] 10%nat ;;
  ret (map (fun p => mkResult (res_id p) person (full_name (attributes p)) nm false)
         data).

(** [s.replace(/^from/, to)] for a literal [from]. *)
Definition replace_prefix (from to s : string) : string :=
  if JS.startsWith s from
  then to +:+ JS.of_chars (drop (length (JS.chars from)) (JS.chars s))
  else s.

Definition resolveProjectByNumber (projectNumber : string)
  : M (option ResolveResult) :=
  let normalizedNumber :=
    replace_prefix "P-" "PRJ-" (JS.toUpperCase projectNumber) in
  data <- getProjects [("project_number", normalizedNumber)] 1%nat ;;
  match data with
  | [] =>
      altData <- getProjects [("project_number", projectNumber)] 1%nat ;;
      match altData with
      | [] => ret None
      | p :: _ =>
          ret (Some (mkResult (res_id p) project
                       (JS.or_else (name (attributes p)) projectNumber)
                       projectNumber true))
      end
  | p :: _ =>
      ret (Some (mkResult (res_id p) project
                   (JS.or_else (name (attributes p)) projectNumber)
                   projectNumber true))
  end.

Definition resolveProjectByName (nm : string) : M (list ResolveResult) :=
  data <- getProjects [("query", nm)] 10%nat ;;
  ret (map (fun p =>
              mkResult (res_id p) project (JS.or_else (name (attributes p)) "")
                nm false)
         data).

Definition resolveCompanyByName (nm : string) : M (list ResolveResult) :=
  data <- getCompanies [("query", nm)] 10%nat ;;
  ret (map (fun p =>
              mkResult (res_id p) company (JS.or_else (name (attributes p)) "")
                nm false)
         data).

Definition resolveDealByNumber (dealNumber : string)
  : M (option ResolveResult) :=
  let normalizedNumber :=
    replace_prefix "DEAL-" "D-" (JS.toUpperCase dealNumber) in
  data <- getDeals [("deal_number", normalizedNumber)] 1%nat ;;
  match data with
  | [] =>
      altData <- getDeals [("deal_number", dealNumber)] 1%nat ;;
      match altData with
      | [] => ret None
      | p :: _ =>
          ret (Some (mkResult (res_id p) deal
                       (JS.or_else (name (attributes p)) dealNumber)
                       dealNumber true))
      end
  | p :: _ =>
      ret (Some (mkResult (res_id p) deal
                   (JS.or_else (name (attributes p)) dealNumber)
                   dealNumber true))
  end.

Definition resolveDealByName (nm : string) : M (list ResolveResult) :=
  data <- getDeals [("query", nm)] 10%nat ;;
  ret (map (fun p =>
              mkResult (res_id p) deal (JS.or_else (name (attributes p)) "")
                nm false)
         data).

Definition resolveServiceByName (nm : string) (projectId : option string)
  : M (list ResolveResult) :=
  let filter :=
    match JS.truthy projectId with
    | Some pid => [("project_id", pid)]
    | None => []
    end in
  data <- getServices filter 200%nat ;;
  let nameLower := JS.toLowerCase nm in
  let matches :=
    List.filter
      (fun s =>
         JS.includes (JS.toLowerCase (JS.or_else (name (attributes s)) ""))
           nameLower)
      data in
  ret (map (fun s =>
              mkResult (res_id s) service (JS.or_else (name (attributes s)) "")
                nm
                (String.eqb
                   (JS.toLowerCase (JS.or_else (name (attributes s)) ""))
                   nameLower))
         matches).

Definition getResolveCacheKey (orgId : string) (type : ResolvableResourceType)
    (query : string) : string :=
  "resolve:" +:+ orgId +:+ ":" +:+ type_name type +:+ ":" +:+ JS.toLowerCase query.

(** [CACHE_TTL.exact] and [CACHE_TTL.fuzzy] *)
Definition CACHE_TTL_exact : Z := 24 * 60 * 60 * 1000.
Definition CACHE_TTL_fuzzy : Z := 60 * 60 * 1000.

Definition getCachedResolve (orgId : string) (type : ResolvableResourceType)
    (query : string) : M (option ResolveResult) :=
  try_catch
    (let key := getResolveCacheKey orgId type query in
     cacheGet orgId key)
    (ret None).

Definition setCachedResolve (orgId : string) (result : ResolveResult) : M unit :=
  try_catch
    (let key := getResolveCacheKey orgId (rr_type result) (rr_query result) in
     let ttl := if rr_exact result then CACHE_TTL_exact else CACHE_TTL_fuzzy in
     cacheSet orgId key result "/resolve" ttl)
    (ret tt).

(** [result ? [result] : []] *)
Definition to_list {A} (o : option A) : list A :=
  match o with
  | Some a => [a]
  | None => []
  end.

(** The type the cache is consulted for: [type || detectResourceType(query)?.type]. *)
Definition cache_type (query : string) (options : ResolveOptions)
  : option ResolvableResourceType :=
  match opt_type options with
  | Some t => Some t
  | None => det_type <$> detectResourceType query
  end.

(** The "try cache first" block of [resolve]. *)
Definition try_cache (query : string) (options : ResolveOptions)
  : M (option ResolveResult) :=
  match JS.truthy (opt_orgId options) with
  | Some orgId =>
      match cache_type query options with
      | Some resourceType => getCachedResolve orgId resourceType query
      | None => ret None
      end
  | None => ret None
  end.

(** The "determine resource type" block of [resolve]: the type and the
    detected pattern, or [None] where the code throws. *)
Definition determine_type (query : string) (options : ResolveOptions)
  : option (ResolvableResourceType * option string) :=
  match opt_type options with
  | Some t => Some (t, None)
  | None =>
      match detectResourceType query with
      | Some detection => Some (det_type detection, Some (det_pattern detection))
      | None => None
      end
  end.

Definition pattern_is (pattern : option string) (p : string) : bool :=
  match pattern with
  | Some q => String.eqb q p
  | None => false
  end.

(** The [switch (resourceType)] of [resolve]. *)
Definition lookup (resourceType : ResolvableResourceType)
    (pattern : option string) (query : string) (projectId : option string)
  : M (list ResolveResult) :=
  match resourceType with
  | person =>
      if pattern_is pattern "email" || test EMAIL_PATTERN query
      then result <- resolvePersonByEmail query ;; ret (to_list result)
      else resolvePersonByName query
  | project =>
      if pattern_is pattern "project_number" || test PROJECT_NUMBER_PATTERN query
      then result <- resolveProjectByNumber query ;; ret (to_list result)
      else resolveProjectByName query
  | company => resolveCompanyByName query
  | deal =>
      if pattern_is pattern "deal_number" || test DEAL_NUMBER_PATTERN query
      then result <- resolveDealByNumber query ;; ret (to_list result)
      else resolveDealByName query
  | service => resolveServiceByName query projectId
  end.

(** The tail of [resolve], from "handle no matches" on. *)
Definition finish (resourceType : ResolvableResourceType) (query : string)
    (options : ResolveOptions) (results : list ResolveResult)
  : M (list ResolveResult) :=
  match results with
  | [] =>
      throw (ResolveError
               ("No " +:+ type_name resourceType +:+ " found matching "
                +:+ JS.dquote +:+ query +:+ JS.dquote)
               query (Some resourceType) None)
  | r0 :: rest =>
      match JS.truthy (opt_orgId options), rest with
      | Some orgId, [] => setCachedResolve orgId r0
      | _, _ => ret tt
      end ;;;
      if opt_first options && (1 <? length results)%nat
      then ret [r0]
      else ret results
  end.

Definition resolve (query : string) (options : ResolveOptions)
  : M (list ResolveResult) :=
  if isNumericId query then
    ret [mkResult query (default project (opt_type options)) query query true]
  else
    cached <- try_cache query options ;;
    match cached with
    | Some c => ret [c]
    | None =>
        match determine_type query options with
        | None =>
            throw (ResolveError
                     ("Cannot determine resource type for " +:+ JS.dquote
                      +:+ query +:+ JS.dquote +:+ ". Use --type to specify.")
                     query None None)
        | Some (resourceType, pattern) =>
            results <- lookup resourceType pattern query (opt_projectId options) ;;
            finish resourceType query options results
        end
    end.

(** [{ ...options, type, first: true }] *)
Definition with_type_first (options : ResolveOptions)
    (type : ResolvableResourceType) : ResolveOptions :=
  mkOptions (Some type) (opt_projectId options) true (opt_orgId options).

Definition resolveFilterValue (value : string) (type : ResolvableResourceType)
    (options : ResolveOptions) : M string :=
  if isNumericId value then ret value
  else
    results <- resolve value (with_type_first options type) ;;
    match results with
    | [] =>
        throw (ResolveError
                 ("No " +:+ type_name type +:+ " found matching "
                  +:+ JS.dquote +:+ value +:+ JS.dquote)
                 value (Some type) None)
    | r :: _ => ret (rr_id r)
    end.

Record ResolvedEntry : Type := mkEntry {
  input : string;
  entry_id : string;
  entry_label : string;
  reusable : bool
}.

(** *** Plain objects

    [typeMapping], [resolved] and [metadata] are plain objects, used as
    maps from strings.  A map of the own properties of such an object is
    not the whole of it: the object inherits the properties of
    [Object.prototype], which a read finds when there is no own property
    of that name, and [__proto__] is an accessor, so that an assignment to
    it makes no own property.  ([Object.prototype] is taken as the
    language defines it.) *)

(** The names of the properties of [Object.prototype]. *)
Definition Object_prototype_names : list string :=
  ["constructor"; "__defineGetter__"; "__defineSetter__"; "hasOwnProperty";
   "__lookupGetter__"; "__lookupSetter__"; "isPrototypeOf";
   "propertyIsEnumerable"; "toString"; "valueOf"; "__proto__";
   "toLocaleString"].

(** What [typeMapping[key]] is when it is not [undefined]: the resource
    type of an own property, or the value inherited from
    [Object.prototype] under that name - one of its functions, or
    [Object.prototype] itself for [__proto__].  Either is truthy. *)
Inductive MappedValue : Type :=
| OwnType (type : ResolvableResourceType)
| Inherited (name : string).

(** [typeMapping[key]], for the object whose own properties are
    [typeMapping]. *)
Definition typeMapping_at (typeMapping : gmap string ResolvableResourceType)
    (key : string) : option MappedValue :=
  match typeMapping !! key with
  | Some type => Some (OwnType type)
  | None =>
      if existsb (String.eqb key) Object_prototype_names
      then Some (Inherited key)
      else None
  end.

(** The two objects [resolveFilterIds] fills in and returns, by their own
    properties, and the prototype of [metadata] when it is no longer
    [Object.prototype]. *)
Record Resolved : Type := mkResolved {
  resolved : gmap string string;
  metadata : gmap string ResolvedEntry;
  metadata_proto : option ResolvedEntry
}.

(** [resolved[key] = value]: the setter of [__proto__] ignores a string. *)
Definition set_resolved (key value : string) (acc : Resolved) : Resolved :=
  if String.eqb key "__proto__" then acc
  else mkResolved (<[key := value]> (resolved acc)) (metadata acc)
         (metadata_proto acc).

(** [metadata[key] = entry]: the setter of [__proto__] makes the entry the
    prototype of [metadata]. *)
Definition set_metadata (key : string) (entry : ResolvedEntry) (acc : Resolved)
  : Resolved :=
  if String.eqb key "__proto__"
  then mkResolved (resolved acc) (metadata acc) (Some entry)
  else mkResolved (resolved acc) (<[key := entry]> (metadata acc))
         (metadata_proto acc).

(** [resolve(api, query, { ...options, type, first: true })] for a query
    that is not numeric and a [type] that is a value inherited from
    [Object.prototype], [printed] in a template literal: being truthy it
    is taken as the resource type, the cache is asked under the key made
    of it, and as no [case] of the [switch] is equal to it, [results]
    stays empty and the [ResolveError] is thrown.  (The error also
    carries the inherited value as its type, for which [Error] has no
    place; the one caller drops the error.) *)
Definition resolve_inherited (printed query : string) (options : ResolveOptions)
  : M (list ResolveResult) :=
  cached <-
    match JS.truthy (opt_orgId options) with
    | Some orgId =>
        try_catch
          (let key :=
             "resolve:" +:+ orgId +:+ ":" +:+ printed +:+ ":"
             +:+ JS.toLowerCase query in
           cacheGet orgId key)
          (ret None)
    | None => ret None
    end ;;
  match cached with
  | Some c => ret [c]
  | None =>
      throw (ResolveError
               ("No " +:+ printed +:+ " found matching "
                +:+ JS.dquote +:+ query +:+ JS.dquote)
               query None None)
  end.

(** One iteration of the loop of [resolveFilterIds].  [inherited_text name]
    is [`${Object.prototype[name]}`], the text the engine prints for the
    inherited value. *)
Definition resolveFilterIds_step (inherited_text : string -> string)
    (typeMapping : gmap string ResolvableResourceType)
    (options : ResolveOptions) (acc : Resolved) (kv : string * string)
  : M Resolved :=
  let '(key, value) := kv in
  match typeMapping_at typeMapping key with
  | None => ret (set_resolved key value acc)
  | Some type =>
      if isNumericId value
      then ret (set_resolved key value acc)
      else
        try_catch
          (results <-
             match type with
             | OwnType type => resolve value (with_type_first options type)
             | Inherited name =>
                 resolve_inherited (inherited_text name) value options
             end ;;
           match results with
           | result :: _ =>
               ret (set_metadata key
                      (mkEntry value (rr_id result) (rr_label result)
                         (rr_exact result))
                      (set_resolved key (rr_id result) acc))
           | [] => ret (set_resolved key value acc)
           end)
          (ret (set_resolved key value acc))
  end.

Fixpoint resolveFilterIds_loop (inherited_text : string -> string)
    (typeMapping : gmap string ResolvableResourceType)
    (options : ResolveOptions) (entries : list (string * string))
    (acc : Resolved) : M Resolved :=
  match entries with
  | [] => ret acc
  | kv :: rest =>
      acc' <- resolveFilterIds_step inherited_text typeMapping options acc kv ;;
      resolveFilterIds_loop inherited_text typeMapping options rest acc'
  end.

(** [filters] is given by [Object.entries(filters)], the list of its own
    properties in enumeration order. *)
Definition resolveFilterIds (inherited_text : string -> string)
    (filters : list (string * string))
    (typeMapping : gmap string ResolvableResourceType)
    (options : ResolveOptions) : M Resolved :=
  resolveFilterIds_loop inherited_text typeMapping options filters
    (mkResolved ∅ ∅ None).

(** *** Example worlds *)

(** Every request and every cache access fails. *)
Definition no_api : World :=
  mkWorld (fun _ _ => None) (fun _ _ _ => None) (fun _ _ _ _ _ _ => false).

(** The API knows nothing and the cache is empty. *)
Definition empty_api : World :=
  mkWorld (fun _ _ => Some []) (fun _ _ _ => Some None)
    (fun _ _ _ _ _ _ => true).

Definition john : Resource :=
  mkResource "500521" (mkAttributes (Some "John") (Some "Doe") None).

Definition jane : Resource :=
  mkResource "500522" (mkAttributes (Some "Jane") (Some "Doe") None).

(** The API answers every request for people with John and Jane, and has
    nothing else; the cache is empty. *)
Definition people_api : World :=
  mkWorld
    (fun _ req =>
       match req_collection req with
       | People => Some [john; jane]
       | _ => Some []
       end)
    (fun _ _ _ => Some None)
    (fun _ _ _ _ _ _ => true).

Definition example_filters : list (string * string) :=
  [("project_id", "777332"); ("person_id", "Doe"); ("status", "open")].

Definition example_mapping : gmap string ResolvableResourceType :=
  <["project_id" := project]> (<["person_id" := person]> ∅).

(** The inherited values as Node prints them. *)
Definition native_code (name : string) : string :=
  if String.eqb name "__proto__" then "[object Object]"
  else
    "function " +:+ (if String.eqb name "constructor" then "Object" else name)
    +:+ "() { [native code] }".

End Resolver.

(** ** The TTL response cache: class [FileCache] of [cache.ts] *)
Module FileCache.

Record CacheEntry : Type := mkEntry {
  data : string;          (* the cached response, as JSON text *)
  timestamp : Z;          (* milliseconds *)
  ttl : Z;                (* seconds *)
  endpoint : string;
  params : list (string * string)
}.

Record CacheOptions : Type := mkCacheOptions {
  opt_ttl : option Z;
  opt_enabled : option bool
}.

(** [DEFAULT_TTLS], in the order [Object.entries] enumerates it. *)
Definition DEFAULT_TTLS : list (string * Z) :=
  [ ("/projects", 3600);
    ("/people", 3600);
    ("/services", 3600);
    ("/time_entries", 300);
    ("/tasks", 900);
    ("/budgets", 900) ].

Definition MAX_CACHE_SIZE : Z := 50 * 1024 * 1024.
Definition MAX_CACHE_ENTRIES : nat := 1000.

(** The [for] loop of [getTTL] over a table. *)
Fixpoint getTTL_loop (table : list (string * Z)) (endpoint : string) : option Z :=
  match table with
  | [] => None
  | (pattern, ttl) :: rest =>
      if JS.startsWith endpoint pattern then Some ttl
      else getTTL_loop rest endpoint
  end.

Definition getTTL (endpoint : string) (customTTL : option Z) : Z :=
  match customTTL with
  | Some t => t
  | None => default 300 (getTTL_loop DEFAULT_TTLS endpoint)
  end.

(** The specification's reading of the default: among the rows of the
    table whose pattern is a prefix of the endpoint, the value of one with
    the longest pattern; [best] is the longest match found so far. *)
Fixpoint longest_match (table : list (string * Z)) (endpoint : string)
    (best : option (string * Z)) : option (string * Z) :=
  match table with
  | [] => best
  | (pattern, ttl) :: rest =>
      if JS.startsWith endpoint pattern then
        match best with
        | Some (p, _) =>
            if (String.length p <? String.length pattern)%nat
            then longest_match rest endpoint (Some (pattern, ttl))
            else longest_match rest endpoint best
        | None => longest_match rest endpoint (Some (pattern, ttl))
        end
      else longest_match rest endpoint best
  end.

Definition longest_prefix_ttl (endpoint : string) : Z :=
  match longest_match DEFAULT_TTLS endpoint None with
  | Some (_, ttl) => ttl
  | None => 300
  end.

(** *** The cache directory *)

(** What [JSON.parse] makes of a file.  The directory is the cache's own:
    a file in it holds the text of an entry, as [set] writes it, or text
    that does not parse. *)
Inductive Content : Type :=
| Json (e : CacheEntry)
| Garbage.

Record File : Type := mkFile {
  content : Content;
  size : N                (* [stat.size], in bytes *)
}.

(** The files of the cache directory under their names, in the order
    [readdirSync] lists them. *)
Definition Directory : Type := list (string * File).

Fixpoint find_file (nm : string) (d : Directory) : option File :=
  match d with
  | [] => None
  | (n, f) :: d' => if String.eqb n nm then Some f else find_file nm d'
  end.

Definition remove_file (nm : string) (d : Directory) : Directory :=
  List.filter (fun nf => negb (String.eqb (fst nf) nm)) d.

Fixpoint write_file (nm : string) (f : File) (d : Directory) : Directory :=
  match d with
  | [] => [(nm, f)]
  | (n, g) :: d' =>
      if String.eqb n nm then (n, f) :: d' else (n, g) :: write_file nm f d'
  end.

Record State : Type := mkState {
  dir : option Directory;     (* [None]: the directory does not exist *)
  ops : nat;                  (* interactions with the environment so far *)
  immediates : nat;           (* callbacks queued by [setImmediate] *)
  unlinked : list string      (* the files deleted so far, oldest first *)
}.

(** The environment: which interaction fails, what the clock reads, the
    first 16 hex digits of the SHA-256 digest of the normalised key, and
    the size of the JSON text of an entry. *)
Record World : Type := mkWorld {
  fault : nat -> bool;
  clock : nat -> Z;
  digest : string -> list (string * string) -> string -> string;
  json_size : CacheEntry -> N
}.

Inductive Outcome (A : Type) : Type :=
| Ok (a : A)
| Throw.
Arguments Ok {A} a.
Arguments Throw {A}.

Record Stats : Type := mkStats {
  entries : nat;
  total : Z;              (* the [size] field *)
  oldestAge : Z
}.

Record FileInfo : Type := mkInfo {
  path : string;
  fi_timestamp : Z;
  fi_size : N
}.

(** [age > entry.ttl] with [age = (now - entry.timestamp) / 1000]; on
    integers the comparison is the same before the division. *)
Definition expired (now : Z) (e : CacheEntry) : bool :=
  ttl e * 1000 <? now - timestamp e.

(** [fileInfos.sort((a, b) => a.timestamp - b.timestamp)]: a stable sort. *)
Fixpoint insert_by_timestamp (x : FileInfo) (l : list FileInfo) : list FileInfo :=
  match l with
  | [] => [x]
  | y :: l' =>
      if fi_timestamp x <=? fi_timestamp y then x :: l
      else y :: insert_by_timestamp x l'
  end.

Definition sort_by_timestamp (l : list FileInfo) : list FileInfo :=
  foldr insert_by_timestamp [] l.

Definition is_json (nm : string) : bool := JS.endsWith nm ".json".

(** The entries of a directory: its [.json] files. *)
Definition json_files (d : Directory) : Directory :=
  List.filter (fun nf => is_json (fst nf)) d.

Definition total_size (d : Directory) : Z :=
  foldr (fun nf acc => Z.of_N (size (snd nf)) + acc) 0 d.

(** The [fileInfos] element the sweep makes of an entry. *)
Definition entry_info (nf : string * File) : FileInfo :=
  mkInfo (fst nf)
    match content (snd nf) with
    | Json e => timestamp e
    | Garbage => 0
    end
    (size (snd nf)).

Definition info_size (l : list FileInfo) : Z :=
  foldr (fun i acc => Z.of_N (fi_size i) + acc) 0 l.

(** The directory without the files of the given names. *)
Definition drop_names (names : list string) (d : Directory) : Directory :=
  List.filter (fun nf => negb (existsb (String.eqb (fst nf)) names)) d.



Section Instance.

Variable w : World.
Variable enabled : bool.

Definition FM (A : Type) : Type := State -> Outcome A * State.

Definition ret {A} (a : A) : FM A := fun s => (Ok a, s).

Definition throw {A} : FM A := fun s => (Throw, s).

Definition bind {A B} (m : FM A) (f : A -> FM B) : FM B :=
  fun s =>
    match m s with
    | (Ok a, s') => f a s'
    | (Throw, s') => (Throw, s')
    end.

(** [try { m } catch { h }] *)
Definition try_catch {A} (m : FM A) (h : FM A) : FM A :=
  fun s =>
    match m s with
    | (Ok a, s') => (Ok a, s')
    | (Throw, s') => h s'
    end.

Declare Scope cache_scope.
Delimit Scope cache_scope with cache.
Notation "x <- m ;; k" := (bind m (fun x => k))
  (at level 100, m at next level, right associativity) : cache_scope.
Notation "m ;;; k" := (bind m (fun _ => k))
  (at level 100, right associativity) : cache_scope.
Local Open Scope cache_scope.

Definition tick (s : State) : State :=
  mkState (dir s) (S (ops s)) (immediates s) (unlinked s).

(** An interaction with the environment: it throws when the environment
    fails it, or when the operation itself is not possible. *)
Definition io {A} (f : State -> option (A * State)) : FM A :=
  fun s =>
    if fault w (ops s) then (Throw, tick s)
    else
      match f s with
      | Some (a, s') => (Ok a, tick s')
      | None => (Throw, tick s)
      end.

Definition existsSync_dir : FM bool :=
  fun s => (Ok (bool_decide (is_Some (dir s))), s).

Definition existsSync (nm : string) : FM bool :=
  fun s =>
    (Ok (match dir s with
         | Some d => bool_decide (is_Some (find_file nm d))
         | None => false
         end), s).

Definition readdirSync : FM (list string) :=
  io (fun s => d ← dir s; Some (map fst d, s)).

Definition statSync (nm : string) : FM N :=
  io (fun s => d ← dir s; f ← find_file nm d; Some (size f, s)).

Definition readFileSync (nm : string) : FM Content :=
  io (fun s => d ← dir s; f ← find_file nm d; Some (content f, s)).

Definition unlinkSync (nm : string) : FM unit :=
  io (fun s =>
        d ← dir s; _ ← find_file nm d;
        Some (tt, mkState (Some (remove_file nm d)) (ops s) (immediates s)
                    (unlinked s ++ [nm]))).

Definition writeFileSync (nm : string) (f : File) : FM unit :=
  io (fun s =>
        d ← dir s;
        Some (tt, mkState (Some (write_file nm f d)) (ops s) (immediates s)
                    (unlinked s))).

Definition JSON_parse (c : Content) : FM CacheEntry :=
  match c with
  | Json e => ret e
  | Garbage => throw
  end.

Definition JSON_stringify (e : CacheEntry) : FM File :=
  io (fun s => Some (mkFile (Json e) (json_size w e), s)).

Definition Date_now : FM Z :=
  fun s => (Ok (clock w (ops s)), tick s).

Definition setImmediate_cleanup : FM unit :=
  fun s => (Ok tt, mkState (dir s) (ops s) (S (immediates s)) (unlinked s)).

Definition getCacheKey (endpoint : string) (params : list (string * string))
    (orgId : string) : FM string :=
  io (fun s => Some (digest w endpoint params orgId, s)).

(** The [try] block of [get]. *)
Definition get_try (endpoint : string) (params : list (string * string))
    (orgId : string) : FM (option string) :=
  key <- getCacheKey endpoint params orgId ;;
  let filePath := key +:+ ".json" in
  found <- existsSync filePath ;;
  if negb found then ret None
  else
    content <- readFileSync filePath ;;
    entry <- JSON_parse content ;;
    now <- Date_now ;;
    if expired now entry then
      try_catch (unlinkSync filePath) (ret tt) ;;;
      ret None
    else ret (Some (data entry)).

Definition get (endpoint : string) (params : list (string * string))
    (orgId : string) : FM (option string) :=
  if negb enabled then ret None
  else try_catch (get_try endpoint params orgId) (ret None).

(** The [try] block of [set]. *)
Definition set_try (endpoint : string) (params : list (string * string))
    (orgId : string) (data : string) (options : option CacheOptions) : FM unit :=
  key <- getCacheKey endpoint params orgId ;;
  let filePath := key +:+ ".json" in
  let ttl := getTTL endpoint (options ≫= opt_ttl) in
  now <- Date_now ;;
  let entry := mkEntry data now ttl endpoint params in
  text <- JSON_stringify entry ;;
  writeFileSync filePath text ;;;
  setImmediate_cleanup.

Definition set (endpoint : string) (params : list (string * string))
    (orgId : string) (data : string) (options : option CacheOptions) : FM unit :=
  if negb enabled then ret tt
  else try_catch (set_try endpoint params orgId data options) (ret tt).

(** The [for] loop of [invalidate]. *)
Fixpoint invalidate_loop (files : list string) (endpointPattern : option string)
  : FM unit :=
  match files with
  | [] => ret tt
  | file :: rest =>
      (if negb (is_json file) then ret tt
       else
         match JS.truthy endpointPattern with
         | None => unlinkSync file
         | Some pattern =>
             try_catch
               (content <- readFileSync file ;;
                entry <- JSON_parse content ;;
                if JS.includes (endpoint entry) pattern
                then unlinkSync file
                else ret tt)
               (unlinkSync file)
         end) ;;;
      invalidate_loop rest endpointPattern
  end.

(** The [try] block of [invalidate]. *)
Definition invalidate_try (endpointPattern : option string) : FM unit :=
  files <- readdirSync ;;
  invalidate_loop files endpointPattern.

Definition invalidate (endpointPattern : option string) : FM unit :=
  if negb enabled then ret tt
  else try_catch (invalidate_try endpointPattern) (ret tt).

Definition clear : FM unit := invalidate None.

(** The [for] loop of [stats]. *)
Fixpoint stats_loop (files : list string) (totalSize oldestTimestamp : Z)
  : FM (Z * Z) :=
  match files with
  | [] => ret (totalSize, oldestTimestamp)
  | file :: rest =>
      sz <- statSync file ;;
      let totalSize := totalSize + Z.of_N sz in
      oldest <-
        try_catch
          (content <- readFileSync file ;;
           entry <- JSON_parse content ;;
           if timestamp entry <? oldestTimestamp
           then ret (timestamp entry)
           else ret oldestTimestamp)
          (ret oldestTimestamp) ;;
      stats_loop rest totalSize oldest
  end.

Definition no_stats : Stats := mkStats 0 0 0.

(** [Math.round(x / 1000)] on an integer [x]. *)
Definition round_div_1000 (x : Z) : Z := (x + 500) / 1000.

(** The [try] block of [stats]. *)
Definition stats_try : FM Stats :=
  names <- readdirSync ;;
  let files := List.filter is_json names in
  start <- Date_now ;;
  r <- stats_loop files 0 start ;;
  now <- Date_now ;;
  ret (mkStats (length files) (fst r) (round_div_1000 (now - snd r))).

Definition stats : FM Stats :=
  found <- existsSync_dir ;;
  if negb enabled || negb found then ret no_stats
  else try_catch stats_try (ret no_stats).

(** The first loop of [cleanup]: expired and unreadable files are
    deleted, the others are listed. *)
Fixpoint cleanup_scan (files : list string) (totalSize : Z)
    (fileInfos : list FileInfo) : FM (Z * list FileInfo) :=
  match files with
  | [] => ret (totalSize, fileInfos)
  | file :: rest =>
      sz <- statSync file ;;
      let totalSize := totalSize + Z.of_N sz in
      r <-
        try_catch
          (content <- readFileSync file ;;
           entry <- JSON_parse content ;;
           now <- Date_now ;;
           if expired now entry then
             unlinkSync file ;;;
             ret (totalSize - Z.of_N sz, fileInfos)
           else
             ret (totalSize,
                  fileInfos ++ [mkInfo file (timestamp entry) sz]))
          (unlinkSync file ;;;
           ret (totalSize - Z.of_N sz, fileInfos)) ;;
      cleanup_scan rest (fst r) (snd r)
  end.

Definition over_limits (totalSize : Z) (fileInfos : list FileInfo) : bool :=
  (MAX_CACHE_SIZE <? totalSize) || (MAX_CACHE_ENTRIES <? length fileInfos)%nat.

(** The [while] loop of [cleanup]; each round shifts one element off
    [fileInfos]. *)
Fixpoint cleanup_evict (fileInfos : list FileInfo) (totalSize : Z)
  : FM (Z * list FileInfo) :=
  match fileInfos with
  | [] => ret (totalSize, [])
  | oldest :: rest =>
      if over_limits totalSize fileInfos then
        totalSize' <-
          try_catch
            (unlinkSync (path oldest) ;;;
             ret (totalSize - Z.of_N (fi_size oldest)))
            (ret totalSize) ;;
        cleanup_evict rest totalSize'
      else ret (totalSize, fileInfos)
  end.

(** The [try] block of [cleanup]. *)
Definition cleanup_try : FM unit :=
  names <- readdirSync ;;
  let files := List.filter is_json names in
  r <- cleanup_scan files 0 [] ;;
  if over_limits (fst r) (snd r) then
    cleanup_evict (sort_by_timestamp (snd r)) (fst r) ;;;
    ret tt
  else ret tt.

Definition cleanup : FM unit := try_catch cleanup_try (ret tt).

(** The callback queued by [set], when the event loop runs it. *)
Definition run_immediate : FM unit :=
  fun s =>
    match immediates s with
    | O => (Ok tt, s)
    | S n => cleanup (mkState (dir s) (ops s) n (unlinked s))
    end.

(** *** The sweep when nothing fails

    What the two loops of [cleanup] do to a directory when no operation
    fails, as functions of the directory: the first loop, started after
    [n] operations, yields the files left, the names deleted (in order)
    and the number of operations after it; the second loop yields the
    elements shifted off and the elements left. *)

Fixpoint scan_result (n : nat) (d : Directory)
  : Directory * list string * nat :=
  match d with
  | [] => ([], [], n)
  | (nm, f) :: d' =>
      if is_json nm then
        match content f with
        | Json e =>
            if expired (clock w (n + 2)) e then
              let '(k, del, n') := scan_result (n + 4) d' in
              (k, nm :: del, n')
            else
              let '(k, del, n') := scan_result (n + 3) d' in
              ((nm, f) :: k, del, n')
        | Garbage =>
            let '(k, del, n') := scan_result (n + 3) d' in
            (k, nm :: del, n')
        end
      else
        let '(k, del, n') := scan_result n d' in
        ((nm, f) :: k, del, n')
  end.

Fixpoint evict_result (fileInfos : list FileInfo) (totalSize : Z)
  : list FileInfo * list FileInfo :=
  match fileInfos with
  | [] => ([], [])
  | oldest :: rest =>
      if over_limits totalSize fileInfos then
        let '(ev, k) := evict_result rest (totalSize - Z.of_N (fi_size oldest)) in
        (oldest :: ev, k)
      else ([], fileInfos)
  end.

End Instance.

(** A file the first loop deletes: it does not parse, or it is expired at
    a reading of the clock made between operations [lo] and [hi]. *)
Definition stale (w : World) (lo hi : nat) (f : File) : Prop :=
  content f = Garbage \/
  exists e m, content f = Json e /\ (lo <= m < hi)%nat /\
              expired (clock w m) e = true.

(** A file the first loop lists: an entry that is not expired at a
    reading of the clock made between operations [lo] and [hi]. *)
Definition fresh_entry (w : World) (lo hi : nat) (f : File) : Prop :=
  exists e m, content f = Json e /\ (lo <= m < hi)%nat /\
              expired (clock w m) e = false.

(** A world in which the environment fails no operation. *)
Definition reliable (w : World) : Prop := forall n, fault w n = false.

(** *** Example worlds *)

Definition plain_digest (endpoint : string) (params : list (string * string))
    (orgId : string) : string :=
  orgId +:+ "_"
  +:+ JS.of_chars (List.filter (fun c => negb (Ascii.eqb c "/")) (JS.chars endpoint)).

(** Nothing fails; the clock advances by one second per operation. *)
Definition quiet : World :=
  mkWorld (fun _ => false) (fun n => 1000 * Z.of_nat n) plain_digest
    (fun _ => 100%N).

(** Every operation fails. *)
Definition broken : World :=
  mkWorld (fun _ => true) (fun n => 1000 * Z.of_nat n) plain_digest
    (fun _ => 100%N).

Definition fresh : State := mkState (Some []) 0 0 [].

Definition MB : N := 1048576.

Definition entry_at (ts ttl : Z) : Content :=
  Json (mkEntry "{}" ts ttl "/tasks" []).

(** Three entries of 30 MB, an expired entry, a file that does not parse
    and a file that is not an entry. *)
Definition crowded : Directory :=
  [ ("a.json", mkFile (entry_at 3000 3600) (30 * MB));
    ("b.json", mkFile (entry_at 1000 3600) (30 * MB));
    ("notes.txt", mkFile Garbage 10);
    ("c.json", mkFile (entry_at 0 0) 5);
    ("d.json", mkFile Garbage 7);
    ("e.json", mkFile (entry_at 2000 3600) (30 * MB)) ].

End FileCache.

(** ** The sliding-window rate limiter *)
Module RateLimiter.

(** Modelled from the spec: the limiter has no source file here; the
    per-class configuration [{class, limit, windowMs}] of section 6. *)
Record Config : Type := mkConfig {
  cfg_limit : nat;
  cfg_windowMs : Z
}.

(** Modelled from the spec: the limiter has no source file here; the
    default classes of section 4.1, "regular" (100 requests per 10 s) and
    "reports" (10 requests per 30 s). *)
Definition default_classes (class : string) : Config :=
  if String.eqb class "reports" then mkConfig 10 30000 else mkConfig 100 10000.

(** Modelled from the spec: the limiter has no source file here; the
    [RateWindow] of section 3, [{classId, timestamps, limit, windowMs}]. *)
Record RateWindow : Type := mkWindow {
  classId : string;
  timestamps : list Z;
  limit : nat;
  windowMs : Z
}.

(** Modelled from the spec: the limiter has no source file here; a window
    is "created lazily per class", empty. *)
Definition new_window (config : string -> Config) (class : string) : RateWindow :=
  mkWindow class [] (cfg_limit (config class)) (cfg_windowMs (config class)).

(** Modelled from the spec: the limiter has no source file here; "prune
    timestamps older than [now - windowMs]". *)
Definition prune (now window : Z) (ts : list Z) : list Z :=
  List.filter (fun t => now - window <=? t) ts.

(** Modelled from the spec: the limiter has no source file here; what a
    check tells the caller: go on, or wait and check again. *)
Inductive Admission : Type :=
| Granted
| Suspended (waitMs : Z).

(** Modelled from the spec: the limiter has no source file here; one
    admission check of [acquire]: "prune timestamps older than
    [now - windowMs]; if remaining count < limit, append [now], return;
    else wait [windowMs - (now - oldest)] and re-check".  A check runs
    without interruption; a suspended task makes another check when it
    wakes. *)
Definition check (now : Z) (rw : RateWindow) : Admission * RateWindow :=
  let live := prune now (windowMs rw) (timestamps rw) in
  if (length live <? limit rw)%nat then
    (Granted, mkWindow (classId rw) (live ++ [now]) (limit rw) (windowMs rw))
  else
    (Suspended (windowMs rw - (now - hd now live)),
     mkWindow (classId rw) live (limit rw) (windowMs rw)).

(** Modelled from the spec: the limiter has no source file here; the
    windows of all classes, and the record of every admission made (class
    and timestamp, newest first), which is kept for the statement of the
    rate bound only. *)
Record Limiter : Type := mkLimiter {
  windows : gmap string RateWindow;
  admissions : list (string * Z)
}.

(** Modelled from the spec: the limiter has no source file here; the
    window of a class, made when the class is first used. *)
Definition window_of (config : string -> Config) (class : string)
    (l : Limiter) : RateWindow :=
  default (new_window config class) (windows l !! class).

(** Modelled from the spec: the limiter has no source file here; one
    admission check of [acquire(class)] at time [now], by any task. *)
Definition acquire_check (config : string -> Config) (l : Limiter)
    (ev : string * Z) : Admission * Limiter :=
  let '(class, now) := ev in
  let '(a, rw) := check now (window_of config class l) in
  (a,
   mkLimiter (<[class := rw]> (windows l))
     match a with
     | Granted => (class, now) :: admissions l
     | Suspended _ => admissions l
     end).

(** Modelled from the spec: the limiter has no source file here; the
    checks of all tasks, in the order the scheduler runs them. *)
Definition run (config : string -> Config) (events : list (string * Z))
    (l : Limiter) : Limiter :=
  foldl (fun l ev => snd (acquire_check config l ev)) l events.

(** Modelled from the spec: the limiter has no source file here; the
    limiter when the process starts. *)
Definition empty : Limiter := mkLimiter ∅ [].

(** The admissions of [class] with a timestamp in [[T - window, T]]. *)
Definition granted_within (class : string) (window T : Z)
    (adm : list (string * Z)) : list (string * Z) :=
  List.filter
    (fun ct => String.eqb (fst ct) class && (T - window <=? snd ct) && (snd ct <=? T))
    adm.

(** The clock does not run backwards between checks. *)
Fixpoint in_time_order (last : Z) (events : list (string * Z)) : Prop :=
  match events with
  | [] => True
  | (_, now) :: rest => last <= now /\ in_time_order now rest
  end.

(** The limiter of the scenario of section 8: two requests per second. *)
Definition two_per_second (class : string) : Config := mkConfig 2 1000.

(** Three calls back to back; the third is suspended and checks again
    after 1000 ms and after 1001 ms. *)
Definition back_to_back : list (string * Z) :=
  [("api", 0); ("api", 0); ("api", 0); ("api", 1000); ("api", 1001)].

(** The timestamps granted to [class], newest first. *)
Definition history (class : string) (adm : list (string * Z)) : list Z :=
  map snd (List.filter (fun ct => String.eqb (fst ct) class) adm).

(** Every timestamp of a history was granted when fewer than [lim] of the
    earlier ones were within [window] of it. *)
Fixpoint spaced (window : Z) (lim : nat) (h : list Z) : Prop :=
  match h with
  | [] => True
  | a :: rest =>
      (length (List.filter (fun t => (a - window <=? t)%Z) rest) < lim)%nat
      /\ spaced window lim rest
  end.

(** What holds of the window of a class between two checks, the last of
    which was made at [last]: its timestamps are the granted ones from some
    bound on, and the bound is at least a window old. *)
Definition window_ok (config : string -> Config) (last : Z) (l : Limiter)
    (class : string) : Prop :=
  let rw := window_of config class l in
  limit rw = cfg_limit (config class) /\
  windowMs rw = cfg_windowMs (config class) /\
  (exists b,
      b <= last - windowMs rw /\
      timestamps rw =
      List.filter (fun t => b <=? t) (rev (history class (admissions l)))) /\
  spaced (windowMs rw) (limit rw) (history class (admissions l)).

End RateLimiter.

(** ** More worlds for the resolver *)
Module ResolverWorlds.

Import Resolver.

(** The API has three services, one of them without a name; the cache is
    empty. *)
Definition services_api : World :=
  mkWorld
    (fun _ _ =>
       Some [mkResource "1" (mkAttributes None None (Some "Development"));
             mkResource "2" (mkAttributes None None (Some "Design"));
             mkResource "3" (mkAttributes None None None)])
    (fun _ _ _ => Some None)
    (fun _ _ _ _ _ _ => true).

End ResolverWorlds.

(** ** The cache instance: constructor and module-level singleton of
       [cache.ts] *)
Module FileCacheInstance.

Import FileCache.

(** Whether [invalidate(endpointPattern)] leaves a file of the directory
    in place: a file that is not a [.json] file always; an entry when a
    pattern is given and its endpoint does not contain it. *)
Definition survives (endpointPattern : option string) (nf : string * File)
  : bool :=
  negb (is_json (fst nf)) ||
  match JS.truthy endpointPattern, content (snd nf) with
  | Some pattern, Json e => negb (JS.includes (endpoint e) pattern)
  | _, _ => false
  end.

(** The oldest timestamp [stats] finds, starting from [start]. *)
Definition oldest_timestamp (start : Z) (d : Directory) : Z :=
  foldl
    (fun oldest nf =>
       match content (snd nf) with
       | Json e => if timestamp e <? oldest then timestamp e else oldest
       | Garbage => oldest
       end)
    start d.

(** The files of the cache directory that are not [.json] files;
    [None] when the directory does not exist. *)
Definition other_files (s : State) : option Directory :=
  List.filter (fun nf => negb (is_json (fst nf))) <$> dir s.

(** [m] leaves the other files as they are, whether it returns or throws,
    and what it returns satisfies [Q]. *)
Definition keeps {A} (m : FM A) (Q : A -> Prop) : Prop :=
  forall s,
    other_files (snd (m s)) = other_files s /\
    match fst (m s) with
    | Ok a => Q a
    | Throw => True
    end.

Definition json_path (i : FileInfo) : Prop := is_json (path i) = true.

Section Singleton.

Variable w : World.

(** [mkdirSync(this.cacheDir, { recursive: true })] *)
Definition mkdirSync : FM unit :=
  io w (fun s =>
          Some (tt, mkState (Some (default [] (dir s))) (ops s)
                      (immediates s) (unlinked s))).

Definition ensureCacheDir : FM unit :=
  bind existsSync_dir (fun found => if negb found then mkdirSync else ret tt).

(** [new FileCache(enabled)]; the instance is known by its [enabled]
    field, the directory being the same for all. *)
Definition constructor (enabled : bool) : FM bool :=
  bind (if enabled then ensureCacheDir else ret tt) (fun _ => ret enabled).

(** The module variable [cacheInstance]: [None] for [null]. *)
Definition Slot : Type := option bool.

Definition getCache (enabled : bool) (cacheInstance : Slot) : FM (bool * Slot) :=
  match cacheInstance with
  | Some instance => ret (instance, cacheInstance)
  | None =>
      bind (constructor enabled) (fun instance => ret (instance, Some instance))
  end.

Definition disableCache (cacheInstance : Slot) : FM Slot :=
  bind (constructor false) (fun instance => ret (Some instance)).

Definition resetCache (cacheInstance : Slot) : FM Slot := ret None.

Definition clearCache (cacheInstance : Slot) : FM Slot :=
  bind (getCache true cacheInstance)
    (fun r => bind (clear w (fst r)) (fun _ => ret (snd r))).

End Singleton.

End FileCacheInstance.

(** ** Environments in which a deletion fails *)
Module SweepWorlds.

Import FileCache.




End SweepWorlds.

(** ** Configuration: [src/config.ts] *)
Module Config.

Inductive Key : Type := apiToken | organizationId | userId | baseUrl.

Record ProductiveConfig : Type := mkConfig {
  cfg_apiToken : option string;
  cfg_organizationId : option string;
  cfg_userId : option string;
  cfg_baseUrl : option string
}.

(** What [config.get(key)] answers for each key of the store. *)
Definition Store : Type := Key -> option string.

(** The variables of [process.env] that are read. *)
Record Env : Type := mkEnv {
  PRODUCTIVE_API_TOKEN : option string;
  PRODUCTIVE_ORG_ID : option string;
  PRODUCTIVE_USER_ID : option string;
  PRODUCTIVE_BASE_URL : option string
}.

(** [a || b] on strings that may be [undefined]. *)
Definition either (a b : option string) : option string :=
  match JS.truthy a with
  | Some _ => a
  | None => b
  end.

(** [!a] *)
Definition falsy (a : option string) : bool :=
  match JS.truthy a with
  | Some _ => false
  | None => true
  end.

Definition getConfig (config : Store) (env : Env) : ProductiveConfig :=
  mkConfig
    (either (config apiToken) (PRODUCTIVE_API_TOKEN env))
    (either (config organizationId) (PRODUCTIVE_ORG_ID env))
    (either (config userId) (PRODUCTIVE_USER_ID env))
    (either (either (config baseUrl) (PRODUCTIVE_BASE_URL env))
       (Some "https://api.productive.io/api/v2")).

Record Validation : Type := mkValidation {
  valid : bool;
  missing : list string
}.

Definition validateConfig (config : Store) (env : Env) : Validation :=
  let cfg := getConfig config env in
  let missing := [] in
  let missing :=
    if falsy (cfg_apiToken cfg) then missing ++ ["apiToken"] else missing in
  let missing :=
    if falsy (cfg_organizationId cfg) then missing ++ ["organizationId"]
    else missing in
  let missing :=
    if falsy (cfg_userId cfg) then missing ++ ["userId"] else missing in
  mkValidation (length missing =? 0)%nat missing.

(** [s.substring(start, end)]: both indices are clamped to the length and
    swapped when out of order. *)
Definition substring (s : string) (start stop : nat) : string :=
  let len := String.length s in
  let a := Nat.min start len in
  let b := Nat.min stop len in
  JS.of_chars (take (Nat.max a b - Nat.min a b) (drop (Nat.min a b) (JS.chars s))).

(** [maskToken] of [src/commands/config.ts] *)
Definition maskToken (token : string) : string :=
  if falsy (Some token) || (String.length token <=? 8)%nat then "***"
  else
    substring token 0 4 +:+ "..."
    +:+ substring token (String.length token - 4) (String.length token).

End Config.

(** ** The [cache] command *)
Module CacheCommand.

(** [Number.MAX_SAFE_INTEGER] *)
Definition MAX_SAFE_INTEGER : Z := 2 ^ 53 - 1.

(** A whole number in a template literal, up to [MAX_SAFE_INTEGER] in
    absolute value: there every digit is printed. *)
Definition show (n : Z) : string := NilZero.string_of_int (Z.to_int n).

(** [formatDuration], on a whole number of seconds of absolute value at
    most [MAX_SAFE_INTEGER].  On these numbers a division by 60, 3600 or
    86400 followed by [Math.floor] gives the floor of the exact quotient,
    as the rounding error of the division is below the distance of the
    quotient from the next whole number, and the result is printed digit
    by digit.  Larger numbers are rounded in the division and in
    printing, which the definition does not describe. *)
Definition formatDuration (seconds : Z) : string :=
  if seconds <? 60 then show seconds +:+ "s"
  else if seconds <? 3600 then show (seconds / 60) +:+ "m"
  else if seconds <? 86400 then show (seconds / 3600) +:+ "h"
  else show (seconds / 86400) +:+ "d".

End CacheCommand.

(** * Properties *)

(** ** Matching by derivatives decides the language of a pattern *)
Module RegexFacts.

Import Regex.

Lemma Matches_nil_nullable (r : regex) (l : list ascii) :
  Matches r l -> l = [] -> nullable r = true.
Proof.
  induction 1; intros E; simpl; auto; try discriminate.
  - apply app_eq_nil in E as [-> ->]. rewrite IHMatches1, IHMatches2; auto.
  - rewrite IHMatches; auto.
  - rewrite IHMatches; auto. apply orb_true_r.
Qed.

Lemma nullable_Matches (r : regex) : nullable r = true <-> Matches r [].
Proof.
  split.
  - induction r; simpl; intros H; try discriminate.
    + constructor.
    + apply andb_true_iff in H as [H1 H2].
      change (@nil ascii) with (@nil ascii ++ []). constructor; auto.
    + apply orb_true_iff in H as [H | H]; [apply MAltL | apply MAltR]; auto.
    + constructor.
  - intros H. eapply Matches_nil_nullable; eauto.
Qed.

Lemma deriv_sound (c : ascii) (r : regex) :
  forall l, Matches (deriv c r) l -> Matches r (c :: l).
Proof.
  induction r; simpl; intros l H.
  - inversion H.
  - inversion H.
  - destruct (p c) eqn:E; inversion H; subst. constructor. exact E.
  - inversion H; subst.
    + inversion H3; subst.
      change (c :: l1 ++ l2) with ((c :: l1) ++ l2). constructor; auto.
    + destruct (nullable r1) eqn:E; [| inversion H3].
      change (c :: l) with ([] ++ c :: l). constructor; auto.
      apply nullable_Matches. exact E.
  - inversion H; subst; [apply MAltL | apply MAltR]; auto.
  - inversion H; subst.
    change (c :: l1 ++ l2) with ((c :: l1) ++ l2). constructor; auto.
Qed.

Lemma deriv_complete (r : regex) (l0 : list ascii) :
  Matches r l0 -> forall c l, l0 = c :: l -> Matches (deriv c r) l.
Proof.
  induction 1; intros c' l' E; simpl; try discriminate.
  - injection E as -> <-. rewrite H. constructor.
  - destruct l1 as [| a l1].
    + simpl in E. subst l2. apply MAltR.
      apply nullable_Matches in H. rewrite H. eauto.
    + simpl in E. injection E as -> <-. apply MAltL. constructor; eauto.
  - apply MAltL. eauto.
  - apply MAltR. eauto.
  - destruct l1 as [| a l1].
    + simpl in E. subst l2. apply (IHMatches2 _ _ eq_refl).
    + simpl in E. injection E as -> <-. constructor; eauto.
Qed.

Lemma accepts_Matches (l : list ascii) :
  forall r, accepts r l = true <-> Matches r l.
Proof.
  induction l as [| c l IH]; intros r; simpl.
  - apply nullable_Matches.
  - rewrite IH. split.
    + apply deriv_sound.
    + intros H. eapply deriv_complete; eauto.
Qed.

End RegexFacts.

Module RegexMore.

Import Regex RegexFacts.

Lemma Matches_may_contain (r : regex) (l : list ascii) :
  Matches r l -> Forall (fun c => may_contain r c = true) l.
Proof.
  induction 1; simpl in *; auto.
  - apply Forall_app; split.
    + eapply List.Forall_impl; [| exact IHMatches1].
      intros c Hc. simpl. rewrite Hc. reflexivity.
    + eapply List.Forall_impl; [| exact IHMatches2].
      intros c Hc. simpl. rewrite Hc. apply orb_true_r.
  - eapply List.Forall_impl; [| exact IHMatches].
    intros c Hc. simpl. rewrite Hc. reflexivity.
  - eapply List.Forall_impl; [| exact IHMatches].
    intros c Hc. simpl. rewrite Hc. apply orb_true_r.
  - apply Forall_app; split; auto.
Qed.

Lemma Matches_may_start (r : regex) (l0 : list ascii) :
  Matches r l0 -> forall c l, l0 = c :: l -> may_start r c = true.
Proof.
  induction 1; intros c' l' E; simpl; try discriminate.
  - injection E as -> _. assumption.
  - destruct l1 as [| a l1]; simpl in E.
    + subst l2. rewrite (Matches_nil_nullable _ _ H eq_refl).
      rewrite (IHMatches2 _ _ eq_refl). apply orb_true_r.
    + injection E as -> _. rewrite (IHMatches1 _ _ eq_refl). reflexivity.
  - rewrite (IHMatches _ _ E). reflexivity.
  - rewrite (IHMatches _ _ E). apply orb_true_r.
  - destruct l1 as [| a l1]; simpl in E.
    + subst l2. apply (IHMatches2 _ _ eq_refl).
    + injection E as -> _. apply (IHMatches1 _ _ eq_refl).
Qed.

(** A match of [r1 c r2] contains the character [c]. *)
Lemma Cat_Chr_In (r1 r2 : regex) (c : ascii) (l : list ascii) :
  Matches (Cat r1 (Cat (Chr c) r2)) l -> In c l.
Proof.
  intros H. inversion H as [| | ? ? l1 l2 H1 H2 | | | |]; subst.
  inversion H2 as [| | ? ? l3 l4 H3 H4 | | | |]; subst.
  inversion H3 as [| p x Hx | | | | |]; subst.
  apply Ascii.eqb_eq in Hx. subst x.
  apply in_or_app. right. left. reflexivity.
Qed.

Lemma test_may_contain (r : regex) (s : string) :
  test r s = true -> Forall (fun c => may_contain r c = true) (JS.chars s).
Proof. intros H. apply Matches_may_contain, accepts_Matches, H. Qed.

Lemma test_contains (r1 r2 : regex) (c : ascii) (s : string) :
  test (Cat r1 (Cat (Chr c) r2)) s = true -> In c (JS.chars s).
Proof. intros H. eapply Cat_Chr_In, accepts_Matches, H. Qed.

Lemma test_may_start (r : regex) (s : string) :
  test r s = true -> nullable r = false ->
  exists c l, JS.chars s = c :: l /\ may_start r c = true.
Proof.
  unfold test. intros H Hn. destruct (JS.chars s) as [| c l] eqn:E.
  - simpl in H. congruence.
  - exists c, l. split; [reflexivity |].
    apply accepts_Matches in H. eapply Matches_may_start; eauto.
Qed.

End RegexMore.

(** ** The resolver *)
Module ResolverFacts.

Import Regex RegexFacts RegexMore Resolver.
Local Open Scope resolver_scope.

(** *** The four patterns exclude one another *)

Lemma contains_excludes (r : regex) (c : ascii) (s : string) :
  may_contain r c = false -> In c (JS.chars s) -> test r s = false.
Proof.
  intros Hr Hin. destruct (test r s) eqn:E; [| reflexivity].
  apply test_may_contain in E.
  rewrite List.Forall_forall in E. rewrite (E c Hin) in Hr. discriminate.
Qed.

Lemma email_has_at (s : string) :
  test EMAIL_PATTERN s = true -> In "@"%char (JS.chars s).
Proof. apply test_contains. Qed.

Lemma project_has_dash (s : string) :
  test PROJECT_NUMBER_PATTERN s = true -> In "-"%char (JS.chars s).
Proof. apply test_contains. Qed.

Lemma deal_has_dash (s : string) :
  test DEAL_NUMBER_PATTERN s = true -> In "-"%char (JS.chars s).
Proof. apply test_contains. Qed.

Lemma email_not_numeric (s : string) :
  test EMAIL_PATTERN s = true -> test NUMERIC_ID_PATTERN s = false.
Proof.
  intros H. eapply contains_excludes; [| apply email_has_at, H]. reflexivity.
Qed.

Lemma project_not_numeric (s : string) :
  test PROJECT_NUMBER_PATTERN s = true -> test NUMERIC_ID_PATTERN s = false.
Proof.
  intros H. eapply contains_excludes; [| apply project_has_dash, H]. reflexivity.
Qed.

Lemma deal_not_numeric (s : string) :
  test DEAL_NUMBER_PATTERN s = true -> test NUMERIC_ID_PATTERN s = false.
Proof.
  intros H. eapply contains_excludes; [| apply deal_has_dash, H]. reflexivity.
Qed.

Lemma email_not_project (s : string) :
  test EMAIL_PATTERN s = true -> test PROJECT_NUMBER_PATTERN s = false.
Proof.
  intros H. eapply contains_excludes; [| apply email_has_at, H]. reflexivity.
Qed.

Lemma email_not_deal (s : string) :
  test EMAIL_PATTERN s = true -> test DEAL_NUMBER_PATTERN s = false.
Proof.
  intros H. eapply contains_excludes; [| apply email_has_at, H]. reflexivity.
Qed.

Lemma project_not_deal (s : string) :
  test PROJECT_NUMBER_PATTERN s = true -> test DEAL_NUMBER_PATTERN s = false.
Proof.
  intros Hp. destruct (test DEAL_NUMBER_PATTERN s) eqn:Hd; [| reflexivity].
  apply test_may_start in Hp as (c & l & E & Hc); [| reflexivity].
  apply test_may_start in Hd as (c' & l' & E' & Hc'); [| reflexivity].
  rewrite E in E'. injection E' as <- _.
  destruct c as [[] [] [] [] [] [] [] []];
    vm_compute in Hc, Hc'; discriminate.
Qed.

(** C6, as amended: a numeric string is not detected; a string of email
    shape is a person, with high confidence and pattern email; a string
    matching (PRJ|P)-digits in any letter case is a project; a string
    matching (D|DEAL)-digits in any letter case is a deal; every other
    string is not detected.  The five examples of the specification
    follow. *)
Theorem detectResourceType_cases :
  (forall query : string,
      (test NUMERIC_ID_PATTERN query = true ->
       detectResourceType query = None) /\
      (test EMAIL_PATTERN query = true ->
       detectResourceType query = Some (mkDetection person high "email")) /\
      (test PROJECT_NUMBER_PATTERN query = true ->
       det_type <$> detectResourceType query = Some project) /\
      (test DEAL_NUMBER_PATTERN query = true ->
       det_type <$> detectResourceType query = Some deal) /\
      (test NUMERIC_ID_PATTERN query = false ->
       test EMAIL_PATTERN query = false ->
       test PROJECT_NUMBER_PATTERN query = false ->
       test DEAL_NUMBER_PATTERN query = false ->
       detectResourceType query = None)) /\
  detectResourceType "a@b.co" = Some (mkDetection person high "email") /\
  det_type <$> detectResourceType "PRJ-42" = Some project /\
  det_type <$> detectResourceType "P-42" = Some project /\
  detectResourceType "42" = None /\
  detectResourceType "Acme" = None.
Proof.
  split; [| repeat split; reflexivity].
  intros query. unfold detectResourceType. repeat split.
  - intros ->. reflexivity.
  - intros H. rewrite (email_not_numeric _ H), H. reflexivity.
  - intros H.
    rewrite (project_not_numeric _ H), H.
    destruct (test EMAIL_PATTERN query) eqn:E; [| reflexivity].
    rewrite (email_not_project _ E) in H. discriminate.
  - intros H.
    rewrite (deal_not_numeric _ H), H.
    destruct (test EMAIL_PATTERN query) eqn:E.
    { rewrite (email_not_deal _ E) in H. discriminate. }
    destruct (test PROJECT_NUMBER_PATTERN query) eqn:P; [| reflexivity].
    rewrite (project_not_deal _ P) in H. discriminate.
  - intros -> -> -> ->. reflexivity.
Qed.

Lemma detectResourceType_cases_witness :
  det_type <$> detectResourceType "deal-7" = Some deal.
Proof.
  apply (proj1 (proj2 (proj2 (proj2 (proj1 detectResourceType_cases "deal-7"))))).
  reflexivity.
Defined.

(** C6, as stated, fails: "d-1" is none of the shapes the claim lists (the
    deal shape being written in capitals), so the claim makes it
    undetected, and [detectResourceType] makes it a deal. *)
Lemma detectType_as_stated_differs :
  detectType_as_stated "d-1" = None /\
  det_type <$> detectResourceType "d-1" = Some deal.
Proof. split; reflexivity. Qed.

(** *** Numeric queries *)

Example isNumericId_examples :
  isNumericId "12345" = true /\ isNumericId "PRJ-12" = false /\
  isNumericId "" = false.
Proof. repeat split; reflexivity. Qed.

(** C5: a numeric query resolves to exactly one result, whose id and label
    are the query and which is exact, whatever the options; the trace is
    left as it was, so nothing is sent to the API (nor to the cache). *)
Theorem resolve_numeric (w : World) (t : Trace) (query : string)
    (options : ResolveOptions) :
  isNumericId query = true ->
  exists r,
    resolve query options w t = (Ok [r], t) /\
    rr_id r = query /\ rr_label r = query /\ rr_exact r = true.
Proof.
  intros H. unfold resolve. rewrite H.
  eexists. split; [reflexivity |]. simpl. auto.
Qed.

Lemma resolve_numeric_witness :
  exists r,
    resolve "12345" (mkOptions (Some service) None false (Some "7")) no_api []
    = (Ok [r], []) /\
    rr_id r = "12345" /\ rr_label r = "12345" /\ rr_exact r = true.
Proof. apply resolve_numeric. reflexivity. Defined.

(** C9: without an explicit type, the result for a numeric query has type
    project. *)
Theorem resolve_numeric_default_type (w : World) (t : Trace) (query : string)
    (options : ResolveOptions) :
  isNumericId query = true ->
  opt_type options = None ->
  exists r,
    resolve query options w t = (Ok [r], t) /\ rr_type r = project.
Proof.
  intros H Hty. unfold resolve. rewrite H, Hty.
  eexists. split; reflexivity.
Qed.

Lemma resolve_numeric_default_type_witness :
  exists r,
    resolve "42" (mkOptions None None false None) no_api [] = (Ok [r], []) /\
    rr_type r = project.
Proof. apply resolve_numeric_default_type; reflexivity. Defined.

(** *** Runs of the resolver *)

Lemma getCachedResolve_run (w : World) (t : Trace) (orgId : string)
    (type : ResolvableResourceType) (query : string) :
  getCachedResolve orgId type query w t =
  (Ok (default None (cache_answer w t orgId (getResolveCacheKey orgId type query))),
   t ++ [CacheGet orgId (getResolveCacheKey orgId type query)]).
Proof.
  unfold getCachedResolve, try_catch, cacheGet.
  destruct (cache_answer w t orgId _); reflexivity.
Qed.

Lemma setCachedResolve_run (w : World) (t : Trace) (orgId : string)
    (r : ResolveResult) :
  setCachedResolve orgId r w t =
  (Ok tt,
   t ++ [CacheSet orgId (getResolveCacheKey orgId (rr_type r) (rr_query r)) r
           "/resolve" (if rr_exact r then CACHE_TTL_exact else CACHE_TTL_fuzzy)]).
Proof.
  unfold setCachedResolve, try_catch, cacheSet.
  destruct (cache_accepts w t orgId _ _ _ _); reflexivity.
Qed.

Ltac api_step H :=
  match type of H with
  | context [api_answer ?w ?t ?req] =>
      let E := fresh "E" in
      destruct (api_answer w t req) as [[| ? ?] |] eqn:E; cbv beta iota in H
  end.

Lemma lookup_run (w : World) (t t' : Trace) (type : ResolvableResourceType)
    (pattern : option string) (query : string) (projectId : option string)
    (results : list ResolveResult) :
  lookup type pattern query projectId w t = (Ok results, t') ->
  Forall (fun r => rr_type r = type /\ rr_query r = query) results /\
  exists calls, t' = t ++ map ApiCall calls.
Proof.
  unfold lookup. intros H.
  destruct type;
    repeat match type of H with
      | context [if ?b then _ else _] => destruct b
      end;
    unfold resolvePersonByEmail, resolvePersonByName, resolveProjectByNumber,
      resolveProjectByName, resolveCompanyByName, resolveDealByNumber,
      resolveDealByName, resolveServiceByName, getPeople, getProjects,
      getCompanies, getDeals, getServices, bind, ret, api_get in H;
    cbv beta iota in H.
  all: repeat api_step H.
  all: try discriminate H.
  all: injection H as <- <-.
  all: split;
    [ unfold to_list; apply List.Forall_forall; intros res Hin;
      match type of Hin with
      | In _ (map _ _) =>
          apply in_map_iff in Hin; destruct Hin as (? & <- & _)
      | In _ [] => destruct Hin
      | In _ [_] => destruct Hin as [<- | []]
      | In _ (_ :: _) =>
          destruct Hin as [<- | Hin];
          [| apply in_map_iff in Hin; destruct Hin as (? & <- & _)]
      end; split; reflexivity
    | first
        [ eexists [_]; reflexivity
        | eexists [_; _]; simpl; rewrite <- app_assoc; reflexivity ] ].
Qed.

Lemma finish_cons (w : World) (t : Trace) (type : ResolvableResourceType)
    (query : string) (options : ResolveOptions) (r0 : ResolveResult)
    (rest : list ResolveResult) :
  exists t',
    finish type query options (r0 :: rest) w t =
    (Ok (if opt_first options && (1 <? length (r0 :: rest))%nat
         then [r0] else r0 :: rest), t').
Proof.
  unfold finish, bind.
  destruct (JS.truthy (opt_orgId options)) as [orgId |], rest as [| r1 rest];
    try rewrite setCachedResolve_run;
    unfold ret;
    destruct (opt_first options && _); eexists; reflexivity.
Qed.

Lemma try_cache_ok (w : World) (t : Trace) (query : string)
    (options : ResolveOptions) :
  exists c t', try_cache query options w t = (Ok c, t').
Proof.
  unfold try_cache.
  destruct (JS.truthy (opt_orgId options)); [| eexists _, _; reflexivity].
  destruct (cache_type query options); [| eexists _, _; reflexivity].
  rewrite getCachedResolve_run. eexists _, _; reflexivity.
Qed.

(** C7: when the lookup for the attempted type finds nothing, [resolve]
    throws a [ResolveError] that carries the query and that type; and no
    run of [resolve] returns the empty list. *)
Theorem resolve_not_found (w : World) (t : Trace) (query : string)
    (options : ResolveOptions) :
  (forall type pattern t1 t2,
      isNumericId query = false ->
      try_cache query options w t = (Ok None, t1) ->
      determine_type query options = Some (type, pattern) ->
      lookup type pattern query (opt_projectId options) w t1 = (Ok [], t2) ->
      exists message,
        resolve query options w t =
        (Throw (ResolveError message query (Some type) None), t2)) /\
  (forall results t', resolve query options w t = (Ok results, t') -> results <> []).
Proof.
  split.
  - intros type pattern t1 t2 Hn Hc Hd Hl.
    unfold resolve, bind. rewrite Hn, Hc, Hd, Hl.
    eexists. reflexivity.
  - intros results t'. unfold resolve, bind.
    destruct (isNumericId query).
    { intros [= <- _]. discriminate. }
    destruct (try_cache_ok w t query options) as (c & t1 & ->).
    destruct c as [c |].
    { intros [= <- _]. discriminate. }
    destruct (determine_type query options) as [[type pattern] |];
      [| discriminate].
    destruct (lookup type pattern query (opt_projectId options) w t1)
      as [[rs | e] t2]; [| discriminate].
    destruct rs as [| r0 rest]; [discriminate |].
    destruct (finish_cons w t2 type query options r0 rest) as (t3 & ->).
    intros [= <- _]. destruct (opt_first options && _); discriminate.
Qed.

Lemma cache_type_determine (query : string) (options : ResolveOptions)
    (type : ResolvableResourceType) :
  cache_type query options = Some type ->
  exists pattern, determine_type query options = Some (type, pattern).
Proof.
  unfold cache_type, determine_type.
  destruct (opt_type options) as [ty |].
  - intros [= ->]. eauto.
  - destruct (detectResourceType query) as [d |]; simpl; [| discriminate].
    intros [= ->]. eauto.
Qed.

(** C1: for a query that is not numeric, with a tenant.  When no type is
    given or detected, [resolve] throws and nothing is sent.  Otherwise
    the first thing [resolve] does is to read the cache under the key of
    tenant, type and lower-cased query.  On a hit it returns the cached
    result and nothing else happens.  On a miss the lookup runs, and only
    sends requests to the API; a lookup with exactly one result is
    followed by one write of that result under the same key, for 24 hours
    if it is exact and for 1 hour otherwise; a lookup with more than one
    result is followed by no write, whether or not [first] cuts the
    returned list down to its head. *)
Theorem resolve_cache_protocol (w : World) (t : Trace) (query : string)
    (options : ResolveOptions) (orgId : string) :
  isNumericId query = false ->
  JS.truthy (opt_orgId options) = Some orgId ->
  (cache_type query options = None ->
   exists message,
     resolve query options w t = (Throw (ResolveError message query None None), t)) /\
  (forall type,
      cache_type query options = Some type ->
      let key := "resolve:" +:+ orgId +:+ ":" +:+ type_name type +:+ ":"
                 +:+ JS.toLowerCase query in
      let t1 := t ++ [CacheGet orgId key] in
      (forall cached,
          cache_answer w t orgId key = Some (Some cached) ->
          resolve query options w t = (Ok [cached], t1)) /\
      (default None (cache_answer w t orgId key) = None ->
       exists pattern,
         determine_type query options = Some (type, pattern) /\
         forall results t2,
           lookup type pattern query (opt_projectId options) w t1
           = (Ok results, t2) ->
           (exists calls, t2 = t1 ++ map ApiCall calls) /\
           (forall r,
               results = [r] ->
               resolve query options w t =
               (Ok [r],
                t2 ++ [CacheSet orgId key r "/resolve"
                         (if rr_exact r then 24 * 60 * 60 * 1000
                          else 60 * 60 * 1000)])) /\
           ((1 < length results)%nat ->
            resolve query options w t =
            (Ok (if opt_first options then take 1 results else results), t2)))).
Proof.
  intros Hn Horg. split.
  { intros Hty. unfold resolve, bind, try_cache. rewrite Hn, Horg, Hty.
    unfold ret. unfold cache_type in Hty. unfold determine_type.
    destruct (opt_type options); [discriminate |].
    destruct (detectResourceType query); [discriminate |].
    eexists. reflexivity. }
  intros type Hty key t1.
  assert (Hcache : try_cache query options w t =
                   (Ok (default None (cache_answer w t orgId key)), t1)).
  { unfold try_cache. rewrite Horg, Hty. apply getCachedResolve_run. }
  split.
  - intros cached Hhit. unfold resolve, bind.
    rewrite Hn, Hcache, Hhit. reflexivity.
  - intros Hmiss.
    destruct (cache_type_determine _ _ _ Hty) as (pattern & Hd).
    exists pattern. split; [exact Hd |].
    intros results t2 Hl.
    destruct (lookup_run _ _ _ _ _ _ _ _ Hl) as (Hres & Htr).
    split; [exact Htr |]. split.
    + intros r ->.
      apply Forall_inv in Hres as [Hrt Hrq].
      unfold resolve, bind. rewrite Hn, Hcache, Hmiss, Hd, Hl.
      unfold finish, bind. rewrite Horg, setCachedResolve_run, Hrt, Hrq.
      rewrite andb_false_r. reflexivity.
    + intros Hlen.
      unfold resolve, bind. rewrite Hn, Hcache, Hmiss, Hd, Hl.
      destruct results as [| r0 [| r1 rest]]; simpl in Hlen; try lia.
      unfold finish, bind. rewrite Horg. unfold ret.
      destruct (opt_first options); reflexivity.
Qed.


(** *** Filters *)

Lemma set_resolved_other (key value k : string) (acc : Resolved) :
  k <> key ->
  resolved (set_resolved key value acc) !! k = resolved acc !! k.
Proof.
  intros Hk. unfold set_resolved. destruct (String.eqb key "__proto__");
    [reflexivity |]. cbn [resolved]. apply lookup_insert_ne. congruence.
Qed.

Lemma set_resolved_own (key value : string) (acc : Resolved) :
  resolved (set_resolved key value acc) !! key
  = if String.eqb key "__proto__" then resolved acc !! key else Some value.
Proof.
  unfold set_resolved. destruct (String.eqb key "__proto__"); [reflexivity |].
  cbn [resolved]. apply lookup_insert_eq.
Qed.

Lemma set_resolved_metadata (key value : string) (acc : Resolved) :
  metadata (set_resolved key value acc) = metadata acc /\
  metadata_proto (set_resolved key value acc) = metadata_proto acc.
Proof.
  unfold set_resolved. destruct (String.eqb key "__proto__"); split; reflexivity.
Qed.

Lemma set_metadata_other (key k : string) (e : ResolvedEntry) (acc : Resolved) :
  k <> key ->
  metadata (set_metadata key e acc) !! k = metadata acc !! k.
Proof.
  intros Hk. unfold set_metadata. destruct (String.eqb key "__proto__");
    [reflexivity |]. cbn [metadata]. apply lookup_insert_ne. congruence.
Qed.

Lemma set_metadata_resolved (key : string) (e : ResolvedEntry) (acc : Resolved) :
  resolved (set_metadata key e acc) = resolved acc.
Proof. unfold set_metadata. destruct (String.eqb key "__proto__"); reflexivity. Qed.

(** What one filter does to the two objects: to its own key only, and to
    the prototype of [metadata] only when the key is [__proto__]. *)
Lemma resolveFilterIds_step_run (w : World) (t : Trace)
    (inherited_text : string -> string)
    (typeMapping : gmap string ResolvableResourceType)
    (options : ResolveOptions) (acc : Resolved) (key value : string) :
  exists acc' t',
    resolveFilterIds_step inherited_text typeMapping options acc (key, value) w t
    = (Ok acc', t') /\
    (acc' = set_resolved key value acc \/
     exists type e,
       typeMapping_at typeMapping key = Some type /\
       isNumericId value = false /\ input e = value /\
       acc' = set_metadata key e (set_resolved key (entry_id e) acc)).
Proof.
  unfold resolveFilterIds_step.
  destruct (typeMapping_at typeMapping key) as [type |] eqn:Hm.
  2: { eexists _, _. split; [reflexivity | left; reflexivity]. }
  destruct (isNumericId value) eqn:Hnum.
  { eexists _, _. split; [reflexivity | left; reflexivity]. }
  unfold try_catch, bind.
  destruct (match type with
            | OwnType type0 => resolve value (with_type_first options type0)
            | Inherited name =>
                resolve_inherited (inherited_text name) value options
            end w t) as [[rs | e] t1].
  - destruct rs as [| r rs].
    + eexists _, _. split; [reflexivity | left; reflexivity].
    + eexists _, _. split; [reflexivity |]. right.
      exists type, (mkEntry value (rr_id r) (rr_label r) (rr_exact r)).
      repeat split; reflexivity.
  - eexists _, _. split; [reflexivity | left; reflexivity].
Qed.

(** The loop, on filters with distinct keys.  A key that is not among them
    is left as it was.  A filter either keeps its value, or is resolved:
    then it was mapped and not numeric, and its entry is in [metadata] -
    unless its key is [__proto__], for which nothing is stored in either
    object and the entry becomes the prototype of [metadata]. *)
Lemma resolveFilterIds_loop_run (inherited_text : string -> string)
    (typeMapping : gmap string ResolvableResourceType)
    (options : ResolveOptions) (w : World) (entries : list (string * string)) :
  List.NoDup (map fst entries) ->
  forall (acc : Resolved) (t : Trace),
  exists res t',
    resolveFilterIds_loop inherited_text typeMapping options entries acc w t
    = (Ok res, t') /\
    (forall k, ~ In k (map fst entries) ->
       resolved res !! k = resolved acc !! k /\
       metadata res !! k = metadata acc !! k) /\
    (~ In "__proto__" (map fst entries) ->
     metadata_proto res = metadata_proto acc) /\
    (forall key value,
       In (key, value) entries ->
       (resolved res !! key
        = (if String.eqb key "__proto__" then resolved acc !! key
           else Some value) /\
        metadata res !! key = metadata acc !! key /\
        (key = "__proto__" -> metadata_proto res = metadata_proto acc)) \/
       (exists type e,
           typeMapping_at typeMapping key = Some type /\
           isNumericId value = false /\ input e = value /\
           if String.eqb key "__proto__"
           then resolved res !! key = resolved acc !! key /\
                metadata res !! key = metadata acc !! key /\
                metadata_proto res = Some e
           else resolved res !! key = Some (entry_id e) /\
                metadata res !! key = Some e)).
Proof.
  induction entries as [| [k0 v0] rest IH]; intros Hnd acc t.
  - exists acc, t. split; [reflexivity |]. split; [auto |]. split; [auto |].
    intros ? ? [].
  - simpl in Hnd. apply List.NoDup_cons_iff in Hnd as [Hnotin Hnd].
    destruct (resolveFilterIds_step_run w t inherited_text typeMapping options
                acc k0 v0) as (acc1 & t1 & Hstep & Hown).
    destruct (IH Hnd acc1 t1) as (res & t' & Hloop & Hout & Hproto & Hin).
    assert (Hother : forall k, k <> k0 ->
              resolved acc1 !! k = resolved acc !! k /\
              metadata acc1 !! k = metadata acc !! k).
    { intros k Hk. destruct Hown as [-> | (type & e & _ & _ & _ & ->)].
      - rewrite set_resolved_other by exact Hk.
        rewrite (proj1 (set_resolved_metadata k0 v0 acc)). auto.
      - rewrite set_metadata_resolved, set_resolved_other by exact Hk.
        rewrite set_metadata_other by exact Hk.
        rewrite (proj1 (set_resolved_metadata k0 (entry_id e) acc)). auto. }
    assert (Hkeep : k0 <> "__proto__" ->
              metadata_proto acc1 = metadata_proto acc).
    { intros Hk. apply String.eqb_neq in Hk.
      destruct Hown as [-> | (type & e & _ & _ & _ & ->)].
      - apply set_resolved_metadata.
      - unfold set_metadata, set_resolved. rewrite Hk. reflexivity. }
    exists res, t'. split.
    { cbn [resolveFilterIds_loop]. unfold bind. rewrite Hstep. exact Hloop. }
    split; [| split].
    + intros k Hk. simpl in Hk.
      destruct (Hout k) as [E1 E2]; [tauto |].
      destruct (Hother k) as [E3 E4]; [intros ->; tauto |].
      split; congruence.
    + intros Hk. simpl in Hk. rewrite Hproto by tauto.
      apply Hkeep. intros ->. tauto.
    + intros key value [[= -> ->] | Hmem].
      * destruct (Hout key Hnotin) as [E1 E2]. rewrite E1, E2.
        destruct Hown as [-> | (type & e & Hty & Hnum & Hi & ->)].
        -- left. rewrite set_resolved_own.
           rewrite (proj1 (set_resolved_metadata key value acc)).
           split; [reflexivity |]. split; [reflexivity |].
           intros ->. rewrite Hproto by exact Hnotin.
           apply set_resolved_metadata.
        -- right. exists type, e. split; [exact Hty |].
           split; [exact Hnum |]. split; [exact Hi |].
           unfold set_metadata, set_resolved.
           destruct (String.eqb_spec key "__proto__") as [-> | Hne].
           ++ rewrite Hproto by exact Hnotin. auto.
           ++ cbn [resolved metadata]. rewrite !lookup_insert_eq. auto.
      * assert (key <> k0).
        { intros ->. apply Hnotin. apply in_map_iff. exists (k0, value). auto. }
        destruct (Hother key) as [E3 E4]; [assumption |].
        assert (Hp : key = "__proto__" ->
                     metadata_proto acc1 = metadata_proto acc).
        { intros ->. apply Hkeep. congruence. }
        destruct (Hin key value Hmem) as [(R1 & R2 & R3) | (type & e & Hres)].
        -- left. rewrite R1, R2, E3, E4. split; [reflexivity |].
           split; [reflexivity |]. intros Hk. rewrite (R3 Hk). exact (Hp Hk).
        -- right. exists type, e. rewrite <- E3, <- E4. exact Hres.
Qed.

(** C10: for filters with distinct keys [resolveFilterIds] returns, and a
    filter whose key gives nothing in [typeMapping] ([typeMapping[key]] is
    [undefined]), or whose value is a numeric id, has no entry in the
    returned [metadata], whatever the resolution of the other filters
    did; its value is found unchanged in the returned [resolved] object
    if its key is not [__proto__].  Under the own key [__proto__] the
    value is lost: the assignment [resolved[key] = value] stores nothing,
    and the returned object has no such property. *)
Theorem resolveFilterIds_passthrough (w : World) (t : Trace)
    (inherited_text : string -> string) (filters : list (string * string))
    (typeMapping : gmap string ResolvableResourceType) (options : ResolveOptions) :
  List.NoDup (map fst filters) ->
  exists res t',
    resolveFilterIds inherited_text filters typeMapping options w t
    = (Ok res, t') /\
    forall key value,
      In (key, value) filters ->
      typeMapping_at typeMapping key = None \/ isNumericId value = true ->
      metadata res !! key = None /\
      resolved res !! key
      = if String.eqb key "__proto__" then None else Some value.
Proof.
  intros Hnd. unfold resolveFilterIds.
  destruct (resolveFilterIds_loop_run inherited_text typeMapping options w
              filters Hnd (mkResolved ∅ ∅ None) t)
    as (res & t' & Hrun & _ & _ & Hin).
  exists res, t'. split; [exact Hrun |].
  intros key value Hmem Hp.
  destruct (Hin key value Hmem) as [(E1 & E2 & _) | (type & e & Hty & Hnum & _)].
  - cbn [resolved metadata] in E1, E2. rewrite E1, E2, !lookup_empty.
    split; reflexivity.
  - destruct Hp as [Hp | Hp]; congruence.
Qed.

Lemma resolve_not_found_witness :
  exists message,
    resolve "ghost@example.com" (mkOptions None None false None) empty_api [] =
    (Throw (ResolveError message "ghost@example.com" (Some person) None),
     [ApiCall (mkRequest People [("email", "ghost@example.com")] 1)]).
Proof.
  apply (proj1 (resolve_not_found empty_api [] "ghost@example.com"
                  (mkOptions None None false None))
           person (Some "email") []);
    reflexivity.
Defined.

Lemma resolve_cache_protocol_witness :
  resolve "user@example.com" (mkOptions None None false (Some "42")) people_api []
  = (Ok [mkResult "500521" person "John Doe" "user@example.com" true],
     [CacheGet "42" "resolve:42:person:user@example.com";
      ApiCall (mkRequest People [("email", "user@example.com")] 1);
      CacheSet "42" "resolve:42:person:user@example.com"
        (mkResult "500521" person "John Doe" "user@example.com" true)
        "/resolve" 86400000]).
Proof.
  destruct (resolve_cache_protocol people_api [] "user@example.com"
              (mkOptions None None false (Some "42")) "42" eq_refl eq_refl)
    as [_ H].
  destruct (H person eq_refl) as [_ Hmiss].
  destruct (Hmiss eq_refl) as (pattern & Hd & Hrun).
  injection Hd as <-.
  destruct (Hrun _ _ eq_refl) as (_ & Hone & _).
  exact (Hone _ eq_refl).
Defined.

Lemma resolveFilterIds_passthrough_witness :
  exists res t',
    resolveFilterIds native_code [("__proto__", "123")] ∅
      (mkOptions None None false None) people_api [] = (Ok res, t') /\
    metadata res !! "__proto__" = None /\
    resolved res !! "__proto__" = None.
Proof.
  destruct (resolveFilterIds_passthrough people_api [] native_code
              [("__proto__", "123")] ∅ (mkOptions None None false None))
    as (res & t' & Hrun & Hpass).
  { repeat constructor; simpl; intuition discriminate. }
  exists res, t'. split; [exact Hrun |].
  apply (Hpass "__proto__" "123"); [left; reflexivity | right; reflexivity].
Defined.

Example resolveFilterIds_example :
  exists res t',
    resolveFilterIds native_code example_filters example_mapping
      (mkOptions None None false None) people_api [] = (Ok res, t') /\
    resolved res !! "project_id" = Some "777332" /\
    resolved res !! "person_id" = Some "500521" /\
    resolved res !! "status" = Some "open" /\
    (input <$> metadata res !! "person_id") = Some "Doe" /\
    metadata res !! "project_id" = None /\
    metadata res !! "status" = None.
Proof.
  eexists _, _. split; [reflexivity |]. vm_compute. repeat split; reflexivity.
Qed.

(** The own key [__proto__], as [JSON.parse] makes it, with a numeric
    value: both objects come back without it, and nothing was asked. *)
Example resolveFilterIds_proto :
  resolveFilterIds native_code [("__proto__", "123")] example_mapping
    (mkOptions None None false (Some "42")) people_api []
  = (Ok (mkResolved ∅ ∅ None), []).
Proof. reflexivity. Qed.

(** A key that [typeMapping] has no own property for, but inherits: a
    resolution is attempted, with the inherited function as the type.
    The cache is asked, nothing is found, and the value is kept. *)
Example resolveFilterIds_inherited :
  exists res,
    resolveFilterIds native_code [("toString", "open")] example_mapping
      (mkOptions None None false (Some "42")) people_api []
    = (Ok res,
       [CacheGet "42" "resolve:42:function toString() { [native code] }:open"]) /\
    resolved res !! "toString" = Some "open" /\
    metadata res !! "toString" = None.
Proof. eexists. split; [reflexivity |]. vm_compute. split; reflexivity. Qed.

End ResolverFacts.

(** ** The TTL response cache *)
Module FileCacheFacts.

Import FileCache.

(** *** Default TTLs *)

Lemma prefixes_comparable (p q l : list ascii) :
  JS.starts_with p l = true -> JS.starts_with q l = true ->
  JS.starts_with p q = true \/ JS.starts_with q p = true.
Proof.
  revert p q. induction l as [| c l IH]; intros p q Hp Hq.
  - destruct p; [| discriminate]. left. reflexivity.
  - destruct p as [| a p]; [left; reflexivity |].
    destruct q as [| b q]; [right; reflexivity |].
    simpl in *.
    destruct (Ascii.eqb a c) eqn:Ea; [| discriminate].
    destruct (Ascii.eqb b c) eqn:Eb; [| discriminate].
    apply Ascii.eqb_eq in Ea, Eb. subst a b.
    rewrite Ascii.eqb_refl. apply IH; assumption.
Qed.

Ltac two_prefixes :=
  match goal with
  | H1 : JS.startsWith ?e ?p = true, H2 : JS.startsWith ?e ?q = true |- _ =>
      destruct (prefixes_comparable _ _ _ H1 H2) as [X | X];
      vm_compute in X; discriminate X
  end.

(** The first row of [DEFAULT_TTLS] that matches is the longest match,
    because no pattern of the table is a prefix of another. *)
Lemma getTTL_longest (endpoint : string) :
  getTTL endpoint None = longest_prefix_ttl endpoint.
Proof.
  unfold getTTL, longest_prefix_ttl, DEFAULT_TTLS.
  cbn [getTTL_loop longest_match].
  destruct (JS.startsWith endpoint "/projects") eqn:E1,
           (JS.startsWith endpoint "/people") eqn:E2,
           (JS.startsWith endpoint "/services") eqn:E3,
           (JS.startsWith endpoint "/time_entries") eqn:E4,
           (JS.startsWith endpoint "/tasks") eqn:E5,
           (JS.startsWith endpoint "/budgets") eqn:E6;
    try reflexivity; exfalso; two_prefixes.
Qed.

Lemma longest_match_none (table : list (string * Z)) (endpoint : string)
    (best : option (string * Z)) :
  (forall p v, In (p, v) table -> JS.startsWith endpoint p = false) ->
  longest_match table endpoint best = best.
Proof.
  induction table as [| [p v] table IH]; intros H; simpl; [reflexivity |].
  rewrite (H p v); [| left; reflexivity].
  apply IH. intros q u Hin. apply (H q u). right. exact Hin.
Qed.

Lemma find_write_file (nm : string) (f : File) (d : Directory) :
  find_file nm (write_file nm f d) = Some f.
Proof.
  induction d as [| [n g] d IH]; simpl.
  - rewrite String.eqb_refl. reflexivity.
  - destruct (String.eqb n nm) eqn:E; simpl; rewrite E; auto.
Qed.

Section Run.

Variable w : World.

Hypothesis Hw : reliable w.

Lemma io_run {A} (f : State -> option (A * State)) (s : State) :
  io w f s =
  match f s with
  | Some (a, s') => (Ok a, tick s')
  | None => (Throw, tick s)
  end.
Proof. unfold io. rewrite Hw. reflexivity. Qed.

(** C3: a [set] without a TTL of its own stores the entry with the TTL of
    the longest pattern of the defaults table that is a prefix of the
    endpoint, and with 300 seconds when no pattern is; a TTL given with the
    call is stored as it is.  (The write succeeds: the cache is enabled,
    its directory exists and the environment fails no operation.) *)
Theorem set_stores_ttl (endpoint : string) (params : list (string * string))
    (orgId data : string) (options : option CacheOptions) (s : State)
    (d : Directory) :
  dir s = Some d ->
  exists s' d' e sz,
    set w true endpoint params orgId data options s = (Ok tt, s') /\
    dir s' = Some d' /\
    find_file (digest w endpoint params orgId +:+ ".json") d'
    = Some (mkFile (Json e) sz) /\
    FileCache.data e = data /\ FileCache.endpoint e = endpoint /\
    ttl e = match options ≫= opt_ttl with
            | Some custom => custom
            | None => longest_prefix_ttl endpoint
            end /\
    ((forall p v, In (p, v) DEFAULT_TTLS -> JS.startsWith endpoint p = false) ->
     longest_prefix_ttl endpoint = 300) /\
    DEFAULT_TTLS =
    [("/projects", 3600); ("/people", 3600); ("/services", 3600);
     ("/time_entries", 300); ("/tasks", 900); ("/budgets", 900)].
Proof.
  intros Hd.
  pose (e := mkEntry data (clock w (S (ops s)))
               (getTTL endpoint (options ≫= opt_ttl)) endpoint params).
  assert (Hrun :
    set w true endpoint params orgId data options s =
    (Ok tt,
     mkState
       (Some (write_file (digest w endpoint params orgId +:+ ".json")
                (mkFile (Json e) (json_size w e)) d))
       (S (S (S (S (ops s))))) (S (immediates s)) (unlinked s))).
  { unfold set, set_try, try_catch, bind, getCacheKey, Date_now,
      JSON_stringify, writeFileSync, setImmediate_cleanup.
    cbn [negb]. repeat (rewrite io_run; cbn -[io getTTL write_file]).
    rewrite Hd. reflexivity. }
  rewrite Hrun. eexists _, _, e, _. split; [reflexivity |].
  split; [reflexivity |]. split; [apply find_write_file |].
  split; [reflexivity |]. split; [reflexivity |]. split.
  - subst e. cbn [ttl]. destruct (options ≫= opt_ttl); [reflexivity |].
    apply getTTL_longest.
  - split; [| reflexivity].
    intros H. unfold longest_prefix_ttl. rewrite longest_match_none; auto.
Qed.

End Run.

Lemma quiet_reliable : reliable quiet.
Proof. intros n. reflexivity. Qed.

Lemma set_stores_ttl_witness :
  exists s' d' e sz,
    set quiet true "/tasks/12" [] "org" "{}" None fresh = (Ok tt, s') /\
    dir s' = Some d' /\
    find_file "org_tasks12.json" d' = Some (mkFile (Json e) sz) /\
    ttl e = 900.
Proof.
  destruct (set_stores_ttl quiet quiet_reliable "/tasks/12" [] "org" "{}" None
              fresh [] eq_refl)
    as (s' & d' & e & sz & H1 & H2 & H3 & _ & _ & H4 & _).
  exists s', d', e, sz. repeat split; assumption.
Defined.

(** A value written is read back while it is fresh, and is a miss once
    its TTL has passed (the clock of [quiet] advances by a second per
    operation). *)
Example set_then_get :
  exists s1 s2 s3 s4,
    set quiet true "/projects" [("page", "1")] "org-1" "[1,2,3]" None fresh
    = (Ok tt, s1) /\
    get quiet true "/projects" [("page", "1")] "org-1" s1
    = (Ok (Some "[1,2,3]"), s2) /\
    set quiet true "/projects" [] "org-1" "[]" (Some (mkCacheOptions (Some 1) None))
      fresh
    = (Ok tt, s3) /\
    get quiet true "/projects" [] "org-1" s3 = (Ok None, s4) /\
    dir s4 = Some [].
Proof. eexists _, _, _, _. repeat split; reflexivity. Qed.

(** *** Failures stay inside the cache *)

Lemma try_catch_ret {A} (m : FM A) (a : A) (s : State) :
  exists r s',
    try_catch m (ret a) s = (Ok r, s') /\
    (forall s1, m s = (Throw, s1) -> r = a /\ s' = s1).
Proof.
  unfold try_catch, ret. destruct (m s) as [[r |] s1].
  - exists r, s1. split; [reflexivity |]. intros ? [=].
  - exists a, s1. split; [reflexivity |]. intros ? [= <-]. auto.
Qed.

Lemma set_try_throw_dir (w : World) (endpoint : string)
    (params : list (string * string)) (orgId data : string)
    (options : option CacheOptions) (s s1 : State) :
  set_try w endpoint params orgId data options s = (Throw, s1) ->
  dir s1 = dir s.
Proof.
  unfold set_try, bind, getCacheKey, Date_now, JSON_stringify, writeFileSync,
    setImmediate_cleanup, io.
  destruct (fault w (ops s)); [intros [= <-]; reflexivity |].
  cbn -[getTTL write_file].
  destruct (fault w (S (S (ops s)))); [intros [= <-]; reflexivity |].
  cbn -[getTTL write_file].
  destruct (fault w (S (S (S (ops s))))); [intros [= <-]; reflexivity |].
  destruct (dir s) eqn:E; cbn -[getTTL write_file]; [discriminate |].
  intros [= <-]. cbn. exact E.
Qed.

(** C8: whatever the environment fails and whatever the directory holds,
    [get], [set], [invalidate], [clear], [stats] and the cleanup sweep
    return normally; when the body of [get] throws, [get] returns [null];
    when the body of [set] throws, the directory is as it was; when the
    body of [stats] throws, the statistics are all zero.  The same holds
    for the cache accesses of the resolver: they return normally, and a
    failed read is a miss. *)
Theorem cache_failures_contained (w : World) (enabled : bool) (s : State)
    (endpoint : string) (params : list (string * string))
    (orgId data : string) (options : option CacheOptions)
    (pattern : option string)
    (rw : Resolver.World) (t : Resolver.Trace)
    (type : Resolver.ResolvableResourceType) (query : string)
    (result : Resolver.ResolveResult) :
  (exists r s',
      get w enabled endpoint params orgId s = (Ok r, s') /\
      (enabled = true ->
       forall s1, get_try w endpoint params orgId s = (Throw, s1) ->
                  r = None /\ s' = s1)) /\
  (exists s',
      set w enabled endpoint params orgId data options s = (Ok tt, s') /\
      (enabled = true ->
       forall s1, set_try w endpoint params orgId data options s = (Throw, s1) ->
                  s' = s1 /\ dir s' = dir s)) /\
  (exists s', invalidate w enabled pattern s = (Ok tt, s')) /\
  (exists s', clear w enabled s = (Ok tt, s')) /\
  (exists r s',
      stats w enabled s = (Ok r, s') /\
      (forall s1, stats_try w s = (Throw, s1) -> r = no_stats)) /\
  (exists s', cleanup w s = (Ok tt, s')) /\
  (exists s', run_immediate w s = (Ok tt, s')) /\
  (exists r t',
      Resolver.getCachedResolve orgId type query rw t = (Resolver.Ok r, t') /\
      (Resolver.cache_answer rw t orgId
         (Resolver.getResolveCacheKey orgId type query) = None ->
       r = None)) /\
  (exists t',
      Resolver.setCachedResolve orgId result rw t = (Resolver.Ok tt, t')).
Proof.
  assert (Hunit : forall (m : FM unit) s0,
             exists s', try_catch m (ret tt) s0 = (Ok tt, s')).
  { intros m s0. destruct (try_catch_ret m tt s0) as ([] & s' & H & _). eauto. }
  repeat split.
  - unfold get. destruct enabled; cbn [negb].
    + destruct (try_catch_ret (get_try w endpoint params orgId) None s)
        as (r & s' & H & Hd).
      exists r, s'. split; [exact H |]. intros _. exact Hd.
    + eexists _, _. split; [reflexivity |]. discriminate.
  - unfold set. destruct enabled; cbn [negb].
    + destruct (try_catch_ret (set_try w endpoint params orgId data options)
                  tt s) as ([] & s' & H & Hd).
      exists s'. split; [exact H |]. intros _ s1 Hthrow.
      destruct (Hd s1 Hthrow) as [_ ->]. split; [reflexivity |].
      eapply set_try_throw_dir. exact Hthrow.
    + eexists. split; [reflexivity |]. discriminate.
  - unfold invalidate. destruct enabled; cbn [negb]; [apply Hunit |].
    eexists. reflexivity.
  - unfold clear, invalidate. destruct enabled; cbn [negb]; [apply Hunit |].
    eexists. reflexivity.
  - unfold stats, bind, existsSync_dir.
    destruct (negb enabled || negb (bool_decide (is_Some (dir s)))).
    + eexists _, _. split; [reflexivity |]. reflexivity.
    + destruct (try_catch_ret (stats_try w) no_stats s) as (r & s' & H & Hd).
      exists r, s'. split; [exact H |]. intros s1 Hthrow.
      apply (Hd s1 Hthrow).
  - apply Hunit.
  - unfold run_immediate. destruct (immediates s); [eexists; reflexivity |].
    apply Hunit.
  - rewrite ResolverFacts.getCachedResolve_run.
    eexists _, _. split; [reflexivity |]. intros ->. reflexivity.
  - rewrite ResolverFacts.setCachedResolve_run. eexists. reflexivity.
Qed.

Lemma cache_failures_contained_witness :
  (exists s', get broken true "/tasks" [] "org" fresh = (Ok None, s')) /\
  (exists s', set broken true "/tasks" [] "org" "{}" None fresh = (Ok tt, s') /\
              dir s' = dir fresh).
Proof.
  destruct (cache_failures_contained broken true fresh "/tasks" [] "org" "{}"
              None None Resolver.no_api [] Resolver.person "x"
              (Resolver.mkResult "1" Resolver.person "x" "x" true))
    as ((r & s1 & Hget & Hmiss) & (s2 & Hset & Hnoop) & _).
  split.
  - destruct (Hmiss eq_refl _ eq_refl) as [-> _]. exists s1. exact Hget.
  - exists s2. split; [exact Hset |].
    destruct (Hnoop eq_refl _ eq_refl) as [_ H]. exact H.
Defined.

End FileCacheFacts.

(** ** The rate limiter *)
Module RateLimiterFacts.

Import RateLimiter.

Lemma filter_filter_weaker (b c : Z) (l : list Z) :
  b <= c ->
  List.filter (fun t => c <=? t) (List.filter (fun t => b <=? t) l)
  = List.filter (fun t => c <=? t) l.
Proof.
  intros Hbc. induction l as [| x l IH]; simpl; [reflexivity |].
  destruct (b <=? x) eqn:Eb; simpl.
  - rewrite IH. reflexivity.
  - destruct (c <=? x) eqn:Ec; [lia | exact IH].
Qed.

Lemma filter_rev_length (f : Z -> bool) (l : list Z) :
  length (List.filter f (rev l)) = length (List.filter f l).
Proof.
  induction l as [| x l IH]; simpl; [reflexivity |].
  rewrite List.filter_app, length_app, IH. simpl.
  destruct (f x); simpl; lia.
Qed.

(** A spaced history holds at most [lim] timestamps in any closed
    interval of the length of the window. *)
Lemma spaced_bound (window : Z) (lim : nat) (T : Z) (h : list Z) :
  spaced window lim h ->
  (length (List.filter (fun t => ((T - window <=? t) && (t <=? T))%Z) h)
   <= lim)%nat.
Proof.
  induction h as [| a rest IH]; simpl; intros Hs; [lia |].
  destruct Hs as [Ha Hrest]. specialize (IH Hrest).
  destruct ((T - window <=? a) && (a <=? T)) eqn:E; [| exact IH].
  apply andb_true_iff in E as [E1 E2]. simpl.
  enough (length (List.filter (fun t => ((T - window <=? t) && (t <=? T))%Z) rest)
          <= length (List.filter (fun t => (a - window <=? t)%Z) rest))%nat by lia.
  clear -E2. induction rest as [| x rest IH]; simpl; [lia |].
  destruct ((T - window <=? x) && (x <=? T)) eqn:Ex.
  - apply andb_true_iff in Ex as [Ex1 Ex2].
    replace (a - window <=? x) with true by lia. simpl. lia.
  - destruct (a - window <=? x); simpl; lia.
Qed.

Lemma granted_within_history (class : string) (window T : Z)
    (adm : list (string * Z)) :
  length (granted_within class window T adm)
  = length (List.filter (fun t => (T - window <=? t) && (t <=? T))
              (history class adm)).
Proof.
  unfold granted_within, history.
  induction adm as [| [c t] adm IH]; simpl; [reflexivity |].
  destruct (String.eqb c class); simpl; [| exact IH].
  destruct ((T - window <=? t) && (t <=? T)); simpl; rewrite IH; reflexivity.
Qed.

Section Invariant.

Variable config : string -> Config.
Variable class : string.
Hypothesis window_nonneg : 0 <= cfg_windowMs (config class).

Lemma window_ok_empty (last : Z) : window_ok config last empty class.
Proof.
  unfold window_ok, window_of, empty. simpl. rewrite lookup_empty. simpl.
  repeat split; auto. exists (last - cfg_windowMs (config class)).
  split; [lia | reflexivity].
Qed.

Lemma window_ok_step (last now : Z) (l : Limiter) (class0 : string) :
  last <= now ->
  window_ok config last l class ->
  window_ok config now (snd (acquire_check config l (class0, now))) class.
Proof.
  intros Hle (Hlim & Hwin & (b & Hb & Hts) & Hsp).
  unfold acquire_check.
  destruct (check now (window_of config class0 l)) as [a rw'] eqn:Echeck.
  cbn [snd]. unfold window_ok, window_of in *.
  cbn [windows admissions].
  destruct (String.eqb_spec class0 class) as [-> | Hne].
  - rewrite lookup_insert_eq. cbn [default from_option id].
    set (rw := default (new_window config class) (windows l !! class)) in *.
    unfold check in Echeck.
    assert (Hlive :
      prune now (windowMs rw) (timestamps rw) =
      List.filter (fun t => now - windowMs rw <=? t)
        (rev (history class (admissions l)))).
    { unfold prune. rewrite Hts. apply filter_filter_weaker. lia. }
    rewrite Hlive in Echeck.
    destruct (length _ <? limit rw)%nat eqn:Efree;
      injection Echeck as <- <-; cbn [limit windowMs timestamps].
    + split; [exact Hlim |]. split; [exact Hwin |].
      unfold history. cbn [List.filter fst]. rewrite String.eqb_refl.
      cbn [map snd]. fold (history class (admissions l)). split.
      * exists (now - windowMs rw). split; [lia |].
        cbn [rev]. rewrite List.filter_app. cbn [List.filter].
        replace (now - windowMs rw <=? now) with true; [reflexivity |].
        lia.
      * cbn [spaced]. split; [| exact Hsp].
        rewrite <- filter_rev_length. apply Nat.ltb_lt. exact Efree.
    + split; [exact Hlim |]. split; [exact Hwin |]. split; [| exact Hsp].
      exists (now - windowMs rw). split; [lia | reflexivity].
  - rewrite lookup_insert_ne by exact Hne.
    assert (Hsame :
      history class
        match a with
        | Granted => (class0, now) :: admissions l
        | Suspended _ => admissions l
        end = history class (admissions l)).
    { destruct a; [| reflexivity]. unfold history. cbn [List.filter fst].
      destruct (String.eqb_spec class0 class); [contradiction | reflexivity]. }
    rewrite Hsame. split; [exact Hlim |]. split; [exact Hwin |].
    split; [| exact Hsp]. exists b. split; [lia | exact Hts].
Qed.

Lemma window_ok_run (events : list (string * Z)) :
  forall (last : Z) (l : Limiter),
    in_time_order last events ->
    window_ok config last l class ->
    exists last', window_ok config last' (run config events l) class.
Proof.
  induction events as [| [class0 now] events IH]; intros last l Hord Hok.
  - exists last. exact Hok.
  - destruct Hord as [Hle Hord]. unfold run. cbn [foldl].
    apply (IH now); [exact Hord |].
    apply (window_ok_step last); assumption.
Qed.

End Invariant.

Lemma in_time_order_take (n : nat) (events : list (string * Z)) :
  forall last, in_time_order last events -> in_time_order last (take n events).
Proof.
  revert n. induction events as [| [c now] events IH]; intros n last H.
  - destruct n; exact I.
  - destruct n; [exact I |]. destruct H as [Hle H]. split; [exact Hle |].
    apply IH. exact H.
Qed.

(** C2: after any checks made in time order, by any tasks and for any
    classes, no closed interval of the length of a class's window holds
    more granted timestamps of that class than its limit, and this at
    every point of the run.  A check first prunes; it suspends the caller,
    leaving the pruned timestamps as they are, when they are already as
    many as the limit, and otherwise grants and appends [now]; an
    admission is recorded exactly when the check grants. *)
Theorem rate_limit_holds (config : string -> Config)
    (events : list (string * Z)) (last : Z) :
  in_time_order last events ->
  (forall (n : nat) (class : string) (T : Z),
      (length (granted_within class (cfg_windowMs (config class)) T
                 (admissions (run config (take n events) empty)))
       <= cfg_limit (config class))%nat) /\
  (forall (now : Z) (rw : RateWindow),
      let live := prune now (windowMs rw) (timestamps rw) in
      ((limit rw <= length live)%nat ->
       check now rw =
       (Suspended (windowMs rw - (now - hd now live)),
        mkWindow (classId rw) live (limit rw) (windowMs rw))) /\
      ((length live < limit rw)%nat ->
       check now rw =
       (Granted,
        mkWindow (classId rw) (live ++ [now]) (limit rw) (windowMs rw)))) /\
  (forall (l : Limiter) (class : string) (now : Z),
      admissions (snd (acquire_check config l (class, now))) =
      match fst (acquire_check config l (class, now)) with
      | Granted => (class, now) :: admissions l
      | Suspended _ => admissions l
      end).
Proof.
  intros Hord. split; [| split].
  - intros n class T. rewrite granted_within_history.
    destruct (Z_lt_le_dec (cfg_windowMs (config class)) 0) as [Hneg | Hpos].
    + induction (history class _) as [| t h IH]; simpl; [lia |].
      replace ((T - cfg_windowMs (config class) <=? t) && (t <=? T))
        with false by lia.
      exact IH.
    + destruct (window_ok_run config class Hpos (take n events) last empty
                  (in_time_order_take n events last Hord)
                  (window_ok_empty config class last))
        as (last' & Hlim & Hwin & _ & Hsp).
      rewrite <- Hlim, <- Hwin. apply spaced_bound. exact Hsp.
  - intros now rw live. unfold check. fold live. split; intros H.
    + replace (length live <? limit rw)%nat with false; [reflexivity |].
      symmetry. apply Nat.ltb_ge. exact H.
    + replace (length live <? limit rw)%nat with true; [reflexivity |].
      symmetry. apply Nat.ltb_lt. exact H.
  - intros l class now. unfold acquire_check.
    destruct (check now (window_of config class l)) as [[|] rw]; reflexivity.
Qed.

Lemma rate_limit_holds_witness :
  (length (granted_within "api" 1000 1000
             (admissions (run two_per_second back_to_back empty))) <= 2)%nat.
Proof.
  apply (proj1 (rate_limit_holds two_per_second back_to_back 0
                  ltac:(simpl; lia)) 5%nat "api" 1000).
Defined.

(** The scenario of the specification: with two requests per 1000 ms, the
    third of three calls made at time 0 is suspended for 1000 ms, is
    suspended again at 1000, and is granted at 1001. *)
Example back_to_back_run :
  fst (acquire_check two_per_second
         (run two_per_second (take 2 back_to_back) empty) ("api", 0))
  = Suspended 1000 /\
  fst (acquire_check two_per_second
         (run two_per_second (take 3 back_to_back) empty) ("api", 1000))
  = Suspended 0 /\
  admissions (run two_per_second back_to_back empty)
  = [("api", 1001); ("api", 0); ("api", 0)].
Proof. repeat split; reflexivity. Qed.

End RateLimiterFacts.

(** ** The cleanup sweep *)
Module SweepFacts.

Import FileCache FileCacheFacts.

(** *** Directories *)

Lemma find_file_notin (nm : string) (d : Directory) :
  ~ In nm (map fst d) -> find_file nm d = None.
Proof.
  induction d as [| [n f] d IH]; simpl; intros H; [reflexivity |].
  destruct (String.eqb_spec n nm) as [-> | Hne]; [tauto |].
  apply IH. tauto.
Qed.

Lemma find_file_app (nm : string) (pre d : Directory) :
  ~ In nm (map fst pre) -> find_file nm (pre ++ d) = find_file nm d.
Proof.
  induction pre as [| [n f] pre IH]; simpl; intros H; [reflexivity |].
  destruct (String.eqb_spec n nm) as [-> | Hne]; [tauto |].
  apply IH. tauto.
Qed.

Lemma remove_file_notin (nm : string) (d : Directory) :
  ~ In nm (map fst d) -> remove_file nm d = d.
Proof.
  unfold remove_file.
  induction d as [| [n f] d IH]; simpl; intros H; [reflexivity |].
  destruct (String.eqb_spec n nm) as [-> | Hne]; [tauto |].
  simpl. rewrite IH; [reflexivity | tauto].
Qed.

Lemma remove_file_middle (nm : string) (f : File) (pre d : Directory) :
  List.NoDup (map fst (pre ++ (nm, f) :: d)) ->
  remove_file nm (pre ++ (nm, f) :: d) = pre ++ d.
Proof.
  intros Hnd. rewrite map_app in Hnd. simpl in Hnd.
  apply NoDup_remove in Hnd as [_ Hnotin].
  unfold remove_file. rewrite List.filter_app. simpl.
  rewrite String.eqb_refl. simpl.
  fold (remove_file nm pre). fold (remove_file nm d).
  rewrite !remove_file_notin; [reflexivity | |];
    intros Hin; apply Hnotin, in_or_app; auto.
Qed.

Lemma find_file_middle (nm : string) (f : File) (pre d : Directory) :
  List.NoDup (map fst (pre ++ (nm, f) :: d)) ->
  find_file nm (pre ++ (nm, f) :: d) = Some f.
Proof.
  intros Hnd. rewrite map_app in Hnd. simpl in Hnd.
  apply NoDup_remove in Hnd as [_ Hnotin].
  rewrite find_file_app.
  - simpl. rewrite String.eqb_refl. reflexivity.
  - intros Hin. apply Hnotin, in_or_app. auto.
Qed.

Lemma NoDup_middle_drop (nm : string) (f : File) (pre d : Directory) :
  List.NoDup (map fst (pre ++ (nm, f) :: d)) ->
  List.NoDup (map fst (pre ++ d)).
Proof.
  rewrite !map_app. simpl. intros H. apply NoDup_remove in H. tauto.
Qed.

Lemma NoDup_middle_keep (nm : string) (f : File) (pre d : Directory) :
  List.NoDup (map fst (pre ++ (nm, f) :: d)) ->
  List.NoDup (map fst ((pre ++ [(nm, f)]) ++ d)).
Proof. rewrite <- app_assoc. simpl. auto. Qed.

Ltac step :=
  cbv beta iota delta
    [bind ret try_catch throw Date_now tick JSON_parse ops dir immediates
       unlinked].

Ltac exists_here Hnd := apply find_file_middle; exact Hnd.

Section Reliable.

Variable w : World.
Hypothesis Hw : reliable w.

Lemma io_ok {A} (f : State -> option (A * State)) (s : State) :
  io w f s =
  match f s with
  | Some (a, s') => (Ok a, tick s')
  | None => (Throw, tick s)
  end.
Proof. unfold io. rewrite Hw. reflexivity. Qed.

Lemma statSync_ok (nm : string) (f : File) (d : Directory) (n im : nat)
    (ul : list string) :
  find_file nm d = Some f ->
  statSync w nm (mkState (Some d) n im ul)
  = (Ok (size f), mkState (Some d) (S n) im ul).
Proof. intros H. unfold statSync. rewrite io_ok. cbn. rewrite H. reflexivity. Qed.

Lemma readFileSync_ok (nm : string) (f : File) (d : Directory) (n im : nat)
    (ul : list string) :
  find_file nm d = Some f ->
  readFileSync w nm (mkState (Some d) n im ul)
  = (Ok (content f), mkState (Some d) (S n) im ul).
Proof.
  intros H. unfold readFileSync. rewrite io_ok. cbn. rewrite H. reflexivity.
Qed.

Lemma unlinkSync_ok (nm : string) (f : File) (d : Directory) (n im : nat)
    (ul : list string) :
  find_file nm d = Some f ->
  unlinkSync w nm (mkState (Some d) n im ul)
  = (Ok tt, mkState (Some (remove_file nm d)) (S n) im (ul ++ [nm])).
Proof.
  intros H. unfold unlinkSync. rewrite io_ok. cbn. rewrite H. reflexivity.
Qed.

(** The first loop computes [scan_result]. *)
Lemma cleanup_scan_run (d : Directory) :
  forall (pre : Directory) (n im : nat) (ul : list string) (ts : Z)
         (infos : list FileInfo),
    List.NoDup (map fst (pre ++ d)) ->
    cleanup_scan w (List.filter is_json (map fst d)) ts infos
      (mkState (Some (pre ++ d)) n im ul)
    = (Ok (ts + total_size (json_files (scan_result w n d).1.1),
           infos ++ map entry_info (json_files (scan_result w n d).1.1)),
       mkState (Some (pre ++ (scan_result w n d).1.1))
         (scan_result w n d).2 im (ul ++ (scan_result w n d).1.2)).
Proof.
  induction d as [| [nm f] d IH]; intros pre n im ul ts infos Hnd.
  - cbn. rewrite Z.add_0_r, !app_nil_r. reflexivity.
  - cbn [map fst List.filter scan_result].
    destruct (is_json nm) eqn:Ejson.
    + cbn [cleanup_scan]. step.
      rewrite (statSync_ok nm f) by exists_here Hnd. step.
      rewrite (readFileSync_ok nm f) by exists_here Hnd. step.
      destruct (content f) as [e |] eqn:Econtent; step.
      * replace (n + 2)%nat with (S (S n)) by lia.
        destruct (expired (clock w (S (S n))) e) eqn:Eexp; step.
        -- rewrite (unlinkSync_ok nm f) by exists_here Hnd. step.
           cbn [fst snd].
           rewrite remove_file_middle by exact Hnd.
           rewrite (IH pre) by (eapply NoDup_middle_drop; exact Hnd).
           replace (n + 4)%nat with (S (S (S (S n)))) by lia.
           destruct (scan_result w (S (S (S (S n)))) d) as [[k del] n'].
           cbn [fst snd]. rewrite <- app_assoc. cbn [app].
           do 3 f_equal. lia.
        -- cbn [fst snd].
           replace (pre ++ (nm, f) :: d) with ((pre ++ [(nm, f)]) ++ d)
             by (rewrite <- app_assoc; reflexivity).
           rewrite (IH (pre ++ [(nm, f)]))
             by (eapply NoDup_middle_keep; exact Hnd).
           replace (n + 3)%nat with (S (S (S n))) by lia.
           destruct (scan_result w (S (S (S n))) d) as [[k del] n'].
           cbn [fst snd json_files List.filter]. rewrite Ejson.
           cbn [total_size foldr map snd fst].
           fold (json_files k). fold (total_size (json_files k)).
           unfold entry_info at 2. cbn [fst snd]. rewrite Econtent.
           rewrite <- !app_assoc. cbn [app].
           do 3 f_equal. lia.
      * rewrite (unlinkSync_ok nm f) by exists_here Hnd. step.
        cbn [fst snd].
        rewrite remove_file_middle by exact Hnd.
        rewrite (IH pre) by (eapply NoDup_middle_drop; exact Hnd).
        replace (n + 3)%nat with (S (S (S n))) by lia.
        destruct (scan_result w (S (S (S n))) d) as [[k del] n'].
        cbn [fst snd]. rewrite <- app_assoc. cbn [app].
        do 3 f_equal. lia.
    + replace (pre ++ (nm, f) :: d) with ((pre ++ [(nm, f)]) ++ d)
        by (rewrite <- app_assoc; reflexivity).
      rewrite (IH (pre ++ [(nm, f)])) by (eapply NoDup_middle_keep; exact Hnd).
      destruct (scan_result w n d) as [[k del] n'].
      cbn [fst snd json_files List.filter]. rewrite Ejson.
      fold (json_files k). rewrite <- !app_assoc. reflexivity.
Qed.

(** *** What the first loop deletes and what it keeps *)

Lemma drop_names_skip (nm : string) (names : list string) (d : Directory) :
  ~ In nm (map fst d) -> drop_names (nm :: names) d = drop_names names d.
Proof.
  intros H. unfold drop_names. apply List.filter_ext_in.
  intros [n f] Hin. cbn [existsb fst].
  destruct (String.eqb_spec n nm) as [-> | Hne]; [| reflexivity].
  exfalso. apply H. apply in_map_iff. exists (nm, f). auto.
Qed.

Lemma existsb_eqb_notin (nm : string) (names : list string) :
  ~ In nm names -> existsb (String.eqb nm) names = false.
Proof.
  induction names as [| x names IH]; simpl; intros H; [reflexivity |].
  destruct (String.eqb_spec nm x) as [-> | Hne]; [tauto |].
  apply IH. tauto.
Qed.

Lemma stale_wider (lo lo' hi hi' : nat) (f : File) :
  (lo <= lo')%nat -> (hi' <= hi)%nat -> stale w lo' hi' f -> stale w lo hi f.
Proof.
  intros Hlo Hhi [Hg | (e & m & He & Hm & Hx)]; [left; exact Hg |].
  right. exists e, m. repeat split; auto; lia.
Qed.

Lemma fresh_entry_wider (lo lo' hi hi' : nat) (f : File) :
  (lo <= lo')%nat -> (hi' <= hi)%nat ->
  fresh_entry w lo' hi' f -> fresh_entry w lo hi f.
Proof.
  intros Hlo Hhi (e & m & He & Hm & Hx).
  exists e, m. repeat split; auto; lia.
Qed.

Lemma scan_result_facts (d : Directory) :
  forall n : nat,
    List.NoDup (map fst d) ->
    (scan_result w n d).1.1 = drop_names (scan_result w n d).1.2 d /\
    (n <= (scan_result w n d).2)%nat /\
    Forall (fun nm => exists f, In (nm, f) d /\ is_json nm = true /\
                                stale w n (scan_result w n d).2 f)
      (scan_result w n d).1.2 /\
    Forall (fun nf => fresh_entry w n (scan_result w n d).2 (snd nf))
      (json_files (scan_result w n d).1.1).
Proof.
  induction d as [| [nm f] d IH]; intros n Hnd.
  - cbn. repeat split; auto.
  - simpl in Hnd. apply List.NoDup_cons_iff in Hnd as [Hnotin Hnd].
    assert (Hdel : forall m,
               ~ In nm (scan_result w m d).1.2).
    { intros m Hin. destruct (IH m Hnd) as (_ & _ & Hd & _).
      rewrite List.Forall_forall in Hd.
      destruct (Hd nm Hin) as (g & Hg & _).
      apply Hnotin. apply in_map_iff. exists (nm, g). auto. }
    assert (Hkeep : forall m,
               drop_names (scan_result w m d).1.2 ((nm, f) :: d)
               = (nm, f) :: drop_names (scan_result w m d).1.2 d).
    { intros m. unfold drop_names. cbn [List.filter fst].
      rewrite existsb_eqb_notin by apply Hdel. reflexivity. }
    assert (Hdrop : forall names,
               drop_names (nm :: names) ((nm, f) :: d) = drop_names names d).
    { intros names. unfold drop_names at 1. cbn [List.filter fst existsb].
      rewrite String.eqb_refl. cbn [orb negb].
      apply (drop_names_skip nm names d Hnotin). }
    cbn [scan_result].
    destruct (is_json nm) eqn:Ejson; [destruct (content f) as [e |] eqn:Ec;
      [destruct (expired (clock w (n + 2)) e) eqn:Ex |] |].
    + specialize (IH (n + 4)%nat Hnd). specialize (Hdel (n + 4)%nat).
      destruct (scan_result w (n + 4) d) as [[k del] n'].
      cbn [fst snd] in *. destruct IH as (Hk & Hn & Hd & Hf).
      split; [rewrite Hdrop; exact Hk |]. split; [lia |]. split.
      * constructor.
        -- exists f. split; [left; reflexivity |]. split; [exact Ejson |].
           right. exists e, (n + 2)%nat. repeat split; auto; lia.
        -- eapply List.Forall_impl; [| exact Hd].
           intros x (g & Hg & Hj & Hs). exists g.
           split; [right; exact Hg |]. split; [exact Hj |].
           eapply stale_wider; [| | exact Hs]; lia.
      * eapply List.Forall_impl; [| exact Hf].
        intros x Hx. eapply fresh_entry_wider; [| | exact Hx]; lia.
    + specialize (IH (n + 3)%nat Hnd). specialize (Hkeep (n + 3)%nat).
      destruct (scan_result w (n + 3) d) as [[k del] n'].
      cbn [fst snd] in *. destruct IH as (Hk & Hn & Hd & Hf).
      split; [rewrite Hkeep, Hk; reflexivity |]. split; [lia |]. split.
      * eapply List.Forall_impl; [| exact Hd].
        intros x (g & Hg & Hj & Hs). exists g.
        split; [right; exact Hg |]. split; [exact Hj |].
        eapply stale_wider; [| | exact Hs]; lia.
      * cbn [json_files List.filter fst]. rewrite Ejson. constructor.
        -- exists e, (n + 2)%nat. repeat split; auto; lia.
        -- eapply List.Forall_impl; [| exact Hf].
           intros x Hx. eapply fresh_entry_wider; [| | exact Hx]; lia.
    + specialize (IH (n + 3)%nat Hnd). specialize (Hdel (n + 3)%nat).
      destruct (scan_result w (n + 3) d) as [[k del] n'].
      cbn [fst snd] in *. destruct IH as (Hk & Hn & Hd & Hf).
      split; [rewrite Hdrop; exact Hk |]. split; [lia |]. split.
      * constructor.
        -- exists f. split; [left; reflexivity |]. split; [exact Ejson |].
           left. exact Ec.
        -- eapply List.Forall_impl; [| exact Hd].
           intros x (g & Hg & Hj & Hs). exists g.
           split; [right; exact Hg |]. split; [exact Hj |].
           eapply stale_wider; [| | exact Hs]; lia.
      * eapply List.Forall_impl; [| exact Hf].
        intros x Hx. eapply fresh_entry_wider; [| | exact Hx]; lia.
    + specialize (IH n Hnd). specialize (Hkeep n).
      destruct (scan_result w n d) as [[k del] n'].
      cbn [fst snd] in *. destruct IH as (Hk & Hn & Hd & Hf).
      split; [rewrite Hkeep, Hk; reflexivity |]. split; [lia |]. split.
      * eapply List.Forall_impl; [| exact Hd].
        intros x (g & Hg & Hj & Hs). exists g.
        split; [right; exact Hg |]. split; [exact Hj |]. exact Hs.
      * cbn [json_files List.filter fst]. rewrite Ejson. exact Hf.
Qed.

(** *** The second loop *)

Lemma find_file_remove_ne (p q : string) (d : Directory) :
  p <> q -> find_file p (remove_file q d) = find_file p d.
Proof.
  intros Hne. unfold remove_file.
  induction d as [| [n f] d IH]; simpl; [reflexivity |].
  destruct (String.eqb_spec n q) as [-> | Hnq]; simpl.
  - destruct (String.eqb_spec q p) as [-> | _]; [contradiction | exact IH].
  - destruct (String.eqb n p); [reflexivity | exact IH].
Qed.

Lemma drop_names_nil (d : Directory) : drop_names [] d = d.
Proof.
  unfold drop_names. induction d as [| nf d IH]; [reflexivity |].
  simpl. f_equal. exact IH.
Qed.

Lemma drop_names_cons (q : string) (names : list string) (d : Directory) :
  drop_names (q :: names) d = drop_names names (remove_file q d).
Proof.
  unfold drop_names, remove_file.
  induction d as [| [n f] d IH]; [reflexivity |].
  simpl. destruct (String.eqb n q); simpl; [exact IH |].
  destruct (existsb (String.eqb n) names); simpl; [exact IH |].
  f_equal. exact IH.
Qed.

Lemma cleanup_evict_run (fileInfos : list FileInfo) :
  forall (d : Directory) (n im : nat) (ul : list string) (ts : Z),
    List.NoDup (map path fileInfos) ->
    Forall (fun i => is_Some (find_file (path i) d)) fileInfos ->
    cleanup_evict w fileInfos ts (mkState (Some d) n im ul)
    = (Ok (ts - info_size (evict_result fileInfos ts).1,
           (evict_result fileInfos ts).2),
       mkState (Some (drop_names (map path (evict_result fileInfos ts).1) d))
         (n + length (evict_result fileInfos ts).1) im
         (ul ++ map path (evict_result fileInfos ts).1)).
Proof.
  induction fileInfos as [| oldest rest IH]; intros d n im ul ts Hnd Hex.
  - cbn. rewrite drop_names_nil, app_nil_r, Z.sub_0_r, Nat.add_0_r.
    reflexivity.
  - cbn [cleanup_evict evict_result].
    destruct (over_limits ts (oldest :: rest)) eqn:Eover.
    + apply Forall_cons_1 in Hex as [[f Hf] Hex].
      simpl in Hnd. apply List.NoDup_cons_iff in Hnd as [Hnotin Hnd].
      step. rewrite (unlinkSync_ok (path oldest) f) by exact Hf. step.
      rewrite IH; [| exact Hnd |].
      * destruct (evict_result rest (ts - Z.of_N (fi_size oldest)))
          as [ev k].
        cbn [fst snd info_size foldr map length].
        fold (info_size ev). rewrite drop_names_cons, <- app_assoc.
        cbn [app].
        replace (ts - Z.of_N (fi_size oldest) - info_size ev)
          with (ts - (Z.of_N (fi_size oldest) + info_size ev)) by lia.
        replace (S n + length ev)%nat with (n + S (length ev))%nat by lia.
        reflexivity.
      * eapply List.Forall_impl; [| apply Forall_and; split;
                                     [exact Hex | apply Forall_forall; intros i Hi; exact Hi]].
        intros i [Hi Hin]. rewrite find_file_remove_ne; [exact Hi |].
        intros E. apply Hnotin. rewrite <- E. apply in_map.
        apply list_elem_of_In. exact Hin.
    + cbn [fst snd info_size foldr map length app].
      rewrite drop_names_nil, app_nil_r, Z.sub_0_r, Nat.add_0_r.
      reflexivity.
Qed.

End Reliable.

(** *** What the second loop shifts off and what it leaves *)



(** *** Sorting by timestamp *)

Lemma insert_by_timestamp_perm (x : FileInfo) (l : list FileInfo) :
  Permutation (insert_by_timestamp x l) (x :: l).
Proof.
  induction l as [| y l IH]; simpl; [reflexivity |].
  destruct (fi_timestamp x <=? fi_timestamp y); [reflexivity |].
  rewrite IH. apply perm_swap.
Qed.

Lemma sort_by_timestamp_perm (l : list FileInfo) :
  Permutation (sort_by_timestamp l) l.
Proof.
  induction l as [| x l IH]; simpl; [reflexivity |].
  rewrite insert_by_timestamp_perm, IH. reflexivity.
Qed.



(** *** Sizes and filters up to the order of the list *)













Lemma NoDup_names_filter (f : string * File -> bool) (d : Directory) :
  List.NoDup (map fst d) -> List.NoDup (map fst (List.filter f d)).
Proof.
  induction d as [| nf d IH]; simpl; intros H; [constructor |].
  apply List.NoDup_cons_iff in H as [Hnotin H].
  destruct (f nf); simpl; [| auto].
  constructor; [| auto]. intros Hin. apply Hnotin.
  apply in_map_iff in Hin as (x & Hx & Hin). apply in_map_iff.
  exists x. split; [exact Hx |]. apply filter_In in Hin. tauto.
Qed.

Lemma find_file_In (nm : string) (f : File) (d : Directory) :
  List.NoDup (map fst d) -> In (nm, f) d -> find_file nm d = Some f.
Proof.
  induction d as [| [n g] d IH]; simpl; intros Hnd Hin; [contradiction |].
  apply List.NoDup_cons_iff in Hnd as [Hnotin Hnd].
  destruct Hin as [[= -> ->] | Hin].
  - rewrite String.eqb_refl. reflexivity.
  - destruct (String.eqb_spec n nm) as [-> | Hne]; [| auto].
    exfalso. apply Hnotin. apply in_map_iff. exists (nm, f). auto.
Qed.

Lemma evict_result_not_over (fileInfos : list FileInfo) (ts : Z) :
  over_limits ts fileInfos = false -> evict_result fileInfos ts = ([], fileInfos).
Proof.
  destruct fileInfos as [| x l]; [reflexivity |]. cbn [evict_result].
  intros ->. reflexivity.
Qed.

Lemma over_limits_perm (ts : Z) (a b : list FileInfo) :
  Permutation a b -> over_limits ts a = over_limits ts b.
Proof.
  intros H. unfold over_limits. rewrite (Permutation_length H). reflexivity.
Qed.


(** *** The whole sweep *)

Lemma cleanup_run (w : World) (d : Directory) (n im : nat) (ul : list string) :
  reliable w ->
  List.NoDup (map fst d) ->
  let d1 := (scan_result w (S n) d).1.1 in
  let ev :=
    (evict_result (sort_by_timestamp (map entry_info (json_files d1)))
       (total_size (json_files d1))).1 in
  cleanup w (mkState (Some d) n im ul)
  = (Ok tt,
     mkState (Some (drop_names (map path ev) d1))
       ((scan_result w (S n) d).2 + length ev) im
       (ul ++ (scan_result w (S n) d).1.2 ++ map path ev)).
Proof.
  intros Hw Hnd d1 ev.
  destruct (scan_result_facts w d (S n) Hnd) as (Hd1 & _ & _ & _).
  fold d1 in Hd1.
  unfold cleanup, cleanup_try, readdirSync. step. rewrite io_ok by exact Hw.
  cbn [dir mbind option_bind]. step.
  change (Some d) with (Some ([] ++ d)).
  rewrite (cleanup_scan_run w Hw d []) by exact Hnd.
  fold d1. cbn [app fst snd]. rewrite Z.add_0_l.
  set (infos := map entry_info (json_files d1)) in *.
  set (ts := total_size (json_files d1)) in *.
  assert (Hover : over_limits ts infos
                  = over_limits ts (sort_by_timestamp infos)).
  { apply over_limits_perm. symmetry. apply sort_by_timestamp_perm. }
  destruct (over_limits ts infos) eqn:Eover.
  - rewrite (cleanup_evict_run w Hw).
    + fold ev. rewrite <- app_assoc. reflexivity.
    + eapply Permutation_NoDup.
      * apply Permutation_map. symmetry. apply sort_by_timestamp_perm.
      * subst infos. rewrite map_map. cbn [entry_info path].
        change (map (fun x : string * File => x.1) (json_files d1))
          with (map fst (json_files d1)).
        apply NoDup_names_filter. rewrite Hd1. apply NoDup_names_filter.
        exact Hnd.
    + apply List.Forall_forall. intros i Hi.
      apply (Permutation_in _ (sort_by_timestamp_perm infos)) in Hi.
      subst infos. apply in_map_iff in Hi as ([nm f] & <- & Hin).
      cbn [entry_info path fst]. exists f. apply find_file_In.
      * rewrite Hd1. apply NoDup_names_filter. exact Hnd.
      * apply filter_In in Hin. tauto.
  - subst ev. rewrite evict_result_not_over by (symmetry; exact Hover).
    cbn [fst map length]. rewrite drop_names_nil, Nat.add_0_r, !app_nil_r.
    reflexivity.
Qed.





(** The sweep on the example: the expired entry and the unreadable file
    go first, then the two oldest entries; the newest entry and the file
    that is not an entry stay. *)
Example cleanup_crowded :
  exists s',
    cleanup quiet (mkState (Some crowded) 0 0 []) = (Ok tt, s') /\
    map fst <$> dir s' = Some ["a.json"; "notes.txt"] /\
    unlinked s' = ["c.json"; "d.json"; "b.json"; "e.json"].
Proof. eexists. split; [reflexivity |]. split; reflexivity. Qed.

End SweepFacts.

(** ** More on the resolver *)
Module ResolverMore.

Import Regex RegexFacts RegexMore Resolver ResolverFacts ResolverWorlds.
Local Open Scope resolver_scope.

(** *** Numeric ids *)

Lemma Matches_Star_Cls (p : ascii -> bool) (l : list ascii) :
  Matches (Star (Cls p)) l <-> Forall (fun c => p c = true) l.
Proof.
  split.
  - remember (Star (Cls p)) as r eqn:E. induction 1; try discriminate.
    + constructor.
    + injection E as ->. inversion H; subst. simpl. constructor; auto.
  - induction 1 as [| c l Hc Hl IH]; [constructor |].
    change (c :: l) with ([c] ++ l). constructor; [constructor; exact Hc | exact IH].
Qed.

Lemma Matches_Plus_Cls (p : ascii -> bool) (l : list ascii) :
  Matches (Plus (Cls p)) l <-> l <> [] /\ Forall (fun c => p c = true) l.
Proof.
  split.
  - intros H. inversion H as [| | r1 r2 l1 l2 H1 H2 | | | |]; subst.
    inversion H1; subst. split; [discriminate |].
    constructor; [assumption |]. apply Matches_Star_Cls. assumption.
  - intros [Hne Hall]. destruct l as [| c l]; [contradiction |].
    apply Forall_cons_1 in Hall as [Hc Hl].
    change (c :: l) with ([c] ++ l). constructor; [constructor; exact Hc |].
    apply Matches_Star_Cls. exact Hl.
Qed.

Lemma isNumericId_iff (value : string) :
  isNumericId value = true <->
  JS.chars value <> [] /\ Forall (fun c => JS.is_digit c = true) (JS.chars value).
Proof.
  unfold isNumericId, test. rewrite accepts_Matches. apply Matches_Plus_Cls.
Qed.

(** A numeric id is a non-empty string of decimal digits: no sign, no
    space, no fraction. *)
Theorem isNumericId_digits (value : string) :
  isNumericId value = true <->
  JS.chars value <> [] /\ Forall (fun c => JS.is_digit c = true) (JS.chars value).
Proof. exact (isNumericId_iff value). Qed.

(** *** Project and deal numbers *)

Lemma chars_of_chars (l : list ascii) : JS.chars (JS.of_chars l) = l.
Proof. apply list_ascii_of_string_of_list_ascii. Qed.

Lemma of_chars_chars (s : string) : JS.of_chars (JS.chars s) = s.
Proof. apply string_of_list_ascii_of_string. Qed.

Lemma of_chars_app (a b : list ascii) :
  JS.of_chars (a ++ b) = JS.of_chars a +:+ JS.of_chars b.
Proof.
  induction a as [| c a IH]; simpl; [reflexivity |].
  unfold JS.of_chars in *. simpl. rewrite IH. reflexivity.
Qed.

Lemma chars_app (a b : string) : JS.chars (a +:+ b) = JS.chars a ++ JS.chars b.
Proof.
  rewrite <- (of_chars_chars a), <- (of_chars_chars b) at 1.
  rewrite <- of_chars_app. apply chars_of_chars.
Qed.

Lemma upper_of_letter :
  Forall
    (fun c : ascii =>
       forall x, Ascii.eqb (JS.lower_char x) (JS.lower_char c) = true ->
                 JS.upper_char x = c)
    (JS.chars "PRJDEAL").
Proof.
  repeat constructor; intros x; destruct x as [[] [] [] [] [] [] [] []];
    vm_compute; intros H; try discriminate H; reflexivity.
Qed.

Lemma upper_of_word (word : list ascii) :
  Forall (fun c => In c (JS.chars "PRJDEAL")) word ->
  forall l, Matches (Wordi word) l -> map JS.upper_char l = word.
Proof.
  induction 1 as [| c word Hc Hword IH]; intros l H; simpl in H.
  - inversion H. reflexivity.
  - inversion H as [| | r1 r2 l1 l2 H1 H2 | | | |]; subst.
    inversion H1 as [| p x Hx | | | | |]; subst. simpl. f_equal.
    + pose proof upper_of_letter as Hup. rewrite List.Forall_forall in Hup.
      apply (Hup c Hc x Hx).
    + apply IH. exact H2.
Qed.

Lemma upper_of_digits (l : list ascii) :
  Forall (fun c => JS.is_digit c = true) l -> map JS.upper_char l = l.
Proof.
  induction 1 as [| c l Hc Hl IH]; simpl; [reflexivity |]. f_equal; [| exact IH].
  destruct c as [[] [] [] [] [] [] [] []]; vm_compute in Hc;
    try discriminate Hc; reflexivity.
Qed.

(** A match of [(w1|w2)-\d+] under the [i] flag, in upper case. *)
Lemma number_shape (w1 w2 : list ascii) (l : list ascii) :
  Forall (fun c => In c (JS.chars "PRJDEAL")) w1 ->
  Forall (fun c => In c (JS.chars "PRJDEAL")) w2 ->
  Matches (Cat (Alt (Wordi w1) (Wordi w2))
             (Cat (Chr "-") (Plus (Cls JS.is_digit)))) l ->
  exists prefix digits,
    l = prefix ++ "-"%char :: digits /\
    digits <> [] /\ Forall (fun c => JS.is_digit c = true) digits /\
    (map JS.upper_char prefix = w1 \/ map JS.upper_char prefix = w2) /\
    map JS.upper_char l = map JS.upper_char prefix ++ "-"%char :: digits.
Proof.
  intros H1 H2 H.
  inversion H as [| | r1 r2 prefix rest Hp Hr | | | |]; subst.
  inversion Hr as [| | r1 r2 dash digits Hd Hdig | | | |]; subst.
  inversion Hd as [| p x Hx | | | | |]; subst.
  apply Ascii.eqb_eq in Hx. subst x.
  apply Matches_Plus_Cls in Hdig as [Hne Hall].
  exists prefix, digits. split; [reflexivity |]. split; [exact Hne |].
  split; [exact Hall |]. split.
  - inversion Hp; subst; [left | right]; apply upper_of_word; assumption.
  - rewrite map_app. simpl. rewrite (upper_of_digits digits Hall). reflexivity.
Qed.

Lemma letters_ok (word : string) :
  forallb (fun c => existsb (Ascii.eqb c) (JS.chars "PRJDEAL")) (JS.chars word)
  = true ->
  Forall (fun c => In c (JS.chars "PRJDEAL")) (JS.chars word).
Proof.
  intros H. apply List.Forall_forall. intros c Hc.
  rewrite forallb_forall in H. specialize (H c Hc).
  apply existsb_exists in H as (x & Hx & E). apply Ascii.eqb_eq in E.
  subst x. exact Hx.
Qed.

(** Whatever the letter case of a project or deal number, and whichever
    of the two prefixes it has, the first request asks for the number in
    one spelling: [PRJ-] or [D-] followed by the digits of the query. *)
Theorem numbers_are_normalized (query : string) :
  (test PROJECT_NUMBER_PATTERN query = true ->
   exists prefix digits,
     query = prefix +:+ "-" +:+ digits /\ isNumericId digits = true /\
     forall w t,
     exists out rest,
       resolveProjectByNumber query w t =
       (out,
        t ++ ApiCall (mkRequest Projects
                        [("project_number", "PRJ-" +:+ digits)] 1) :: rest)) /\
  (test DEAL_NUMBER_PATTERN query = true ->
   exists prefix digits,
     query = prefix +:+ "-" +:+ digits /\ isNumericId digits = true /\
     forall w t,
     exists out rest,
       resolveDealByNumber query w t =
       (out,
        t ++ ApiCall (mkRequest Deals [("deal_number", "D-" +:+ digits)] 1)
          :: rest)).
Proof.
  split; intros H; apply accepts_Matches in H;
    apply number_shape in H
      as (prefix & digits & Hl & Hne & Hall & Hup & Hmap);
    try (apply letters_ok; reflexivity);
    exists (JS.of_chars prefix), (JS.of_chars digits).
  - split.
    { rewrite <- (of_chars_chars query), Hl, of_chars_app. reflexivity. }
    split.
    { apply isNumericId_iff. rewrite chars_of_chars. auto. }
    assert (Hnorm : replace_prefix "P-" "PRJ-" (JS.toUpperCase query)
                    = "PRJ-" +:+ JS.of_chars digits).
    { unfold replace_prefix, JS.startsWith, JS.toUpperCase.
      rewrite chars_of_chars, Hmap.
      destruct Hup as [-> | ->]; cbn -[JS.of_chars String.append];
        reflexivity. }
    intros w t. unfold resolveProjectByNumber. rewrite Hnorm.
    unfold bind, getProjects, api_get.
    destruct (api_answer w t _) as [[| p ps] |].
    + destruct (api_answer w _ _) as [[| p ps] |];
        eexists _, _; rewrite <- app_assoc; reflexivity.
    + eexists _, []. reflexivity.
    + eexists _, []. reflexivity.
  - split.
    { rewrite <- (of_chars_chars query), Hl, of_chars_app. reflexivity. }
    split.
    { apply isNumericId_iff. rewrite chars_of_chars. auto. }
    assert (Hnorm : replace_prefix "DEAL-" "D-" (JS.toUpperCase query)
                    = "D-" +:+ JS.of_chars digits).
    { unfold replace_prefix, JS.startsWith, JS.toUpperCase.
      rewrite chars_of_chars, Hmap.
      destruct Hup as [-> | ->]; cbn -[JS.of_chars String.append];
        reflexivity. }
    intros w t. unfold resolveDealByNumber. rewrite Hnorm.
    unfold bind, getDeals, api_get.
    destruct (api_answer w t _) as [[| p ps] |].
    + destruct (api_answer w _ _) as [[| p ps] |];
        eexists _, _; rewrite <- app_assoc; reflexivity.
    + eexists _, []. reflexivity.
    + eexists _, []. reflexivity.
Qed.

Lemma numbers_are_normalized_witness :
  exists prefix digits,
    "p-12" = prefix +:+ "-" +:+ digits /\ isNumericId digits = true /\
    forall w t,
    exists out rest,
      resolveProjectByNumber "p-12" w t =
      (out,
       t ++ ApiCall (mkRequest Projects
                       [("project_number", "PRJ-" +:+ digits)] 1) :: rest).
Proof. apply (proj1 (numbers_are_normalized "p-12")). reflexivity. Defined.

(** *** What a run of [resolve] sends *)

Lemma lookup_events (w : World) (t t' : Trace) (type : ResolvableResourceType)
    (pattern : option string) (query : string) (projectId : option string)
    (out : Outcome (list ResolveResult)) :
  lookup type pattern query projectId w t = (out, t') ->
  exists calls,
    t' = t ++ map ApiCall calls /\ (1 <= length calls <= 2)%nat.
Proof.
  unfold lookup. intros H.
  destruct type;
    repeat match type of H with
      | context [if ?b then _ else _] => destruct b
      end;
    unfold resolvePersonByEmail, resolvePersonByName, resolveProjectByNumber,
      resolveProjectByName, resolveCompanyByName, resolveDealByNumber,
      resolveDealByName, resolveServiceByName, getPeople, getProjects,
      getCompanies, getDeals, getServices, bind, ret, api_get in H;
    cbv beta iota in H.
  all: repeat api_step H.
  all: injection H as _ <-.
  all: first
         [ eexists [_]; split; [reflexivity | simpl; lia]
         | eexists [_; _]; split;
           [simpl; rewrite <- app_assoc; reflexivity | simpl; lia] ].
Qed.

(** A run of [resolve] reads the resolve cache at most once, then sends at
    most two requests to the API, then writes the cache at most once, and
    does nothing else; without a tenant it leaves the cache alone, and for
    a numeric id it does nothing at all. *)
Theorem resolve_events (w : World) (t t' : Trace) (query : string)
    (options : ResolveOptions) (out : Outcome (list ResolveResult)) :
  resolve query options w t = (out, t') ->
  exists reads calls writes,
    t' = t ++ reads ++ map ApiCall calls ++ writes /\
    (reads = [] \/ exists orgId key, reads = [CacheGet orgId key]) /\
    (length calls <= 2)%nat /\
    (writes = [] \/
     exists orgId key value ttl,
       writes = [CacheSet orgId key value "/resolve" ttl]) /\
    (JS.truthy (opt_orgId options) = None -> reads = [] /\ writes = []) /\
    (isNumericId query = true -> reads = [] /\ calls = [] /\ writes = []).
Proof.
  unfold resolve, bind. destruct (isNumericId query) eqn:Enum.
  { intros [= _ <-]. exists [], [], []. rewrite !app_nil_r.
    repeat split; auto; simpl; lia. }
  assert (Hcache : exists c reads,
             try_cache query options w t = (Ok c, t ++ reads) /\
             (reads = [] \/ exists orgId key, reads = [CacheGet orgId key]) /\
             (JS.truthy (opt_orgId options) = None -> reads = [])).
  { unfold try_cache. destruct (JS.truthy (opt_orgId options)) as [orgId |].
    - destruct (cache_type query options) as [ty |].
      + rewrite getCachedResolve_run. eexists _, [_].
        split; [reflexivity |]. split; [right; eauto | discriminate].
      + exists None, []. rewrite app_nil_r. repeat split; auto.
    - exists None, []. rewrite app_nil_r. repeat split; auto. }
  destruct Hcache as (c & reads & -> & Hreads & Hnoorg).
  destruct c as [c |].
  { intros [= _ <-]. exists reads, [], []. rewrite !app_nil_r.
    repeat split; auto; try discriminate; simpl; lia. }
  destruct (determine_type query options) as [[type pattern] |].
  2: { intros [= _ <-]. exists reads, [], []. rewrite !app_nil_r.
       repeat split; auto; try discriminate; simpl; lia. }
  destruct (lookup type pattern query (opt_projectId options) w (t ++ reads))
    as [lout t1] eqn:El.
  destruct (lookup_events _ _ _ _ _ _ _ _ El) as (calls & -> & Hlen).
  destruct lout as [results | e].
  2: { intros [= _ <-]. exists reads, calls, []. rewrite !app_nil_r, <- app_assoc.
       repeat split; auto; try discriminate; lia. }
  unfold finish. destruct results as [| r0 rest].
  { intros [= _ <-]. exists reads, calls, []. rewrite !app_nil_r, <- app_assoc.
    repeat split; auto; try discriminate; lia. }
  unfold bind.
  destruct (JS.truthy (opt_orgId options)) as [orgId |] eqn:Eorg.
  - destruct rest as [| r1 rest].
    + rewrite setCachedResolve_run. unfold ret.
      destruct (opt_first options && _); intros [= _ <-];
        eexists reads, calls, [_]; rewrite <- !app_assoc;
        (split; [reflexivity |]); repeat split; eauto 10; try discriminate; lia.
    + unfold ret. destruct (opt_first options && _); intros [= _ <-];
        exists reads, calls, []; rewrite !app_nil_r, <- app_assoc;
        repeat split; auto; try discriminate; lia.
  - unfold ret. destruct (opt_first options && _); intros [= _ <-];
      exists reads, calls, []; rewrite !app_nil_r, <- app_assoc;
      repeat split; auto; try discriminate; lia.
Qed.

Lemma resolve_events_witness :
  exists reads calls writes,
    [CacheGet "42" "resolve:42:person:user@example.com";
     ApiCall (mkRequest People [("email", "user@example.com")] 1);
     CacheSet "42" "resolve:42:person:user@example.com"
       (mkResult "500521" person "John Doe" "user@example.com" true)
       "/resolve" 86400000]
    = [] ++ reads ++ map ApiCall calls ++ writes /\
    (length calls <= 2)%nat.
Proof.
  destruct (resolve_events people_api [] _ "user@example.com"
              (mkOptions None None false (Some "42")) _ eq_refl)
    as (reads & calls & writes & H1 & _ & H2 & _).
  exists reads, calls, writes. split; assumption.
Defined.

(** *** What [resolve] returns *)

Lemma first_gives_one (w : World) (t t' : Trace) (query : string)
    (options : ResolveOptions) (results : list ResolveResult) :
  opt_first options = true ->
  resolve query options w t = (Ok results, t') ->
  exists r, results = [r].
Proof.
  intros Hfirst. unfold resolve, bind.
  destruct (isNumericId query); [intros [= <- _]; eauto |].
  destruct (try_cache_ok w t query options) as (c & t1 & ->).
  destruct c as [c |]; [intros [= <- _]; eauto |].
  destruct (determine_type query options) as [[type pattern] |];
    [| discriminate].
  destruct (lookup type pattern query (opt_projectId options) w t1)
    as [[rs | e] t2]; [| discriminate].
  destruct rs as [| r0 rest]; [discriminate |].
  destruct (finish_cons w t2 type query options r0 rest) as (t3 & ->).
  rewrite Hfirst. cbn [andb]. destruct rest as [| r1 rest]; cbn.
  - intros [= <- _]. eauto.
  - intros [= <- _]. eauto.
Qed.

(** With [first], a run of [resolve] that returns, returns exactly one
    result. *)
Theorem resolve_first_single (w : World) (t t' : Trace) (query : string)
    (options : ResolveOptions) (results : list ResolveResult) :
  opt_first options = true ->
  resolve query options w t = (Ok results, t') ->
  exists r, results = [r].
Proof. apply first_gives_one. Qed.

Lemma resolve_first_single_witness :
  exists r,
    [mkResult "500521" person "John Doe" "Doe" false] = [r].
Proof.
  apply (resolve_first_single people_api [] _ "Doe"
           (mkOptions (Some person) None true None) _ eq_refl eq_refl).
Defined.

(** Without a tenant (so without the resolve cache), every result of
    [resolve] carries the query it was asked, and the type it was asked
    for when one was given. *)
Theorem resolve_results_tagged (w : World) (t t' : Trace) (query : string)
    (options : ResolveOptions) (results : list ResolveResult) :
  JS.truthy (opt_orgId options) = None ->
  resolve query options w t = (Ok results, t') ->
  Forall (fun r => rr_query r = query) results /\
  (forall type, opt_type options = Some type ->
                Forall (fun r => rr_type r = type) results).
Proof.
  intros Horg. unfold resolve, bind, try_cache. rewrite Horg. unfold ret.
  destruct (isNumericId query).
  { intros [= <- _]. split; [repeat constructor |].
    intros type ->. repeat constructor. }
  destruct (determine_type query options) as [[type pattern] |] eqn:Ed;
    [| discriminate].
  destruct (lookup type pattern query (opt_projectId options) w t)
    as [[rs | e] t2] eqn:El; [| discriminate].
  destruct (lookup_run _ _ _ _ _ _ _ _ El) as (Hres & _).
  assert (Hty : forall ty, opt_type options = Some ty -> ty = type).
  { intros ty E. unfold determine_type in Ed. rewrite E in Ed.
    injection Ed as -> _. reflexivity. }
  destruct rs as [| r0 rest]; [discriminate |].
  destruct (finish_cons w t2 type query options r0 rest) as (t3 & ->).
  assert (Hall : Forall (fun r => rr_query r = query) (r0 :: rest) /\
                 Forall (fun r => rr_type r = type) (r0 :: rest)).
  { split; eapply List.Forall_impl; try exact Hres; cbn; tauto. }
  destruct Hall as [Hq Ht].
  destruct (opt_first options && _); intros [= <- _].
  - apply Forall_cons_1 in Hq as [Hq _]. apply Forall_cons_1 in Ht as [Ht _].
    split; [repeat constructor; exact Hq |].
    intros ty E. rewrite (Hty ty E). repeat constructor. exact Ht.
  - split; [exact Hq |]. intros ty E. rewrite (Hty ty E). exact Ht.
Qed.

Lemma resolve_results_tagged_witness :
  Forall (fun r => rr_query r = "Doe")
    [mkResult "500521" person "John Doe" "Doe" false;
     mkResult "500522" person "Jane Doe" "Doe" false].
Proof.
  apply (resolve_results_tagged people_api [] _ "Doe"
           (mkOptions (Some person) None false None) _ eq_refl eq_refl).
Defined.

Lemma lookup_exact_alone (w : World) (t t' : Trace)
    (type : ResolvableResourceType) (pattern : option string)
    (query : string) (projectId : option string)
    (results : list ResolveResult) :
  type <> service ->
  lookup type pattern query projectId w t = (Ok results, t') ->
  (length results <= 1)%nat \/ Forall (fun r => rr_exact r = false) results.
Proof.
  unfold lookup. intros Hty H.
  destruct type; try contradiction;
    repeat match type of H with
      | context [if ?b then _ else _] => destruct b
      end;
    unfold resolvePersonByEmail, resolvePersonByName, resolveProjectByNumber,
      resolveProjectByName, resolveCompanyByName, resolveDealByNumber,
      resolveDealByName, getPeople, getProjects,
      getCompanies, getDeals, bind, ret, api_get in H;
    cbv beta iota in H.
  all: repeat api_step H.
  all: try discriminate H.
  all: injection H as <- _.
  all: first
         [ left; unfold to_list; simpl; lia
         | right; apply List.Forall_forall; intros res Hin;
           match type of Hin with
           | In _ (map _ _) =>
               apply in_map_iff in Hin; destruct Hin as (? & <- & _)
           | In _ [] => destruct Hin
           | In _ (_ :: _) =>
               destruct Hin as [<- | Hin];
               [| apply in_map_iff in Hin; destruct Hin as (? & <- & _)]
           end; reflexivity ].
Qed.

(** People, projects, companies and deals: a result marked exact is never
    one of several.  (Without a tenant, so that the result is not read
    from the cache.) *)
Theorem exact_result_is_alone (w : World) (t t' : Trace) (query : string)
    (options : ResolveOptions) (results : list ResolveResult) :
  JS.truthy (opt_orgId options) = None ->
  opt_type options <> Some service ->
  resolve query options w t = (Ok results, t') ->
  forall r, In r results -> rr_exact r = true -> results = [r].
Proof.
  intros Horg Hns. unfold resolve, bind, try_cache. rewrite Horg. unfold ret.
  destruct (isNumericId query).
  { intros [= <- _] r [<- | []] _. reflexivity. }
  destruct (determine_type query options) as [[type pattern] |] eqn:Ed;
    [| discriminate].
  assert (Hty : type <> service).
  { intros ->. unfold determine_type in Ed.
    destruct (opt_type options) as [ty |].
    - injection Ed as -> _. contradiction.
    - unfold detectResourceType in Ed.
      repeat match type of Ed with
        | context [if ?b then _ else _] => destruct b
        end; discriminate. }
  destruct (lookup type pattern query (opt_projectId options) w t)
    as [[rs | e] t2] eqn:El; [| discriminate].
  pose proof (lookup_exact_alone _ _ _ _ _ _ _ _ Hty El) as Hex.
  destruct rs as [| r0 rest]; [discriminate |].
  destruct (finish_cons w t2 type query options r0 rest) as (t3 & ->).
  destruct Hex as [Hone | Hnone].
  - destruct rest; [| simpl in Hone; lia].
    rewrite andb_false_r. intros [= <- _] r [<- | []] _. reflexivity.
  - destruct (opt_first options && _); intros [= <- _] r Hin Hexact.
    + destruct Hin as [<- | []]. reflexivity.
    + rewrite List.Forall_forall in Hnone. rewrite (Hnone r Hin) in Hexact.
      discriminate.
Qed.

Lemma exact_result_is_alone_witness :
  fst (resolve "user@example.com" (mkOptions None None false None) people_api [])
  = Ok [mkResult "500521" person "John Doe" "user@example.com" true] /\
  [mkResult "500521" person "John Doe" "user@example.com" true]
  = [mkResult "500521" person "John Doe" "user@example.com" true].
Proof.
  split; [reflexivity |].
  apply (exact_result_is_alone people_api [] _ "user@example.com"
           (mkOptions None None false None) _ eq_refl
           ltac:(discriminate) eq_refl
           (mkResult "500521" person "John Doe" "user@example.com" true)
           (or_introl eq_refl) eq_refl).
Defined.

(** *** Filter values *)

(** [resolveFilterValue] hands a numeric value back without sending
    anything; for any other value it returns the id of the one result of
    [resolve] (called with the type and with [first]), and throws exactly
    what [resolve] throws: its own not-found error is never raised. *)
Theorem resolveFilterValue_cases (w : World) (t : Trace) (value : string)
    (type : ResolvableResourceType) (options : ResolveOptions) :
  (isNumericId value = true ->
   resolveFilterValue value type options w t = (Ok value, t)) /\
  (isNumericId value = false ->
   (exists r t',
       resolve value (with_type_first options type) w t = (Ok [r], t') /\
       resolveFilterValue value type options w t = (Ok (rr_id r), t')) \/
   (exists e t',
       resolve value (with_type_first options type) w t = (Throw e, t') /\
       resolveFilterValue value type options w t = (Throw e, t'))).
Proof.
  unfold resolveFilterValue. split; intros ->; [reflexivity |].
  unfold bind.
  destruct (resolve value (with_type_first options type) w t)
    as [[rs | e] t'] eqn:E.
  - destruct (first_gives_one w t t' value (with_type_first options type)
                rs eq_refl E) as (r & ->).
    left. exists r, t'. split; reflexivity.
  - right. exists e, t'. split; reflexivity.
Qed.

Lemma resolveFilterValue_cases_witness :
  resolveFilterValue "777332" project (mkOptions None None false None)
    no_api [] = (Ok "777332", []).
Proof.
  apply (proj1 (resolveFilterValue_cases no_api [] "777332" project
                  (mkOptions None None false None))).
  reflexivity.
Defined.

(** *** Filter maps *)

(** For filters with distinct keys [resolveFilterIds] always returns.
    The returned [resolved] object has exactly the keys of the filters,
    [__proto__] apart, which is never stored.  A key with an entry in
    [metadata] is a key for which [typeMapping[key]] gave something and
    whose value was not numeric: the entry records that value as [input],
    and the id it records is the value of the key in [resolved].  A key
    without an entry keeps its value.  [metadata] has no other keys; its
    prototype is replaced only by the entry of a resolved filter
    [__proto__]. *)
Theorem resolveFilterIds_result (w : World) (t : Trace)
    (inherited_text : string -> string) (filters : list (string * string))
    (typeMapping : gmap string ResolvableResourceType) (options : ResolveOptions) :
  List.NoDup (map fst filters) ->
  exists res t',
    resolveFilterIds inherited_text filters typeMapping options w t
    = (Ok res, t') /\
    (forall k, is_Some (resolved res !! k) <->
               In k (map fst filters) /\ k <> "__proto__") /\
    (forall key value e,
        In (key, value) filters ->
        metadata res !! key = Some e ->
        is_Some (typeMapping_at typeMapping key) /\ isNumericId value = false /\
        key <> "__proto__" /\
        input e = value /\ resolved res !! key = Some (entry_id e)) /\
    (forall key value,
        In (key, value) filters ->
        metadata res !! key = None ->
        key <> "__proto__" ->
        resolved res !! key = Some value) /\
    (forall k, is_Some (metadata res !! k) ->
               In k (map fst filters) /\ k <> "__proto__") /\
    (forall e, metadata_proto res = Some e ->
               exists value,
                 In ("__proto__", value) filters /\
                 is_Some (typeMapping_at typeMapping "__proto__") /\
                 isNumericId value = false /\ input e = value).
Proof.
  intros Hnd. unfold resolveFilterIds.
  destruct (resolveFilterIds_loop_run inherited_text typeMapping options w
              filters Hnd (mkResolved ∅ ∅ None) t)
    as (res & t' & Hrun & Hout & Hproto & Hin).
  cbn [resolved metadata metadata_proto] in *.
  assert (Hkey : forall key value,
            In (key, value) filters ->
            (key = "__proto__" /\ resolved res !! key = None /\
             metadata res !! key = None) \/
            (key <> "__proto__" /\ resolved res !! key = Some value /\
             metadata res !! key = None) \/
            (key <> "__proto__" /\ isNumericId value = false /\
             is_Some (typeMapping_at typeMapping key) /\
             exists e, metadata res !! key = Some e /\ input e = value /\
                       resolved res !! key = Some (entry_id e))).
  { intros key value Hmem.
    destruct (Hin key value Hmem)
      as [(E1 & E2 & _) | (type & e & Hty & Hnum & Hi & Hres)];
      destruct (String.eqb_spec key "__proto__") as [-> | Hne].
    - left. rewrite E1, E2, !lookup_empty. auto.
    - right. left. rewrite E1, E2, lookup_empty. auto.
    - left. destruct Hres as (E1 & E2 & _).
      rewrite E1, E2, !lookup_empty. auto.
    - right. right. destruct Hres as (E1 & E2).
      split; [exact Hne |]. split; [exact Hnum |].
      split; [rewrite Hty; eauto |]. exists e. auto. }
  assert (Hmiss : forall k, ~ In k (map fst filters) ->
            resolved res !! k = None /\ metadata res !! k = None).
  { intros k Hk. destruct (Hout k Hk) as [E1 E2].
    rewrite E1, E2, !lookup_empty. auto. }
  exists res, t'. split; [exact Hrun |].
  split; [| split; [| split; [| split]]].
  - intros k. split.
    + intros Hsome.
      destruct (in_dec string_dec k (map fst filters)) as [Hk | Hn].
      * split; [exact Hk |].
        apply in_map_iff in Hk as ([k' v] & <- & Hmem). cbn [fst] in *.
        destruct (Hkey k' v Hmem) as [(_ & E & _) | [(Hne & _) | (Hne & _)]];
          [| exact Hne | exact Hne].
        rewrite E in Hsome. destruct Hsome; discriminate.
      * destruct (Hmiss k Hn) as [E _]. rewrite E in Hsome.
        destruct Hsome; discriminate.
    + intros [Hk Hne]. apply in_map_iff in Hk as ([k' v] & <- & Hmem).
      cbn [fst] in *.
      destruct (Hkey k' v Hmem)
        as [(Heq & _) | [(_ & E & _) | (_ & _ & _ & e & _ & _ & E)]];
        [contradiction | |]; rewrite E; eauto.
  - intros key value e Hmem Hmeta.
    destruct (Hkey key value Hmem)
      as [(_ & _ & E) | [(_ & _ & E) | (Hne & Hnum & Hty & e' & He & Hi & Hr)]];
      [congruence | congruence |].
    rewrite He in Hmeta. injection Hmeta as <-. auto.
  - intros key value Hmem Hmeta Hne.
    destruct (Hkey key value Hmem)
      as [(Heq & _) | [(_ & E & _) | (_ & _ & _ & e' & He & _)]];
      [contradiction | exact E | congruence].
  - intros k Hsome.
    destruct (in_dec string_dec k (map fst filters)) as [Hk | Hn].
    + split; [exact Hk |].
      apply in_map_iff in Hk as ([k' v] & <- & Hmem). cbn [fst] in *.
      destruct (Hkey k' v Hmem) as [(_ & _ & E) | [(Hne & _) | (Hne & _)]];
        [| exact Hne | exact Hne].
      rewrite E in Hsome. destruct Hsome; discriminate.
    + destruct (Hmiss k Hn) as [_ E]. rewrite E in Hsome.
      destruct Hsome; discriminate.
  - intros e He.
    destruct (in_dec string_dec "__proto__" (map fst filters)) as [Hk | Hn].
    + apply in_map_iff in Hk as ([k' v] & Hfst & Hmem). cbn [fst] in Hfst.
      subst k'. exists v. split; [exact Hmem |].
      destruct (Hin "__proto__" v Hmem)
        as [(_ & _ & E) | (type & e' & Hty & Hnum & Hi & Hres)].
      * rewrite E in He by reflexivity. discriminate.
      * cbn [String.eqb Ascii.eqb Bool.eqb] in Hres.
        destruct Hres as (_ & _ & E). rewrite E in He. injection He as <-.
        split; [rewrite Hty; eauto |]. auto.
    + rewrite Hproto in He by exact Hn. discriminate.
Qed.

Lemma resolveFilterIds_result_witness :
  exists res t',
    resolveFilterIds native_code example_filters example_mapping
      (mkOptions None None false None) people_api [] = (Ok res, t') /\
    (forall k, is_Some (resolved res !! k) <->
               In k (map fst example_filters) /\ k <> "__proto__").
Proof.
  destruct (resolveFilterIds_result people_api [] native_code example_filters
              example_mapping (mkOptions None None false None))
    as (res & t' & H1 & H2 & _).
  { repeat constructor; simpl; intuition discriminate. }
  exists res, t'. split; assumption.
Defined.

(** *** Services *)

Lemma has_infix_nil (l : list ascii) : JS.has_infix [] l = true.
Proof. destruct l; reflexivity. Qed.

(** A search for a service sends one request, for up to 200 services,
    filtered by project when a project is given.  Every result is a
    service whose name contains the query, letter case apart, and is exact
    precisely when the name is the query, letter case apart.  The empty
    query matches every service. *)
Theorem services_by_name (w : World) (t t' : Trace) (nm : string)
    (projectId : option string) (out : Outcome (list ResolveResult)) :
  resolveServiceByName nm projectId w t = (out, t') ->
  t' = t ++ [ApiCall (mkRequest Services
                        match JS.truthy projectId with
                        | Some pid => [("project_id", pid)]
                        | None => []
                        end 200)] /\
  (forall results,
      out = Ok results ->
      Forall
        (fun r =>
           rr_type r = service /\ rr_query r = nm /\
           JS.includes (JS.toLowerCase (rr_label r)) (JS.toLowerCase nm) = true /\
           rr_exact r = String.eqb (JS.toLowerCase (rr_label r)) (JS.toLowerCase nm))
        results) /\
  (forall results data,
      out = Ok results -> nm = "" ->
      api_answer w t (mkRequest Services
                        match JS.truthy projectId with
                        | Some pid => [("project_id", pid)]
                        | None => []
                        end 200) = Some data ->
      map rr_id results = map res_id data).
Proof.
  unfold resolveServiceByName, bind, getServices, api_get, ret.
  set (req := mkRequest Services _ 200).
  destruct (api_answer w t req) as [data |] eqn:E; intros [= <- <-].
  - split; [reflexivity |]. split.
    + intros results [= <-]. apply List.Forall_forall. intros r Hin.
      apply in_map_iff in Hin as (x & <- & Hx).
      apply filter_In in Hx as [_ Hx]. cbn. auto.
    + intros results data' [= <-] -> [= <-].
      rewrite map_map. cbn [rr_id].
      replace (List.filter _ data) with data; [reflexivity |].
      clear E. induction data as [| x data IH]; [reflexivity |].
      cbn [List.filter]. unfold JS.includes at 1. cbn [JS.toLowerCase].
      change (JS.chars (JS.toLowerCase "")) with (@nil ascii).
      rewrite has_infix_nil. f_equal. exact IH.
  - split; [reflexivity |]. split; [discriminate |]. discriminate.
Qed.

Lemma services_by_name_witness :
  Forall
    (fun r =>
       rr_type r = service /\ rr_query r = "de" /\
       JS.includes (JS.toLowerCase (rr_label r)) (JS.toLowerCase "de") = true /\
       rr_exact r = String.eqb (JS.toLowerCase (rr_label r)) (JS.toLowerCase "de"))
    [mkResult "1" service "Development" "de" false;
     mkResult "2" service "Design" "de" false].
Proof.
  apply (proj1 (proj2 (services_by_name services_api [] _ "de" (Some "7") _
                         eq_refl)) _ eq_refl).
Defined.

(** *** Keys of the resolve cache *)

Lemma split_at_first (c : ascii) (a a' r r' : list ascii) :
  ~ In c a -> ~ In c a' -> a ++ c :: r = a' ++ c :: r' -> a = a' /\ r = r'.
Proof.
  revert a'. induction a as [| x a IH]; intros [| y a'] Ha Ha' E; simpl in *.
  - injection E as ->. auto.
  - injection E as <- _. tauto.
  - injection E as -> _. tauto.
  - injection E as -> E. destruct (IH a') as [-> ->]; auto.
Qed.

Lemma type_name_no_colon (type : ResolvableResourceType) :
  ~ In ":"%char (JS.chars (type_name type)).
Proof. destruct type; simpl; intuition discriminate. Qed.

Lemma type_name_inj (t1 t2 : ResolvableResourceType) :
  type_name t1 = type_name t2 -> t1 = t2.
Proof. destruct t1, t2; simpl; intros H; try discriminate H; reflexivity. Qed.

Lemma chars_inj (a b : string) : JS.chars a = JS.chars b -> a = b.
Proof.
  intros H. rewrite <- (of_chars_chars a), <- (of_chars_chars b), H.
  reflexivity.
Qed.

(** For tenants whose id holds no colon (numeric ids, for one), two keys
    of the resolve cache are the same only for the same tenant, the same
    type and queries that differ by letter case at most. *)
Theorem resolve_cache_keys (orgId orgId' : string)
    (type type' : ResolvableResourceType) (query query' : string) :
  ~ In ":"%char (JS.chars orgId) ->
  ~ In ":"%char (JS.chars orgId') ->
  (getResolveCacheKey orgId type query = getResolveCacheKey orgId' type' query'
   <-> orgId = orgId' /\ type = type' /\
       JS.toLowerCase query = JS.toLowerCase query').
Proof.
  intros Ho Ho'. split.
  - intros H. apply (f_equal JS.chars) in H. unfold getResolveCacheKey in H.
    rewrite !chars_app in H. apply app_inv_head in H.
    change (JS.chars ":") with [":"%char] in H. cbn [app] in H.
    apply split_at_first in H as [H1 H2]; [| assumption | assumption].
    apply split_at_first in H2 as [H2 H3]; try apply type_name_no_colon.
    split; [apply chars_inj; exact H1 |].
    split; [apply type_name_inj, chars_inj; exact H2 |].
    apply chars_inj. exact H3.
  - intros (-> & -> & E). unfold getResolveCacheKey. rewrite E. reflexivity.
Qed.

Lemma resolve_cache_keys_witness :
  getResolveCacheKey "42" person "User@Example.com"
  = getResolveCacheKey "42" person "user@example.COM".
Proof.
  apply (resolve_cache_keys "42" "42" person person).
  - simpl. intuition discriminate.
  - simpl. intuition discriminate.
  - repeat split; reflexivity.
Defined.

(** *** Detection and failure *)

(** No string matches two of the four patterns, so the order in which
    [detectResourceType] tries them decides nothing; and a string that is
    detected needs resolution. *)
Theorem patterns_exclusive (query : string) :
  (length
     (List.filter (fun p => test p query)
        [NUMERIC_ID_PATTERN; EMAIL_PATTERN; PROJECT_NUMBER_PATTERN;
         DEAL_NUMBER_PATTERN]) <= 1)%nat /\
  (detectResourceType query <> None -> needsResolution query = true).
Proof.
  split.
  - cbn [List.filter].
    destruct (test EMAIL_PATTERN query) eqn:Ee.
    { rewrite (email_not_numeric _ Ee), (email_not_project _ Ee),
        (email_not_deal _ Ee). cbn. lia. }
    destruct (test PROJECT_NUMBER_PATTERN query) eqn:Ep.
    { rewrite (project_not_numeric _ Ep), (project_not_deal _ Ep). cbn. lia. }
    destruct (test DEAL_NUMBER_PATTERN query) eqn:Ed.
    { rewrite (deal_not_numeric _ Ed). cbn. lia. }
    destruct (test NUMERIC_ID_PATTERN query); cbn; lia.
  - unfold detectResourceType, needsResolution, isNumericId.
    destruct (test NUMERIC_ID_PATTERN query); [congruence | reflexivity].
Qed.

Lemma patterns_exclusive_witness : needsResolution "a@b.co" = true.
Proof. apply (proj2 (patterns_exclusive "a@b.co")). discriminate. Defined.

(** A query that is not numeric and matches no pattern, resolved without
    a type, is rejected with a [ResolveError] that carries the query and
    no type; nothing is asked of the cache or of the API. *)
Theorem resolve_undetermined (w : World) (t : Trace) (query : string)
    (options : ResolveOptions) :
  opt_type options = None ->
  isNumericId query = false ->
  detectResourceType query = None ->
  exists message,
    resolve query options w t = (Throw (ResolveError message query None None), t).
Proof.
  intros Hty Hnum Hdet. unfold resolve, bind, try_cache, cache_type,
    determine_type.
  rewrite Hnum, Hty, Hdet. cbn [fmap option_fmap option_map].
  destruct (JS.truthy (opt_orgId options)); eexists; reflexivity.
Qed.

Lemma resolve_undetermined_witness :
  exists message,
    resolve "Acme" (mkOptions None None false (Some "42")) people_api []
    = (Throw (ResolveError message "Acme" None None), []).
Proof.
  apply (resolve_undetermined people_api [] "Acme"
           (mkOptions None None false (Some "42")));
    reflexivity.
Defined.

Lemma lookup_api_down (w : World) (t : Trace) (type : ResolvableResourceType)
    (pattern : option string) (query : string) (projectId : option string) :
  (forall t req, api_answer w t req = None) ->
  exists req,
    lookup type pattern query projectId w t = (Throw OtherError, t ++ [ApiCall req]).
Proof.
  intros Hdown. unfold lookup.
  destruct type;
    repeat match goal with
      | |- context [if ?b then _ else _] => destruct b
      end;
    unfold resolvePersonByEmail, resolvePersonByName, resolveProjectByNumber,
      resolveProjectByName, resolveCompanyByName, resolveDealByNumber,
      resolveDealByName, resolveServiceByName, getPeople, getProjects,
      getCompanies, getDeals, getServices, bind, ret, api_get;
    cbv beta iota zeta; rewrite Hdown; eexists; reflexivity.
Qed.

(** While the API answers no request, [resolve] returns only for a
    numeric id or after a cache read, with one result and without a
    request; otherwise it is rejected after at most one request - a
    failed request is not tried again, not even for the second spelling
    of a project or deal number - and in no case does it write to the
    cache. *)
Theorem resolve_api_down (w : World) (t t' : Trace) (query : string)
    (options : ResolveOptions) (out : Outcome (list ResolveResult)) :
  (forall t req, api_answer w t req = None) ->
  resolve query options w t = (out, t') ->
  exists reads calls,
    t' = t ++ reads ++ map ApiCall calls /\
    (reads = [] \/ exists orgId key, reads = [CacheGet orgId key]) /\
    (length calls <= 1)%nat /\
    (forall results, out = Ok results ->
                     calls = [] /\ length results = 1%nat /\
                     (isNumericId query = true \/ reads <> [])).
Proof.
  intros Hdown. unfold resolve, bind. destruct (isNumericId query) eqn:Enum.
  { intros [= <- <-]. exists [], []. rewrite !app_nil_r.
    split; [reflexivity |]. split; [auto |]. split; [cbn; lia |].
    intros results [= <-]. auto. }
  assert (Hcache : exists c reads,
             try_cache query options w t = (Ok c, t ++ reads) /\
             (reads = [] \/ exists orgId key, reads = [CacheGet orgId key]) /\
             (c <> None -> reads <> [])).
  { unfold try_cache. destruct (JS.truthy (opt_orgId options)) as [orgId |].
    - destruct (cache_type query options) as [ty |].
      + rewrite getCachedResolve_run. eexists _, [_].
        split; [reflexivity |]. split; [right; eauto | discriminate].
      + exists None, []. rewrite app_nil_r. repeat split; auto.
    - exists None, []. rewrite app_nil_r. repeat split; auto. }
  destruct Hcache as (c & reads & -> & Hreads & Hhit).
  destruct c as [c |].
  { intros [= <- <-]. exists reads, []. rewrite !app_nil_r.
    split; [reflexivity |]. split; [exact Hreads |]. split; [cbn; lia |].
    intros results [= <-].
    split; [reflexivity |]. split; [reflexivity |].
    right. apply Hhit. discriminate. }
  destruct (determine_type query options) as [[type pattern] |].
  2: { intros [= <- <-]. exists reads, []. rewrite !app_nil_r.
       split; [reflexivity |]. split; [exact Hreads |]. split; [cbn; lia |].
       intros results [=]. }
  destruct (lookup_api_down w (t ++ reads) type pattern query
              (opt_projectId options) Hdown) as (req & ->).
  intros [= <- <-]. exists reads, [req]. rewrite <- app_assoc.
  split; [reflexivity |]. split; [exact Hreads |]. split; [cbn; lia |].
  intros results [=].
Qed.

Lemma resolve_api_down_witness :
  exists reads calls,
    [CacheGet "42" "resolve:42:project:p-12";
     ApiCall (mkRequest Projects [("project_number", "PRJ-12")] 1)]
    = [] ++ reads ++ map ApiCall calls /\
    (length calls <= 1)%nat.
Proof.
  destruct (resolve_api_down no_api [] _ "p-12"
              (mkOptions None None false (Some "42")) _
              (fun _ _ => eq_refl) eq_refl)
    as (reads & calls & H1 & _ & H2 & _).
  exists reads, calls. split; assumption.
Defined.

End ResolverMore.

(** ** More on the TTL response cache *)
Module FileCacheMore.

Import FileCache FileCacheFacts SweepFacts FileCacheInstance.

Lemma find_file_removed (nm : string) (d : Directory) :
  find_file nm (remove_file nm d) = None.
Proof.
  unfold remove_file. induction d as [| [n f] d IH]; simpl; [reflexivity |].
  destruct (String.eqb n nm) eqn:E; simpl; [exact IH |]. rewrite E. exact IH.
Qed.

Section NoFaults.

Variable w : World.
Hypothesis Hw : reliable w.

Lemma get_run (endpoint : string) (params : list (string * string))
    (orgId : string) (d : Directory) (n im : nat) (ul : list string) :
  let nm := digest w endpoint params orgId +:+ ".json" in
  get w true endpoint params orgId (mkState (Some d) n im ul) =
  match find_file nm d with
  | None => (Ok None, mkState (Some d) (S n) im ul)
  | Some f =>
      match content f with
      | Garbage => (Ok None, mkState (Some d) (S (S n)) im ul)
      | Json e =>
          if expired (clock w (S (S n))) e then
            (Ok None,
             mkState (Some (remove_file nm d)) (S (S (S (S n)))) im (ul ++ [nm]))
          else (Ok (Some (data e)), mkState (Some d) (S (S (S n))) im ul)
      end
  end.
Proof.
  intros nm. unfold get, get_try, getCacheKey, existsSync. cbn [negb]. step.
  rewrite (io_ok w Hw). step. fold nm.
  destruct (find_file nm d) as [f |] eqn:Ef.
  - rewrite bool_decide_eq_true_2 by eauto. cbn [negb].
    rewrite (readFileSync_ok w Hw nm f) by exact Ef. step.
    destruct (content f) as [e |]; step; [| reflexivity].
    destruct (expired (clock w (S (S n))) e); step; [| reflexivity].
    rewrite (unlinkSync_ok w Hw nm f) by exact Ef. reflexivity.
  - rewrite bool_decide_eq_false_2 by (intros [? ?]; discriminate).
    reflexivity.
Qed.

Lemma set_run (endpoint : string) (params : list (string * string))
    (orgId data : string) (options : option CacheOptions)
    (d : Directory) (n im : nat) (ul : list string) :
  let e := mkEntry data (clock w (S n)) (getTTL endpoint (options ≫= opt_ttl))
             endpoint params in
  set w true endpoint params orgId data options (mkState (Some d) n im ul) =
  (Ok tt,
   mkState
     (Some (write_file (digest w endpoint params orgId +:+ ".json")
              (mkFile (Json e) (json_size w e)) d))
     (S (S (S (S n)))) (S im) ul).
Proof.
  intros e. unfold set, set_try, try_catch, bind, getCacheKey, Date_now,
    JSON_stringify, writeFileSync, setImmediate_cleanup.
  cbn [negb]. repeat (rewrite (io_ok w Hw); cbn -[io getTTL write_file]).
  reflexivity.
Qed.

(** What [get] makes of the file of its key, when nothing fails: a fresh
    entry is returned and the directory is left as it is; an expired entry
    is a miss and its file is deleted; a file that does not parse is a
    miss and stays where it is; no file is a miss.  In no case is another
    file touched. *)
Theorem get_outcomes (endpoint : string) (params : list (string * string))
    (orgId : string) (s : State) (d : Directory) :
  dir s = Some d ->
  let nm := digest w endpoint params orgId +:+ ".json" in
  exists r s',
    get w true endpoint params orgId s = (Ok r, s') /\
    (forall f e, find_file nm d = Some f -> content f = Json e ->
                 expired (clock w (2 + ops s)) e = false ->
                 r = Some (data e) /\ dir s' = Some d) /\
    (forall f e, find_file nm d = Some f -> content f = Json e ->
                 expired (clock w (2 + ops s)) e = true ->
                 r = None /\ dir s' = Some (remove_file nm d) /\
                 unlinked s' = unlinked s ++ [nm]) /\
    (forall f, find_file nm d = Some f -> content f = Garbage ->
               r = None /\ dir s' = Some d) /\
    (find_file nm d = None -> r = None /\ dir s' = Some d) /\
    (forall nm', nm' <> nm ->
                 exists d', dir s' = Some d' /\ find_file nm' d' = find_file nm' d).
Proof.
  intros Hd nm. destruct s as [dd n im ul]. cbn [dir] in Hd. subst dd.
  cbn [ops unlinked plus]. rewrite get_run. fold nm.
  destruct (find_file nm d) as [f |] eqn:Ef;
    [destruct (content f) as [e |] eqn:Ec;
     [destruct (expired (clock w (S (S n))) e) eqn:Ex |] |];
    (eexists _, _; split; [reflexivity |]); cbn [dir unlinked];
    (split; [intros; simplify_eq; repeat split; congruence |]);
    (split; [intros; simplify_eq; repeat split; congruence |]);
    (split; [intros; simplify_eq; repeat split; congruence |]);
    (split; [intros; simplify_eq; repeat split; congruence |]);
    intros nm' Hne; eexists; (split; [reflexivity |]);
    try reflexivity.
  apply find_file_remove_ne. exact Hne.
Qed.

(** A [get] that misses is a miss again when it is repeated, and the
    second one deletes nothing: an expired entry is deleted once. *)
Theorem get_miss_repeats (endpoint : string) (params : list (string * string))
    (orgId : string) (s s1 : State) (d : Directory) :
  dir s = Some d ->
  get w true endpoint params orgId s = (Ok None, s1) ->
  exists s2,
    get w true endpoint params orgId s1 = (Ok None, s2) /\
    dir s2 = dir s1 /\ unlinked s2 = unlinked s1.
Proof.
  intros Hd. destruct s as [dd n im ul]. cbn [dir] in Hd. subst dd.
  rewrite get_run. cbv zeta.
  set (nm := digest w endpoint params orgId +:+ ".json").
  destruct (find_file nm d) as [f |] eqn:Ef;
    [destruct (content f) as [e |] eqn:Ec;
     [destruct (expired (clock w (S (S n))) e) eqn:Ex |] |];
    intros [= <-]; rewrite get_run; cbv zeta; fold nm.
  - rewrite find_file_removed. eexists. repeat split.
  - rewrite Ef, Ec. eexists. repeat split.
  - rewrite Ef. eexists. repeat split.
Qed.

Lemma find_write_file_ne (nm nm' : string) (f : File) (d : Directory) :
  nm' <> nm -> find_file nm' (write_file nm f d) = find_file nm' d.
Proof.
  intros Hne. induction d as [| [n g] d IH]; simpl.
  - destruct (String.eqb_spec nm nm'); [congruence | reflexivity].
  - destruct (String.eqb_spec n nm) as [-> | Hn]; simpl.
    + destruct (String.eqb_spec nm nm'); [congruence | reflexivity].
    + destruct (String.eqb n nm'); [reflexivity | exact IH].
Qed.

Lemma length_write_file (nm : string) (f : File) (d : Directory) :
  length (write_file nm f d)
  = match find_file nm d with
    | Some _ => length d
    | None => S (length d)
    end.
Proof.
  induction d as [| [n g] d IH]; simpl; [reflexivity |].
  destruct (String.eqb n nm); simpl; [reflexivity |]. rewrite IH.
  destruct (find_file nm d); reflexivity.
Qed.

(** A value that is set is read back by the next [get] of the same
    endpoint, parameters and tenant, unless its TTL has passed between the
    two readings of the clock; then the [get] is a miss. *)
Theorem set_get_round_trip (endpoint : string)
    (params : list (string * string)) (orgId data : string)
    (options : option CacheOptions) (s : State) (d : Directory) :
  dir s = Some d ->
  exists s1 s2,
    set w true endpoint params orgId data options s = (Ok tt, s1) /\
    get w true endpoint params orgId s1 =
    (Ok (if getTTL endpoint (options ≫= opt_ttl) * 1000
            <? clock w (6 + ops s) - clock w (1 + ops s)
         then None else Some data), s2).
Proof.
  intros Hd. destruct s as [dd n im ul]. cbn [dir] in Hd. subst dd.
  rewrite set_run. cbv zeta. cbn [ops plus].
  destruct (_ <? _) eqn:E; eexists _, _; (split; [reflexivity |]);
    rewrite get_run; cbv zeta; rewrite find_write_file; cbn [content];
    unfold expired; cbn [ttl timestamp FileCache.data]; rewrite E;
    reflexivity.
Qed.

(** A [set] writes the file of its key and no other: every other file is
    as it was, the directory grows by one file when the key is new and not
    at all when it is not, and one sweep is queued. *)
Theorem set_touches_one_file (endpoint : string)
    (params : list (string * string)) (orgId data : string)
    (options : option CacheOptions) (s : State) (d : Directory) :
  dir s = Some d ->
  let nm := digest w endpoint params orgId +:+ ".json" in
  exists s1 d1,
    set w true endpoint params orgId data options s = (Ok tt, s1) /\
    dir s1 = Some d1 /\
    (forall nm', nm' <> nm -> find_file nm' d1 = find_file nm' d) /\
    length d1 = match find_file nm d with
                | Some _ => length d
                | None => S (length d)
                end /\
    immediates s1 = S (immediates s) /\
    unlinked s1 = unlinked s.
Proof.
  intros Hd nm. destruct s as [dd n im ul]. cbn [dir] in Hd. subst dd.
  rewrite set_run. cbv zeta. eexists _, _. split; [reflexivity |].
  cbn [dir immediates unlinked]. split; [reflexivity |].
  split; [intros nm' Hne; apply find_write_file_ne; exact Hne |].
  split; [apply length_write_file |]. split; reflexivity.
Qed.

(** *** Invalidation *)

Lemma invalidate_loop_run (pattern : option string) (d : Directory) :
  forall (pre : Directory) (n im : nat) (ul : list string),
    List.NoDup (map fst (pre ++ d)) ->
    exists n',
      invalidate_loop w (map fst d) pattern (mkState (Some (pre ++ d)) n im ul)
      = (Ok tt,
         mkState (Some (pre ++ List.filter (survives pattern) d)) n' im
           (ul ++ map fst (List.filter (fun nf => negb (survives pattern nf)) d))).
Proof.
  induction d as [| [nm f] d IH]; intros pre n im ul Hnd.
  - exists n. cbn. rewrite !app_nil_r. reflexivity.
  - assert (Hdrop : forall k,
              survives pattern (nm, f) = false ->
              exists n',
                invalidate_loop w (map fst d) pattern
                  (mkState (Some (pre ++ d)) k im (ul ++ [nm]))
                = (Ok tt,
                   mkState
                     (Some (pre ++ List.filter (survives pattern) ((nm, f) :: d)))
                     n' im
                     (ul ++ map fst
                        (List.filter (fun nf => negb (survives pattern nf))
                           ((nm, f) :: d))))).
    { intros k Hs. cbn [List.filter]. rewrite Hs. cbn [negb map fst].
      destruct (IH pre k im (ul ++ [nm])) as (n' & Hrun).
      { eapply NoDup_middle_drop; exact Hnd. }
      exists n'. rewrite Hrun, <- app_assoc. reflexivity. }
    assert (Hkeep : forall k,
              survives pattern (nm, f) = true ->
              exists n',
                invalidate_loop w (map fst d) pattern
                  (mkState (Some (pre ++ (nm, f) :: d)) k im ul)
                = (Ok tt,
                   mkState
                     (Some (pre ++ List.filter (survives pattern) ((nm, f) :: d)))
                     n' im
                     (ul ++ map fst
                        (List.filter (fun nf => negb (survives pattern nf))
                           ((nm, f) :: d))))).
    { intros k Hs. cbn [List.filter]. rewrite Hs. cbn [negb].
      replace (pre ++ (nm, f) :: d) with ((pre ++ [(nm, f)]) ++ d)
        by (rewrite <- app_assoc; reflexivity).
      destruct (IH (pre ++ [(nm, f)]) k im ul) as (n' & Hrun).
      { eapply NoDup_middle_keep; exact Hnd. }
      exists n'. rewrite Hrun, <- !app_assoc. reflexivity. }
    cbn [map fst invalidate_loop]. step.
    destruct (is_json nm) eqn:Ejson; cbn [negb]; step.
    + destruct (JS.truthy pattern) as [pat |] eqn:Epat.
      * rewrite (readFileSync_ok w Hw nm f) by exists_here Hnd. step.
        destruct (content f) as [e |] eqn:Ec; step.
        -- destruct (JS.includes (endpoint e) pat) eqn:Einc; step.
           ++ rewrite (unlinkSync_ok w Hw nm f) by exists_here Hnd.
              rewrite remove_file_middle by exact Hnd.
              apply Hdrop. unfold survives. cbn [fst snd].
              rewrite Ejson, Epat, Ec, Einc. reflexivity.
           ++ apply Hkeep. unfold survives. cbn [fst snd].
              rewrite Ejson, Epat, Ec, Einc. reflexivity.
        -- rewrite (unlinkSync_ok w Hw nm f) by exists_here Hnd.
           rewrite remove_file_middle by exact Hnd.
           apply Hdrop. unfold survives. cbn [fst snd].
           rewrite Ejson, Epat, Ec. reflexivity.
      * rewrite (unlinkSync_ok w Hw nm f) by exists_here Hnd.
        rewrite remove_file_middle by exact Hnd.
        apply Hdrop. unfold survives. cbn [fst snd].
        rewrite Ejson, Epat. reflexivity.
    + apply Hkeep. unfold survives. cbn [fst snd]. rewrite Ejson. reflexivity.
Qed.

(** When nothing fails, [invalidate] with a pattern deletes the entries
    whose endpoint contains the pattern and the [.json] files that do not
    parse; without a pattern (or with the empty one), and so [clear],
    deletes every [.json] file.  Files that are not [.json] files are
    never deleted, and the files that stay are unchanged and in the same
    order. *)
Theorem invalidate_result (endpointPattern : option string) (s : State)
    (d : Directory) :
  dir s = Some d ->
  List.NoDup (map fst d) ->
  exists s',
    invalidate w true endpointPattern s = (Ok tt, s') /\
    dir s' = Some (List.filter (survives endpointPattern) d) /\
    unlinked s' =
    unlinked s
    ++ map fst (List.filter (fun nf => negb (survives endpointPattern nf)) d) /\
    (JS.truthy endpointPattern = None ->
     dir s' = Some (List.filter (fun nf => negb (is_json (fst nf))) d) /\
     clear w true s = (Ok tt, s')).
Proof.
  intros Hd Hnd. destruct s as [dd n im ul]. cbn [dir] in Hd. subst dd.
  unfold clear, invalidate, invalidate_try, readdirSync. cbn [negb]. step.
  rewrite (io_ok w Hw). cbn [dir mbind option_bind]. step.
  destruct (invalidate_loop_run endpointPattern d [] (S n) im ul Hnd)
    as (n' & Hrun).
  cbn [app] in Hrun. unfold Directory in *. rewrite Hrun. eexists. split; [reflexivity |].
  cbn [dir unlinked]. split; [reflexivity |]. split; [reflexivity |].
  intros Hnone. split.
  - f_equal. apply List.filter_ext. intros nf. unfold survives.
    rewrite Hnone. apply orb_false_r.
  - destruct (invalidate_loop_run None d [] (S n) im ul Hnd) as (n2 & Hrun2).
    cbn [app] in Hrun2.
    assert (Hsame : invalidate_loop w (map fst d) None
                      (mkState (Some d) (S n) im ul)
                    = invalidate_loop w (map fst d) endpointPattern
                        (mkState (Some d) (S n) im ul)).
    { clear -Hnone. generalize (mkState (Some d) (S n) im ul).
      induction (map fst d) as [| nm l IH]; intros st; [reflexivity |].
      cbn [invalidate_loop]. rewrite Hnone. cbn [JS.truthy].
      unfold bind. destruct (if negb (is_json nm) then _ else _) as [[|] st'];
        [apply IH | reflexivity]. }
    rewrite Hsame, Hrun. reflexivity.
Qed.

(** *** Statistics *)

Lemma stats_loop_run (d : Directory) :
  forall (pre : Directory) (n im : nat) (ul : list string) (ts old : Z),
    List.NoDup (map fst (pre ++ d)) ->
    stats_loop w (List.filter is_json (map fst d)) ts old
      (mkState (Some (pre ++ d)) n im ul)
    = (Ok (ts + total_size (json_files d),
           oldest_timestamp old (json_files d)),
       mkState (Some (pre ++ d)) (n + 2 * length (json_files d))%nat im ul).
Proof.
  induction d as [| [nm f] d IH]; intros pre n im ul ts old Hnd.
  - cbn. rewrite Z.add_0_r, Nat.add_0_r. reflexivity.
  - cbn [map fst List.filter json_files].
    replace (pre ++ (nm, f) :: d) with ((pre ++ [(nm, f)]) ++ d) in *
      by (rewrite <- app_assoc; reflexivity).
    assert (Hfind : find_file nm ((pre ++ [(nm, f)]) ++ d) = Some f).
    { rewrite <- app_assoc. apply find_file_middle.
      rewrite <- app_assoc in Hnd. exact Hnd. }
    destruct (is_json nm) eqn:Ejson.
    + cbn [stats_loop]. step.
      rewrite (statSync_ok w Hw nm f) by exact Hfind. step.
      rewrite (readFileSync_ok w Hw nm f) by exact Hfind. step.
      fold (json_files d).
      cbn [total_size foldr oldest_timestamp foldl length fst snd].
      fold (total_size (json_files d)).
      destruct (content f) as [e |] eqn:Ec; step.
      * destruct (timestamp e <? old) eqn:Elt; step;
          rewrite (IH (pre ++ [(nm, f)])) by exact Hnd;
          unfold oldest_timestamp; do 2 f_equal; try lia; f_equal; lia.
      * rewrite (IH (pre ++ [(nm, f)])) by exact Hnd.
        unfold oldest_timestamp. do 2 f_equal; try lia. f_equal; lia.
    + fold (json_files d). apply (IH (pre ++ [(nm, f)])). exact Hnd.
Qed.

(** When nothing fails, [stats] counts every [.json] file of the
    directory and adds up their sizes, the files that do not parse
    included; the age is counted from the oldest timestamp among the
    entries that parse and the time [stats] started.  It deletes and
    writes nothing. *)
Theorem stats_result (s : State) (d : Directory) :
  dir s = Some d ->
  List.NoDup (map fst d) ->
  let k := length (json_files d) in
  exists s',
    stats w true s
    = (Ok (mkStats k (total_size (json_files d))
             (round_div_1000
                (clock w (ops s + 2 + 2 * k)%nat
                 - oldest_timestamp (clock w (S (ops s))) (json_files d)))),
       s') /\
    dir s' = Some d /\ unlinked s' = unlinked s /\
    immediates s' = immediates s.
Proof.
  intros Hd Hnd k. destruct s as [dd n im ul]. cbn [dir] in Hd. subst dd.
  unfold stats, existsSync_dir, stats_try, readdirSync. step.
  rewrite bool_decide_true by (eexists; reflexivity). cbn [negb orb]. step.
  rewrite (io_ok w Hw). cbn [dir mbind option_bind]. step.
  pose proof (stats_loop_run d [] (S (S n)) im ul 0 (clock w (S n)) Hnd)
    as Hrun.
  cbn [app] in Hrun. unfold Directory in *. rewrite Hrun.
  eexists. split; [apply f_equal2; [| reflexivity] | repeat split; reflexivity].
  cbn [fst snd].
  assert (Hlen : length (List.filter is_json (map fst d)) = k).
  { subst k. unfold json_files. clear.
    induction d as [| [nm f] d IH]; [reflexivity |].
    cbn [map fst List.filter]. destruct (is_json nm); cbn [length]; congruence. }
  rewrite Hlen. fold k.
  replace (S (S n) + 2 * k)%nat with (n + 2 + 2 * k)%nat by lia.
  reflexivity.
Qed.

(** *** The sweep on a cache in good order *)

Lemma scan_result_fresh (d : Directory) :
  forall n : nat,
    (forall nm f, In (nm, f) d -> is_json nm = true ->
                  exists e, content f = Json e /\
                            forall k, (n < k <= n + 3 * length d)%nat ->
                                      expired (clock w k) e = false) ->
    exists n', scan_result w n d = (d, [], n').
Proof.
  induction d as [| [nm f] d IH]; intros n Hd.
  - exists n. reflexivity.
  - cbn [scan_result]. cbn [length] in Hd.
    destruct (is_json nm) eqn:Ejson.
    + destruct (Hd nm f (or_introl eq_refl) Ejson) as (e & -> & Hfresh).
      rewrite Hfresh by lia.
      destruct (IH (n + 3)%nat) as (n' & ->).
      { intros nm' f' Hin Hjson.
        destruct (Hd nm' f' (or_intror Hin) Hjson) as (e' & He' & Hk).
        exists e'. split; [exact He' |]. intros k Hrange. apply Hk. lia. }
      exists n'. reflexivity.
    + destruct (IH n) as (n' & ->).
      { intros nm' f' Hin Hjson.
        destruct (Hd nm' f' (or_intror Hin) Hjson) as (e' & He' & Hk).
        exists e'. split; [exact He' |]. intros k Hrange. apply Hk. lia. }
      exists n'. reflexivity.
Qed.

(** When nothing fails, the sweep deletes nothing from a cache in good
    order: a directory whose [.json] files all parse, none of them
    expiring while the sweep runs, and which is within both ceilings, is
    left as it is. *)
Theorem cleanup_keeps_good_cache (s : State) (d : Directory) :
  dir s = Some d ->
  List.NoDup (map fst d) ->
  (forall nm f, In (nm, f) d -> is_json nm = true ->
                exists e, content f = Json e /\
                          forall k, (ops s < k <= ops s + 1 + 3 * length d)%nat ->
                                    expired (clock w k) e = false) ->
  total_size (json_files d) <= MAX_CACHE_SIZE ->
  (length (json_files d) <= MAX_CACHE_ENTRIES)%nat ->
  exists s',
    cleanup w s = (Ok tt, s') /\ dir s' = Some d /\ unlinked s' = unlinked s.
Proof.
  intros Hd Hnd Hgood Hsize Hcount.
  destruct s as [dd n im ul]. cbn [dir ops] in Hd, Hgood. subst dd.
  pose proof (cleanup_run w d n im ul Hw Hnd) as Hrun. cbv zeta in Hrun.
  destruct (scan_result_fresh d (S n)) as (n' & Hscan).
  { intros nm f Hin Hjson. destruct (Hgood nm f Hin Hjson) as (e & He & Hk).
    exists e. split; [exact He |]. intros k Hrange. apply Hk. lia. }
  rewrite Hscan in Hrun. cbn [fst snd] in Hrun.
  assert (Hev : (evict_result
                   (sort_by_timestamp (map entry_info (json_files d)))
                   (total_size (json_files d))).1 = []).
  { destruct (sort_by_timestamp (map entry_info (json_files d)))
      as [| oldest rest] eqn:Esort; [reflexivity |].
    cbn [evict_result].
    assert (Hover : over_limits (total_size (json_files d)) (oldest :: rest)
                    = false).
    { unfold over_limits. apply orb_false_iff. split.
      - apply Z.ltb_ge. exact Hsize.
      - apply Nat.ltb_ge. rewrite <- Esort.
        rewrite (Permutation_length (sort_by_timestamp_perm _)).
        rewrite length_map. exact Hcount. }
    rewrite Hover. reflexivity. }
  rewrite Hev in Hrun. cbn [map length] in Hrun.
  rewrite drop_names_nil, !app_nil_r in Hrun.
  eexists. split; [exact Hrun |]. split; reflexivity.
Qed.

End NoFaults.

Lemma get_outcomes_witness :
  exists r s',
    get quiet true "/tasks" [] "org"
      (mkState (Some [("org_tasks.json", mkFile (entry_at 0 3600) 100)]) 0 0 [])
    = (Ok r, s') /\
    r = Some "{}".
Proof.
  destruct (get_outcomes quiet quiet_reliable "/tasks" [] "org"
              (mkState (Some [("org_tasks.json", mkFile (entry_at 0 3600) 100)])
                 0 0 [])
              [("org_tasks.json", mkFile (entry_at 0 3600) 100)] eq_refl)
    as (r & s' & H1 & H2 & _).
  exists r, s'. split; [exact H1 |].
  apply (H2 _ _ eq_refl eq_refl eq_refl).
Defined.

Lemma get_miss_repeats_witness :
  exists s2,
    get quiet true "/tasks" [] "org" (mkState (Some []) 1 0 []) = (Ok None, s2) /\
    dir s2 = Some [] /\ unlinked s2 = [].
Proof.
  exact (get_miss_repeats quiet quiet_reliable "/tasks" [] "org" fresh
           (mkState (Some []) 1 0 []) [] eq_refl eq_refl).
Defined.

Lemma set_get_round_trip_witness :
  exists s1 s2,
    set quiet true "/tasks/12" [] "org" "{}" None fresh = (Ok tt, s1) /\
    get quiet true "/tasks/12" [] "org" s1 = (Ok (Some "{}"), s2).
Proof.
  exact (set_get_round_trip quiet quiet_reliable "/tasks/12" [] "org" "{}" None
           fresh [] eq_refl).
Defined.

Lemma set_touches_one_file_witness :
  exists s1 d1,
    set quiet true "/tasks/12" [] "org" "{}" None fresh = (Ok tt, s1) /\
    dir s1 = Some d1 /\
    length d1 = 1%nat /\
    immediates s1 = 1%nat.
Proof.
  destruct (set_touches_one_file quiet quiet_reliable "/tasks/12" [] "org" "{}"
              None fresh [] eq_refl)
    as (s1 & d1 & H1 & H2 & _ & H3 & H4 & _).
  exists s1, d1. repeat split; assumption.
Defined.

Lemma crowded_names : List.NoDup (map fst crowded).
Proof. repeat constructor; simpl; intuition discriminate. Qed.

Lemma invalidate_result_witness :
  exists s',
    invalidate quiet true (Some "tasks") (mkState (Some crowded) 0 0 [])
    = (Ok tt, s') /\
    dir s' = Some [("notes.txt", mkFile Garbage 10)] /\
    unlinked s' = ["a.json"; "b.json"; "c.json"; "d.json"; "e.json"].
Proof.
  destruct (invalidate_result quiet quiet_reliable (Some "tasks")
              (mkState (Some crowded) 0 0 []) crowded eq_refl crowded_names)
    as (s' & H1 & H2 & H3 & _).
  exists s'. split; [exact H1 |]. split; [exact H2 | exact H3].
Defined.

Lemma stats_result_witness :
  exists s',
    stats quiet true (mkState (Some crowded) 0 0 [])
    = (Ok (mkStats 5 94371852 12), s') /\
    dir s' = Some crowded.
Proof.
  destruct (stats_result quiet quiet_reliable (mkState (Some crowded) 0 0 [])
              crowded eq_refl crowded_names)
    as (s' & H1 & H2 & _).
  exists s'. split; [exact H1 | exact H2].
Defined.

Lemma cleanup_keeps_good_cache_witness :
  exists s',
    cleanup quiet
      (mkState (Some [("a.json", mkFile (entry_at 0 3600) 100);
                      ("notes.txt", mkFile Garbage 10)]) 0 0 [])
    = (Ok tt, s') /\
    dir s' = Some [("a.json", mkFile (entry_at 0 3600) 100);
                   ("notes.txt", mkFile Garbage 10)] /\
    unlinked s' = [].
Proof.
  apply (cleanup_keeps_good_cache quiet quiet_reliable
           (mkState (Some [("a.json", mkFile (entry_at 0 3600) 100);
                           ("notes.txt", mkFile Garbage 10)]) 0 0 [])
           [("a.json", mkFile (entry_at 0 3600) 100);
            ("notes.txt", mkFile Garbage 10)] eq_refl).
  - repeat constructor; simpl; intuition discriminate.
  - intros nm f [[= <- <-] | [[= <- <-] | []]] Hjson; [| discriminate].
    eexists. split; [reflexivity |]. intros k Hk. cbn in Hk.
    unfold expired, quiet. cbn. apply Z.ltb_ge. lia.
  - vm_compute. discriminate.
  - vm_compute. lia.
Defined.

(** *** The constructor and the singleton *)

(** A disabled instance is made without touching the file system; an
    enabled one finds its directory or makes it, and the files of a
    directory that exists stay.  Making the directory is not guarded: if
    that fails the constructor throws, and so does [getCache] when it has
    to make the instance. *)
Theorem constructor_outcomes (w : World) (s : State) :
  constructor w false s = (Ok false, s) /\
  (forall d, dir s = Some d -> constructor w true s = (Ok true, s)) /\
  (dir s = None -> fault w (ops s) = false ->
   constructor w true s
   = (Ok true, mkState (Some []) (S (ops s)) (immediates s) (unlinked s))) /\
  (dir s = None -> fault w (ops s) = true ->
   constructor w true s = (Throw, tick s) /\
   getCache w true None s = (Throw, tick s)).
Proof.
  destruct s as [dd n im ul]. unfold getCache, constructor, ensureCacheDir.
  cbn [dir ops immediates unlinked]. split; [reflexivity |].
  split; [intros d ->; reflexivity |].
  split; intros -> Hf; unfold bind, existsSync_dir, mkdirSync, io;
    cbn [dir ops negb]; rewrite bool_decide_eq_false_2 by (intros [? ?]; discriminate);
    cbn [negb ops]; rewrite Hf.
  - reflexivity.
  - split; reflexivity.
Qed.

Lemma constructor_outcomes_witness :
  getCache broken true None (mkState None 0 0 []) = (Throw, mkState None 1 0 []).
Proof.
  apply (proj2 (proj2 (proj2 (constructor_outcomes broken (mkState None 0 0 []))))
           eq_refl eq_refl).
Defined.

(** The instance is made once: while one exists [getCache] hands it out
    whatever [enabled] it is called with, and touches nothing.  So after
    [disableCache] every [getCache] gives a disabled cache, and
    [clearCache] clears nothing, until [resetCache]; after that the next
    [getCache] decides again. *)
Theorem getCache_singleton (w : World) (enabled instance : bool)
    (cacheInstance : Slot) (s : State) :
  getCache w enabled (Some instance) s = (Ok (instance, Some instance), s) /\
  disableCache w cacheInstance s = (Ok (Some false), s) /\
  clearCache w (Some false) s = (Ok (Some false), s) /\
  resetCache cacheInstance s = (Ok None, s) /\
  getCache w false None s = (Ok (false, Some false), s) /\
  (forall r s', getCache w enabled cacheInstance s = (Ok r, s') ->
                snd r = Some (fst r) /\
                (cacheInstance = None -> fst r = enabled)).
Proof.
  repeat split.
  - destruct cacheInstance as [i |]; cbn in H.
    + injection H as <- <-. reflexivity.
    + unfold bind in H. destruct (constructor w enabled s) as [[i |] s1];
        [| discriminate]. injection H as <- <-. reflexivity.
  - intros ->. cbn in H. unfold bind in H.
    destruct (constructor w enabled s) as [[i |] s1] eqn:E; [| discriminate].
    injection H as <- <-. cbn [fst].
    unfold constructor, bind in E.
    destruct ((if enabled then ensureCacheDir w else ret ()) s) as [[u |] s2];
      [| discriminate].
    unfold ret in E. congruence.
Qed.

Lemma getCache_singleton_witness :
  snd (true, Some true) = Some (fst (true, Some true)) /\
  (@None bool = None -> fst (true, Some true) = true).
Proof.
  apply (proj2 (proj2 (proj2 (proj2 (proj2
           (getCache_singleton quiet true true None fresh)))))
           (true, Some true) fresh eq_refl).
Defined.

End FileCacheMore.

(** ** What the cache leaves alone, in any environment *)
Module FileCacheFrame.

Import FileCache FileCacheFacts SweepFacts FileCacheInstance.

Lemma keeps_ret {A} (a : A) (Q : A -> Prop) : Q a -> keeps (ret a) Q.
Proof. intros H s. split; [reflexivity | exact H]. Qed.

Lemma keeps_throw {A} (Q : A -> Prop) : keeps (@throw A) Q.
Proof. intros s. split; [reflexivity | exact I]. Qed.

Lemma keeps_bind {A B} (m : FM A) (k : A -> FM B) (P : A -> Prop)
    (Q : B -> Prop) :
  keeps m P -> (forall a, P a -> keeps (k a) Q) -> keeps (bind m k) Q.
Proof.
  intros Hm Hk s. unfold bind. destruct (Hm s) as [Hs Ha].
  destruct (m s) as [[a |] s1]; cbn [fst snd] in *.
  - destruct (Hk a Ha s1) as [Hs1 Hb]. split; [congruence | exact Hb].
  - split; [exact Hs | exact I].
Qed.

Lemma keeps_try_catch {A} (m h : FM A) (Q : A -> Prop) :
  keeps m Q -> keeps h Q -> keeps (try_catch m h) Q.
Proof.
  intros Hm Hh s. unfold try_catch. destruct (Hm s) as [Hs Ha].
  destruct (m s) as [[a |] s1]; cbn [fst snd] in *.
  - split; assumption.
  - destruct (Hh s1) as [Hs1 Hb]. split; [congruence | exact Hb].
Qed.

Lemma keeps_weaken {A} (m : FM A) (P Q : A -> Prop) :
  keeps m P -> (forall a, P a -> Q a) -> keeps m Q.
Proof.
  intros Hm HPQ s. destruct (Hm s) as [Hs Ha]. split; [exact Hs |].
  destruct (m s).1; auto.
Qed.

Lemma others_remove_file (nm : string) (d : Directory) :
  is_json nm = true ->
  List.filter (fun nf => negb (is_json (fst nf))) (remove_file nm d)
  = List.filter (fun nf => negb (is_json (fst nf))) d.
Proof.
  intros Hnm. unfold remove_file.
  induction d as [| [n f] d IH]; [reflexivity |].
  cbn [List.filter fst]. destruct (String.eqb_spec n nm) as [-> | Hne].
  - cbn [negb]. rewrite Hnm. cbn [negb]. exact IH.
  - cbn [negb List.filter fst]. rewrite IH. reflexivity.
Qed.

Lemma others_write_file (nm : string) (f : File) (d : Directory) :
  is_json nm = true ->
  List.filter (fun nf => negb (is_json (fst nf))) (write_file nm f d)
  = List.filter (fun nf => negb (is_json (fst nf))) d.
Proof.
  intros Hnm. induction d as [| [n g] d IH].
  - cbn [write_file List.filter fst]. rewrite Hnm. reflexivity.
  - cbn [write_file]. destruct (String.eqb_spec n nm) as [-> | Hne].
    + cbn [List.filter fst]. rewrite Hnm. reflexivity.
    + cbn [List.filter fst]. rewrite IH. reflexivity.
Qed.

Lemma starts_with_app (p l : list ascii) : JS.starts_with p (p ++ l) = true.
Proof.
  induction p as [| a p IH]; [destruct l; reflexivity |].
  cbn. rewrite Ascii.eqb_refl. exact IH.
Qed.

Lemma is_json_key (key : string) : is_json (key +:+ ".json") = true.
Proof.
  unfold is_json, JS.endsWith. rewrite ResolverMore.chars_app, rev_app_distr.
  apply starts_with_app.
Qed.

Section World.

Variable w : World.

Lemma keeps_io {A} (f : State -> option (A * State)) (Q : A -> Prop) :
  (forall s a s', f s = Some (a, s') -> other_files s' = other_files s /\ Q a) ->
  keeps (io w f) Q.
Proof.
  intros Hf s. unfold io. destruct (fault w (ops s)).
  - split; [reflexivity | exact I].
  - destruct (f s) as [[a s1] |] eqn:E.
    + destruct (Hf s a s1 E) as [Hs Ha]. split; [exact Hs | exact Ha].
    + split; [reflexivity | exact I].
Qed.

Lemma keeps_getCacheKey (endpoint orgId : string)
    (params : list (string * string)) :
  keeps (getCacheKey w endpoint params orgId) (fun _ => True).
Proof. apply keeps_io. intros s a s1 [= _ <-]. auto. Qed.

Lemma keeps_JSON_stringify (e : CacheEntry) :
  keeps (JSON_stringify w e) (fun _ => True).
Proof. apply keeps_io. intros s a s1 [= _ <-]. auto. Qed.

Lemma keeps_readdirSync : keeps (readdirSync w) (fun _ => True).
Proof.
  apply keeps_io. intros s a s1 H. destruct (dir s); cbn in H; [| discriminate].
  injection H as _ <-. auto.
Qed.

Lemma keeps_statSync (nm : string) : keeps (statSync w nm) (fun _ => True).
Proof.
  apply keeps_io. intros s a s1 H. destruct (dir s) as [d |]; cbn in H;
    [| discriminate].
  destruct (find_file nm d); cbn in H; [| discriminate].
  injection H as _ <-. auto.
Qed.

Lemma keeps_readFileSync (nm : string) :
  keeps (readFileSync w nm) (fun _ => True).
Proof.
  apply keeps_io. intros s a s1 H. destruct (dir s) as [d |]; cbn in H;
    [| discriminate].
  destruct (find_file nm d); cbn in H; [| discriminate].
  injection H as _ <-. auto.
Qed.

Lemma keeps_unlinkSync (nm : string) :
  is_json nm = true -> keeps (unlinkSync w nm) (fun _ => True).
Proof.
  intros Hnm. apply keeps_io. intros s a s1 H.
  unfold other_files. destruct (dir s) as [d |]; cbn in H; [| discriminate].
  destruct (find_file nm d); cbn in H; [| discriminate].
  injection H as _ <-. cbn. rewrite others_remove_file by exact Hnm. auto.
Qed.

Lemma keeps_writeFileSync (nm : string) (f : File) :
  is_json nm = true -> keeps (writeFileSync w nm f) (fun _ => True).
Proof.
  intros Hnm. apply keeps_io. intros s a s1 H.
  unfold other_files. destruct (dir s) as [d |]; cbn in H; [| discriminate].
  injection H as _ <-. cbn. rewrite others_write_file by exact Hnm. auto.
Qed.

Lemma keeps_Date_now : keeps (Date_now w) (fun _ => True).
Proof. intros s. split; [reflexivity | exact I]. Qed.

Lemma keeps_JSON_parse (c : Content) : keeps (JSON_parse c) (fun _ => True).
Proof. destruct c; [apply keeps_ret; exact I | apply keeps_throw]. Qed.

Lemma keeps_existsSync (nm : string) : keeps (existsSync nm) (fun _ => True).
Proof. intros s. split; [reflexivity | exact I]. Qed.

Lemma keeps_existsSync_dir : keeps existsSync_dir (fun _ => True).
Proof. intros s. split; [reflexivity | exact I]. Qed.

Lemma keeps_setImmediate_cleanup : keeps setImmediate_cleanup (fun _ => True).
Proof. intros s. split; [reflexivity | exact I]. Qed.

Lemma keeps_seq {A B} (m : FM A) (k : A -> FM B) (Q : B -> Prop) :
  keeps m (fun _ => True) -> (forall a, keeps (k a) Q) -> keeps (bind m k) Q.
Proof. intros Hm Hk. eapply keeps_bind; [exact Hm | intros a _; apply Hk]. Qed.

Ltac keeps_steps :=
  repeat first
    [ apply keeps_getCacheKey | apply keeps_JSON_stringify
    | apply keeps_readdirSync | apply keeps_statSync | apply keeps_readFileSync
    | apply keeps_Date_now | apply keeps_JSON_parse | apply keeps_existsSync
    | apply keeps_existsSync_dir | apply keeps_setImmediate_cleanup
    | apply keeps_unlinkSync; assumption
    | apply keeps_unlinkSync; apply is_json_key
    | apply keeps_writeFileSync; apply is_json_key
    | apply keeps_ret; exact I
    | apply keeps_try_catch
    | apply keeps_seq; [| intros ?]
    | match goal with
      | |- keeps (if ?b then _ else _) _ => destruct b eqn:?
      end ].

Lemma keeps_get (enabled : bool) (endpoint orgId : string)
    (params : list (string * string)) :
  keeps (get w enabled endpoint params orgId) (fun _ => True).
Proof. unfold get, get_try. keeps_steps. Qed.

Lemma keeps_set (enabled : bool) (endpoint orgId data : string)
    (params : list (string * string)) (options : option CacheOptions) :
  keeps (set w enabled endpoint params orgId data options) (fun _ => True).
Proof. unfold set, set_try. keeps_steps. Qed.

Lemma keeps_invalidate_loop (pattern : option string) (files : list string) :
  keeps (invalidate_loop w files pattern) (fun _ => True).
Proof.
  induction files as [| file rest IH]; cbn [invalidate_loop].
  - keeps_steps.
  - apply keeps_seq; [| intros _; exact IH].
    destruct (is_json file) eqn:Ejson; cbn [negb]; [| keeps_steps].
    destruct (JS.truthy pattern); keeps_steps.
Qed.

Lemma keeps_invalidate (enabled : bool) (pattern : option string) :
  keeps (invalidate w enabled pattern) (fun _ => True).
Proof.
  unfold invalidate, invalidate_try. keeps_steps.
  apply keeps_invalidate_loop.
Qed.

Lemma keeps_stats_loop (files : list string) :
  forall ts old, keeps (stats_loop w files ts old) (fun _ => True).
Proof.
  induction files as [| file rest IH]; intros ts old; cbn [stats_loop].
  - keeps_steps.
  - keeps_steps. apply IH.
Qed.

Lemma keeps_stats (enabled : bool) : keeps (stats w enabled) (fun _ => True).
Proof.
  unfold stats, stats_try. keeps_steps. apply keeps_stats_loop.
Qed.

Lemma keeps_cleanup_scan (files : list string) :
  forall ts infos,
    Forall (fun nm => is_json nm = true) files ->
    Forall json_path infos ->
    keeps (cleanup_scan w files ts infos) (fun r => Forall json_path (snd r)).
Proof.
  induction files as [| file rest IH]; intros ts infos Hfiles Hinfos;
    cbn [cleanup_scan].
  - apply keeps_ret. exact Hinfos.
  - inversion Hfiles as [| ? ? Hfile Hrest]; subst.
    apply keeps_seq; [apply keeps_statSync | intros sz].
    eapply keeps_bind with (P := fun r => Forall json_path (snd r)).
    + apply keeps_try_catch.
      * apply keeps_seq; [apply keeps_readFileSync | intros c].
        apply keeps_seq; [apply keeps_JSON_parse | intros e].
        apply keeps_seq; [apply keeps_Date_now | intros now].
        destruct (expired now e).
        -- apply keeps_seq; [apply keeps_unlinkSync; exact Hfile | intros _].
           apply keeps_ret. exact Hinfos.
        -- apply keeps_ret. cbn [snd]. apply Forall_app. split; [exact Hinfos |].
           constructor; [exact Hfile | constructor].
      * apply keeps_seq; [apply keeps_unlinkSync; exact Hfile | intros _].
        apply keeps_ret. exact Hinfos.
    + intros r Hr. apply IH; assumption.
Qed.

Lemma keeps_cleanup_evict (infos : list FileInfo) :
  forall ts,
    Forall json_path infos ->
    keeps (cleanup_evict w infos ts) (fun _ => True).
Proof.
  induction infos as [| oldest rest IH]; intros ts Hinfos; cbn [cleanup_evict].
  - apply keeps_ret. exact I.
  - inversion Hinfos as [| ? ? Hold Hrest]; subst.
    destruct (over_limits ts (oldest :: rest)); [| apply keeps_ret; exact I].
    apply keeps_seq; [| intros ts'; apply IH; exact Hrest].
    apply keeps_try_catch; [| apply keeps_ret; exact I].
    apply keeps_seq; [apply keeps_unlinkSync; exact Hold | intros _].
    apply keeps_ret. exact I.
Qed.

Lemma keeps_cleanup : keeps (cleanup w) (fun _ => True).
Proof.
  unfold cleanup, cleanup_try. apply keeps_try_catch; [| apply keeps_ret; exact I].
  apply keeps_seq; [apply keeps_readdirSync | intros names].
  eapply keeps_bind.
  - apply keeps_cleanup_scan; [| constructor].
    apply List.Forall_forall. intros nm Hin.
    apply List.filter_In in Hin. tauto.
  - intros r Hr. cbv beta.
    destruct (over_limits r.1 r.2); [| apply keeps_ret; exact I].
    apply keeps_seq; [| intros _; apply keeps_ret; exact I].
    apply keeps_cleanup_evict.
    eapply Permutation_Forall; [| exact Hr].
    symmetry. apply sort_by_timestamp_perm.
Qed.

End World.

(** Whatever the environment does - any operation may fail at any point -
    no operation of the cache creates, changes or deletes a file of the
    cache directory that is not a [.json] file, and none creates or
    removes the directory; this holds for [get], [set], [invalidate],
    [clear], [stats], the sweep and the sweep as queued by [set]. *)
Theorem cache_leaves_other_files (w : World) (enabled : bool)
    (endpoint orgId data : string) (params : list (string * string))
    (options : option CacheOptions) (pattern : option string) (s : State) :
  other_files (get w enabled endpoint params orgId s).2 = other_files s /\
  other_files (set w enabled endpoint params orgId data options s).2
  = other_files s /\
  other_files (invalidate w enabled pattern s).2 = other_files s /\
  other_files (clear w enabled s).2 = other_files s /\
  other_files (stats w enabled s).2 = other_files s /\
  other_files (cleanup w s).2 = other_files s /\
  other_files (run_immediate w s).2 = other_files s.
Proof.
  repeat split.
  - apply keeps_get.
  - apply keeps_set.
  - apply keeps_invalidate.
  - apply (keeps_invalidate w enabled None).
  - apply keeps_stats.
  - apply keeps_cleanup.
  - unfold run_immediate. destruct (immediates s) as [| n]; [reflexivity |].
    apply (keeps_cleanup w (mkState (dir s) (ops s) n (unlinked s))).
Qed.

End FileCacheFrame.

(** ** Configuration *)
Module ConfigFacts.

Import Config.

Lemma either_truthy (a b : option string) :
  JS.truthy (either a b)
  = match JS.truthy a with
    | Some s => Some s
    | None => JS.truthy b
    end.
Proof. unfold either. destruct (JS.truthy a) eqn:E; [exact E | reflexivity]. Qed.

Lemma falsy_either (a b : option string) :
  falsy (either a b) = falsy a && falsy b.
Proof.
  unfold falsy. rewrite either_truthy. destruct (JS.truthy a); reflexivity.
Qed.

(** A value of the store that is set and not empty wins over the
    environment, which is read otherwise; and [baseUrl] is never left
    unset or empty, as the address of the public API stands in. *)
Theorem getConfig_precedence (config : Store) (env : Env) :
  let cfg := getConfig config env in
  (forall v, JS.truthy (config apiToken) = Some v -> cfg_apiToken cfg = Some v) /\
  (JS.truthy (config apiToken) = None ->
   cfg_apiToken cfg = PRODUCTIVE_API_TOKEN env) /\
  (forall v, JS.truthy (config organizationId) = Some v ->
             cfg_organizationId cfg = Some v) /\
  (JS.truthy (config organizationId) = None ->
   cfg_organizationId cfg = PRODUCTIVE_ORG_ID env) /\
  (forall v, JS.truthy (config userId) = Some v -> cfg_userId cfg = Some v) /\
  (JS.truthy (config userId) = None ->
   cfg_userId cfg = PRODUCTIVE_USER_ID env) /\
  (forall v, JS.truthy (config baseUrl) = Some v -> cfg_baseUrl cfg = Some v) /\
  (exists url, cfg_baseUrl cfg = Some url /\ url <> "").
Proof.
  assert (Hsome : forall a b v, JS.truthy a = Some v -> either a b = Some v).
  { intros a b v H. unfold either. rewrite H. destruct a as [s |]; cbn in H;
      [| discriminate]. destruct (String.eqb s ""); congruence. }
  assert (Hnone : forall a b, JS.truthy a = None -> either a b = b).
  { intros a b H. unfold either. rewrite H. reflexivity. }
  cbn [getConfig cfg_apiToken cfg_organizationId cfg_userId cfg_baseUrl].
  repeat split; try (intros; auto; fail).
  - intros v H. rewrite (Hsome _ (PRODUCTIVE_BASE_URL env) v H).
    apply Hsome. cbn. destruct (config baseUrl) as [s |]; cbn in H;
      [| discriminate]. destruct (String.eqb s "") eqn:E; [discriminate |].
    injection H as <-. rewrite E. reflexivity.
  - assert (Ht : exists url,
               JS.truthy (either (either (config baseUrl)
                                    (PRODUCTIVE_BASE_URL env))
                            (Some "https://api.productive.io/api/v2"))
               = Some url).
    { rewrite !either_truthy.
      destruct (JS.truthy (config baseUrl)); [eauto |].
      destruct (JS.truthy (PRODUCTIVE_BASE_URL env)); eauto. }
    destruct Ht as (url & Ht).
    destruct (either _ _) as [s |]; cbn in Ht; [| discriminate].
    exists s. split; [reflexivity |].
    intros ->. discriminate.
Qed.

Lemma getConfig_precedence_witness :
  cfg_apiToken
    (getConfig (fun key => match key with apiToken => Some "stored" | _ => None end)
       (mkEnv (Some "from-env") None None None))
  = Some "stored".
Proof.
  apply (proj1 (getConfig_precedence
                  (fun key => match key with apiToken => Some "stored" | _ => None end)
                  (mkEnv (Some "from-env") None None None))).
  reflexivity.
Defined.

(** [validateConfig] reports a key as missing exactly when neither the
    store nor the environment has a non-empty value for it; the keys come
    in the order [apiToken], [organizationId], [userId], [baseUrl] is
    never among them, and the configuration is valid exactly when nothing
    is missing. *)
Theorem validateConfig_missing (config : Store) (env : Env) :
  let v := validateConfig config env in
  missing v
  = List.filter
      (fun key =>
         if String.eqb key "apiToken"
         then falsy (config apiToken) && falsy (PRODUCTIVE_API_TOKEN env)
         else if String.eqb key "organizationId"
         then falsy (config organizationId) && falsy (PRODUCTIVE_ORG_ID env)
         else falsy (config userId) && falsy (PRODUCTIVE_USER_ID env))
      ["apiToken"; "organizationId"; "userId"] /\
  (valid v = true <-> missing v = []) /\
  (valid v = true <->
   falsy (cfg_apiToken (getConfig config env)) = false /\
   falsy (cfg_organizationId (getConfig config env)) = false /\
   falsy (cfg_userId (getConfig config env)) = false).
Proof.
  cbn [validateConfig getConfig valid missing cfg_apiToken cfg_organizationId
         cfg_userId List.filter].
  cbv zeta. cbn [valid missing cfg_apiToken cfg_organizationId cfg_userId].
  rewrite !falsy_either.
  change (String.eqb "apiToken" "apiToken") with true.
  change (String.eqb "organizationId" "apiToken") with false.
  change (String.eqb "organizationId" "organizationId") with true.
  change (String.eqb "userId" "apiToken") with false.
  change (String.eqb "userId" "organizationId") with false.
  cbv iota.
  destruct (falsy (config apiToken) && falsy (PRODUCTIVE_API_TOKEN env));
    destruct (falsy (config organizationId) && falsy (PRODUCTIVE_ORG_ID env));
    destruct (falsy (config userId) && falsy (PRODUCTIVE_USER_ID env));
    cbn; (split; [reflexivity |]); split; split; intros H;
    try discriminate; try reflexivity; try (destruct H as (? & ? & ?));
    try discriminate; auto.
Qed.

Lemma validateConfig_missing_witness :
  missing (validateConfig (fun _ => None) (mkEnv (Some "t") (Some "") (Some "7") None))
  = ["organizationId"].
Proof.
  exact (proj1 (validateConfig_missing (fun _ => None)
                  (mkEnv (Some "t") (Some "") (Some "7") None))).
Defined.

Lemma length_chars (s : string) : length (JS.chars s) = String.length s.
Proof. induction s as [| c s IH]; [reflexivity |]. cbn. f_equal. exact IH. Qed.

(** A token of at most eight characters is hidden altogether.  Of a
    longer one the mask shows the first four and the last four characters
    and nothing else: it has eleven characters whatever the length of the
    token, and two tokens that agree on their first and last four
    characters have the same mask. *)
Theorem maskToken_hides_middle (token : string) :
  ((String.length token <= 8)%nat -> maskToken token = "***") /\
  ((8 < String.length token)%nat ->
   JS.chars (maskToken token)
   = take 4 (JS.chars token) ++ JS.chars "..."
     ++ drop (String.length token - 4) (JS.chars token) /\
   String.length (maskToken token) = 11%nat /\
   forall other,
     (8 < String.length other)%nat ->
     take 4 (JS.chars other) = take 4 (JS.chars token) ->
     drop (String.length other - 4) (JS.chars other)
     = drop (String.length token - 4) (JS.chars token) ->
     maskToken other = maskToken token).
Proof.
  assert (Hlong : forall t, (8 < String.length t)%nat ->
            maskToken t
            = JS.of_chars (take 4 (JS.chars t)) +:+ "..."
              +:+ JS.of_chars (drop (String.length t - 4) (JS.chars t))).
  { intros t Hlen. unfold maskToken.
    assert (Hf : falsy (Some t) = false).
    { destruct t; [cbn in Hlen; lia | reflexivity]. }
    rewrite Hf. cbn [orb].
    destruct (Nat.leb_spec (String.length t) 8) as [Hle | _]; [lia |].
    unfold substring.
    replace (Nat.min 0 (String.length t)) with 0%nat by lia.
    replace (Nat.min 4 (String.length t)) with 4%nat by lia.
    replace (Nat.min (String.length t - 4) (String.length t))
      with (String.length t - 4)%nat by lia.
    replace (Nat.min (String.length t) (String.length t))
      with (String.length t) by lia.
    replace (Nat.max 0 4 - Nat.min 0 4)%nat with 4%nat by reflexivity.
    replace (Nat.min 0 4) with 0%nat by reflexivity.
    replace (Nat.max (String.length t - 4) (String.length t)
             - Nat.min (String.length t - 4) (String.length t))%nat
      with 4%nat by lia.
    replace (Nat.min (String.length t - 4) (String.length t))
      with (String.length t - 4)%nat by lia.
    rewrite drop_0. f_equal. f_equal. f_equal.
    apply take_ge. rewrite length_drop, length_chars. lia. }
  split.
  - intros Hlen. unfold maskToken.
    destruct (Nat.leb_spec (String.length token) 8) as [_ | Hgt]; [| lia].
    rewrite orb_true_r. reflexivity.
  - intros Hlen. rewrite (Hlong token Hlen).
    assert (Hchars :
              JS.chars
                (JS.of_chars (take 4 (JS.chars token)) +:+ "..."
                 +:+ JS.of_chars
                       (drop (String.length token - 4) (JS.chars token)))
              = take 4 (JS.chars token) ++ JS.chars "..."
                ++ drop (String.length token - 4) (JS.chars token)).
    { rewrite !ResolverMore.chars_app, !ResolverMore.chars_of_chars.
      reflexivity. }
    split; [exact Hchars |]. split.
    + rewrite <- length_chars, Hchars.
      rewrite !length_app, length_take, length_drop, length_chars.
      cbn [JS.chars list_ascii_of_string length]. lia.
    + intros other Hother Hfirst Hlast.
      rewrite (Hlong other Hother), Hfirst, Hlast. reflexivity.
Qed.

Lemma maskToken_hides_middle_witness :
  maskToken "pk_live_0123456789" = maskToken "pk_l-something-else-6789".
Proof.
  apply (proj2 (proj2 (proj2 (maskToken_hides_middle "pk_l-something-else-6789")
                         ltac:(cbn; lia)))).
  - cbn. lia.
  - reflexivity.
  - reflexivity.
Defined.

End ConfigFacts.

(** ** The [cache] command *)
Module CacheCommandFacts.

Import CacheCommand.

(** A duration of a whole number of seconds, not negative and at most
    [MAX_SAFE_INTEGER], is shown as a whole number of the largest of the
    units second, minute, hour and day that fits into it, rounded down:
    below 60 for seconds and minutes, below 24 for hours. *)
Theorem formatDuration_units (seconds : Z) :
  0 <= seconds <= MAX_SAFE_INTEGER ->
  exists (v secs : Z) (unit : string),
    formatDuration seconds = show v +:+ unit /\
    In (unit, secs) [("s", 1); ("m", 60); ("h", 3600); ("d", 86400)] /\
    v * secs <= seconds < (v + 1) * secs /\
    0 <= v <= MAX_SAFE_INTEGER /\
    (unit = "d" \/ v < 60) /\
    (unit = "h" -> v < 24).
Proof.
  intros [Hpos Hmax]. unfold formatDuration.
  destruct (Z.ltb_spec seconds 60) as [H1 | H1].
  { exists seconds, 1, "s". split; [reflexivity |].
    split; [cbn; auto |]. split; [lia |]. split; [lia |].
    split; [right; lia |]. intros [=]. }
  destruct (Z.ltb_spec seconds 3600) as [H2 | H2].
  { exists (seconds / 60), 60, "m". split; [reflexivity |].
    split; [cbn; auto |].
    pose proof (Z.div_mod seconds 60 ltac:(lia)) as Hdm.
    pose proof (Z.mod_pos_bound seconds 60 ltac:(lia)) as Hb.
    split; [lia |]. split; [lia |]. split; [right; lia |]. intros [=]. }
  destruct (Z.ltb_spec seconds 86400) as [H3 | H3].
  { exists (seconds / 3600), 3600, "h". split; [reflexivity |].
    split; [cbn; auto |].
    pose proof (Z.div_mod seconds 3600 ltac:(lia)) as Hdm.
    pose proof (Z.mod_pos_bound seconds 3600 ltac:(lia)) as Hb.
    split; [lia |]. split; [lia |]. split; [right; lia |]. intros _. lia. }
  exists (seconds / 86400), 86400, "d". split; [reflexivity |].
  split; [cbn; auto 10 |].
  pose proof (Z.div_mod seconds 86400 ltac:(lia)) as Hdm.
  pose proof (Z.mod_pos_bound seconds 86400 ltac:(lia)) as Hb.
  split; [lia |]. split; [lia |]. split; [left; reflexivity |]. intros [=].
Qed.

Lemma formatDuration_units_witness :
  exists (v secs : Z) (unit : string),
    formatDuration 7325 = show v +:+ unit /\
    In (unit, secs) [("s", 1); ("m", 60); ("h", 3600); ("d", 86400)] /\
    v * secs <= 7325 < (v + 1) * secs /\
    0 <= v <= MAX_SAFE_INTEGER /\
    (unit = "d" \/ v < 60) /\
    (unit = "h" -> v < 24).
Proof. apply (formatDuration_units 7325). vm_compute. intuition discriminate. Defined.

End CacheCommandFacts.
